(** * image8bit: 8-bit grayscale images (image8bit.c)

    A shallow embedding of the image module.  Images live in a store
    indexed by addresses, as the C code reaches them through [Image]
    pointers, so that two pointers may name the same image; every
    operation is a computation over that store which may have no result
    (a failed [assert], a step C leaves undefined, or a loop that never
    ends).

    Conventions.
    - [int] values are integers in [Z].  Where the code computes a sum or
      a product from arguments that it has not checked ([width * height]
      in [ImageCreate] and [ImageLoad], [x + w] in [ImageValidRect], the
      counters and sums of [ImageBlur]), the result is the one the machine
      gives, reduced to 32 bits in two's complement: [wrap_int].  In the
      other operations the assertions and loop tests of the code keep the
      result within [int] on every image that fits its own fields
      ([wf_image]), and the operation on [Z] gives the same number.  A
      number read by [%d] is stored as the C library stores it:
      [stored_int].
    - Conversions to [uint8] are written out with [to_uint8] (reduction
      modulo 256); the conversion of a double to [int] is defined only
      within the range of [int].
    - [double] is the primitive binary64 float.
    - [malloc], [fopen] and the writes to a file may fail: the operations
      that use them take the outcome as a parameter.
    - The instrumentation counter PIXMEM (InstrCount[0] of
      instrumentation.h) and the C library's errno belong to other
      modules and are not part of the state modelled here. *)

From Stdlib Require Import ZArith Ascii PrimFloat FloatOps SpecFloat Uint63.
From stdpp Require Import base option list gmap strings.

Open Scope Z_scope.

(** ** Machine types *)

Definition INT_MIN : Z := - 2 ^ 31.
Definition INT_MAX : Z := 2 ^ 31 - 1.

(** The [int] that the machine leaves for the result [z] of an [int]
    operation: [z] itself when it fits, else [z] reduced modulo 2^32 into
    the range of [int]. *)
Definition wrap_int (z : Z) : Z := (z - INT_MIN) mod 2 ^ 32 + INT_MIN.

Definition LONG_MIN : Z := - 2 ^ 63.
Definition LONG_MAX : Z := 2 ^ 63 - 1.

(** What [%d] stores in its [int] for the number [n] written in the input:
    the C library converts the digits as [strtol] does, to a [long] that
    stops at LONG_MIN and LONG_MAX, and stores the low 32 bits of it. *)
Definition stored_int (n : Z) : Z := wrap_int (Z.max LONG_MIN (Z.min LONG_MAX n)).

(** Conversion of an integer to [uint8]. *)
Definition to_uint8 (z : Z) : Z := z mod 256.

(** [const uint8 PixMax = 255;] *)
Definition PixMax : Z := 255.

(** A C truth value. *)
Definition of_bool (b : bool) : Z := if b then 1 else 0.

(** The code of a character constant. *)
Definition chr (a : ascii) : Z := Z.of_N (N_of_ascii a).

(** The bytes of a string literal. *)
Fixpoint bytes_of (s : string) : list Z :=
  match s with
  | EmptyString => []
  | String a s' => chr a :: bytes_of s'
  end.

Definition newline : Z := 10.

(** ** Doubles *)

(** The integer part (truncation toward zero) of a finite double. *)
Definition trunc_double (d : float) : option Z :=
  match Prim2SF d with
  | S754_zero _ => Some 0
  | S754_finite sg m e =>
      let a := if 0 <=? e then Z.pos m * 2 ^ e else Z.pos m / 2 ^ (- e) in
      Some (if sg then - a else a)
  | S754_infinity _ | S754_nan => None
  end.

(** [(int)d]: defined only when the integer part fits [int]. *)
Definition double_to_int (d : float) : option Z :=
  match trunc_double d with
  | Some z => if (INT_MIN <=? z) && (z <=? INT_MAX) then Some z else None
  | None => None
  end.

(** Conversion of a small non-negative integer to double (exact). *)
Definition int_to_double (z : Z) : float := PrimFloat.of_uint63 (Uint63.of_Z z).

(** ** The image structure and the store *)

(** [struct image]; the pixel array is kept with the structure that owns it. *)
Record image := mkImage {
  width : Z;
  height : Z;
  maxval : Z;        (* maximum gray value (pixels with maxval are pure WHITE) *)
  pixel : list Z     (* pixel data (a raster scan) *)
}.

(** The structure [im] with pixel array [p]. *)
Definition with_pixel (im : image) (p : list Z) : image :=
  mkImage (width im) (height im) (maxval im) p.

Definition loc := positive.

(** An [Image] is a pointer to a [struct image]; [None] is NULL. *)
Definition Image := option loc.

Record world := mkWorld {
  hp : gmap loc image;            (* allocated images *)
  errCause : string;              (* static char *errCause *)
  fs : gmap string (list Z)       (* files, by name *)
}.

Definition set_hp (f : gmap loc image → gmap loc image) (w : world) : world :=
  mkWorld (f (hp w)) (errCause w) (fs w).
Definition set_errCause (s : string) (w : world) : world :=
  mkWorld (hp w) s (fs w).
Definition set_fs (f : gmap string (list Z) → gmap string (list Z)) (w : world) : world :=
  mkWorld (hp w) (errCause w) (f (fs w)).

(** ** Computations: state passing, [None] when the call has no result *)

Definition M (A : Type) : Type := world → option (A * world).

#[global] Instance M_ret : MRet M := λ A a w, Some (a, w).
#[global] Instance M_bind : MBind M := λ A B f m w,
  match m w with
  | Some (a, w') => f a w'
  | None => None
  end.

Definition abort {A} : M A := λ _, None.
Definition get_world : M world := λ w, Some (w, w).
Definition modify (f : world → world) : M unit := λ w, Some (tt, f w).

(** [assert(b)] *)
Definition assert (b : bool) : M unit := if b then mret tt else abort.

(** A value that C leaves undefined aborts the computation. *)
Definition defined {A} (o : option A) : M A :=
  match o with Some a => mret a | None => abort end.

(** [assert(img != NULL)] followed by access to [*img]. *)
Definition deref (img : Image) : M image :=
  match img with
  | None => abort
  | Some l => w ← get_world; defined (hp w !! l)
  end.

(** Store to [*img]. *)
Definition store (img : Image) (im : image) : M unit :=
  match img with
  | None => abort
  | Some l => w ← get_world; _ ← defined (hp w !! l); modify (set_hp <[l := im]>)
  end.

(** ** Loops *)

(** [n] iterations of [body], the counter starting at [i], threading the
    loop's local variables [s]. *)
Fixpoint for_acc {St} (n : nat) (i : Z) (body : Z → St → M St) (s : St) : M St :=
  match n with
  | O => mret s
  | S n' => s' ← body i s; for_acc n' (i + 1) body s'
  end.

(** [for (int i = lo; i < hi; i++) body] *)
Definition for_range (lo hi : Z) (body : Z → M unit) : M unit :=
  for_acc (Z.to_nat (hi - lo)) lo (λ i _, body i) tt.

(** The same with local variables. *)
Definition for_range_acc {St} (lo hi : Z) (body : Z → St → M St) (s : St) : M St :=
  for_acc (Z.to_nat (hi - lo)) lo body s.

(** A loop whose body may [return r]: [Some r] when it did. *)
Fixpoint for_ret {R} (n : nat) (i : Z) (body : Z → M (option R)) : M (option R) :=
  match n with
  | O => mret None
  | S n' =>
      r ← body i;
      match r with
      | Some v => mret (Some v)
      | None => for_ret n' (i + 1) body
      end
  end.

Definition for_range_ret {R} (lo hi : Z) (body : Z → M (option R)) : M (option R) :=
  for_ret (Z.to_nat (hi - lo)) lo body.

(** At most [fuel] tests of [for (int i = lo; i <= hi; i++) body], with
    local variables.  The counter wraps around as an [int] does, so that
    when [hi] is INT_MAX no counter is above it and the loop never ends:
    a loop that is still running after [fuel] tests has no result. *)
Fixpoint for_le_fuel {St} (fuel : nat) (i hi : Z) (body : Z → St → M St) (s : St) : M St :=
  match fuel with
  | O => abort
  | S fuel' =>
      if i <=? hi then
        s' ← body i s; for_le_fuel fuel' (wrap_int (i + 1)) hi body s'
      else mret s
  end.

(** [for (int i = lo; i <= hi; i++) body]: a loop that ends does so when
    the counter, started at [lo] and stepping by one, is above [hi], at its
    test number [hi - lo + 2] (the first, when [lo] is above [hi]). *)
Definition for_le_acc {St} (lo hi : Z) (body : Z → St → M St) (s : St) : M St :=
  for_le_fuel (S (Z.to_nat (hi - lo + 1))) lo hi body s.

(** ** Error cause *)

(** [static int check(int condition, const char *failmsg)] *)
Definition check (condition : bool) (failmsg : string) : M bool :=
  _ ← modify (set_errCause (if condition then "" else failmsg));
  mret condition.

(** ** Creation and destruction *)

(** What the two [malloc] calls of [ImageCreate] do. *)
Inductive alloc_outcome := AllocOK | StructFails | PixelFails.

#[global] Instance alloc_outcome_eq_dec : EqDecision alloc_outcome.
Proof. solve_decision. Defined.

(** [Image ImageCreate(int width, int height, uint8 maxval)]; the structure
    and its pixel array are one object of the store, and the loop that
    clears the array leaves [numPixels] zeros. *)
Definition ImageCreate (a : alloc_outcome) (width height maxval : Z) : M Image :=
  _ ← assert (0 <=? width);
  _ ← assert (0 <=? height);
  _ ← assert ((0 <? maxval) && (maxval <=? PixMax));
  match a with
  | StructFails =>
      _ ← modify (set_errCause "Memory allocation for Image structure failed");
      mret None
  | _ =>
      let numPixels := wrap_int (width * height) in
      (* malloc(numPixels * sizeof(uint8)): a negative numPixels converts to
         a size no allocation can have *)
      if bool_decide (a = PixelFails) || (numPixels <? 0) then
        _ ← modify (set_errCause "Memory allocation for pixel array failed");
        mret None
      else
        w ← get_world;
        let l := fresh (dom (hp w)) in
        _ ← modify (set_hp <[l := mkImage width height maxval
                                    (replicate (Z.to_nat numPixels) 0)]>);
        mret (Some l)
  end.

(** [void ImageDestroy(Image *imgp)], for [imgp] the address of a pointer
    variable holding [img]: returns the new value of that variable. *)
Definition ImageDestroy (img : Image) : M Image :=
  match img with
  | None => mret None
  | Some l =>
      w ← get_world;
      _ ← defined (hp w !! l);
      _ ← modify (set_hp (delete l));
      mret None
  end.

(** ** Pixel access *)

(** [int ImageValidPos(Image img, int x, int y)] *)
Definition ImageValidPos (img : Image) (x y : Z) : M Z :=
  im ← deref img;
  mret (of_bool (((0 <=? x) && (x <? width im)) && ((0 <=? y) && (y <? height im)))).

(** [int ImageValidRect(Image img, int x, int y, int w, int h)] *)
Definition ImageValidRect (img : Image) (x y w h : Z) : M Z :=
  im ← deref img;
  mret (of_bool (((0 <=? x) && (wrap_int (x + w) <=? width im))
                 && ((0 <=? y) && (wrap_int (y + h) <=? height im)))).

(** [static inline int G(Image img, int x, int y)] *)
Definition G (img : Image) (x y : Z) : M Z :=
  im ← deref img;
  _ ← assert ((0 <=? x) && (x <? width im));
  _ ← assert ((0 <=? y) && (y <? height im));
  let index := y * width im + x in
  _ ← assert ((0 <=? index) && (index <? width im * height im));
  mret index.

(** [uint8 ImageGetPixel(Image img, int x, int y)] *)
Definition ImageGetPixel (img : Image) (x y : Z) : M Z :=
  im ← deref img;
  ok ← ImageValidPos img x y;
  _ ← assert (negb (ok =? 0));
  index ← G img x y;
  defined (pixel im !! Z.to_nat index).

(** [void ImageSetPixel(Image img, int x, int y, uint8 level)] *)
Definition ImageSetPixel (img : Image) (x y : Z) (level : Z) : M unit :=
  im ← deref img;
  ok ← ImageValidPos img x y;
  _ ← assert (negb (ok =? 0));
  index ← G img x y;
  _ ← defined (pixel im !! Z.to_nat index);
  store img (with_pixel im (<[Z.to_nat index := level]> (pixel im))).

(** ** Point operators *)

(** [void ImageBrighten(Image img, double factor)] *)
Definition ImageBrighten (img : Image) (factor : float) : M unit :=
  im ← deref img;
  let width := width im in
  let height := height im in
  let maxval := to_uint8 (maxval im) in
  for_range 0 height (λ y,
    for_range 0 width (λ x,
      currentPixel ← ImageGetPixel img x y;
      v ← defined (double_to_int (int_to_double currentPixel * factor)%float);
      let newPixel := to_uint8 v in
      let newPixel := if maxval <? newPixel then maxval else newPixel in
      ImageSetPixel img x y newPixel)).

(** ** Geometric operators *)

(** [Image ImageRotate(Image img)] *)
Definition ImageRotate (a : alloc_outcome) (img : Image) : M Image :=
  im ← deref img;
  let width := width im in
  let height := height im in
  rotatedImage ← ImageCreate a height width (to_uint8 (maxval im));
  match rotatedImage with
  | None => mret None
  | Some _ =>
      _ ← for_range 0 height (λ y,
            for_range 0 width (λ x,
              pixel ← ImageGetPixel img x y;
              ImageSetPixel rotatedImage (height - y - 1) x pixel));
      mret rotatedImage
  end.

(** ** Compositor *)

(** [void ImagePaste(Image img1, int x, int y, Image img2)] *)
Definition ImagePaste (img1 : Image) (x y : Z) (img2 : Image) : M unit :=
  _ ← deref img1;
  im2 ← deref img2;
  ok ← ImageValidRect img1 x y (width im2) (height im2);
  _ ← assert (negb (ok =? 0));
  for_range 0 (height im2) (λ j,
    for_range 0 (width im2) (λ i,
      pixel ← ImageGetPixel img2 i j;
      ImageSetPixel img1 (x + i) (y + j) pixel)).

(** [int ImageMatchSubImage(Image img1, int x, int y, Image img2)] *)
Definition ImageMatchSubImage (img1 : Image) (x y : Z) (img2 : Image) : M Z :=
  _ ← deref img1;
  im2 ← deref img2;
  ok ← ImageValidPos img1 x y;
  _ ← assert (negb (ok =? 0));
  r ← for_range_ret 0 (height im2) (λ j,
        for_range_ret 0 (width im2) (λ i,
          pixel1 ← ImageGetPixel img1 (x + i) (y + j);
          pixel2 ← ImageGetPixel img2 i j;
          if negb (pixel1 =? pixel2) then mret (Some 0) else mret None));
  match r with
  | Some v => mret v
  | None => mret 1
  end.

(** [int ImageLocateSubImage(Image img1, int *px, int *py, Image img2)]:
    returns the result together with the values left in [*px] and [*py],
    which start as [px0], [py0]. *)
Definition ImageLocateSubImage (img1 : Image) (px0 py0 : Z) (img2 : Image)
  : M (Z * (Z * Z)) :=
  im1 ← deref img1;
  im2 ← deref img2;
  let width1 := width im1 in
  let height1 := height im1 in
  let width2 := width im2 in
  let height2 := height im2 in
  r ← for_range_ret 0 (height1 - height2 + 1) (λ y,
        for_range_ret 0 (width1 - width2 + 1) (λ x,
          m ← ImageMatchSubImage img1 x y img2;
          if negb (m =? 0) then mret (Some (1, (x, y))) else mret None));
  match r with
  | Some v => mret v
  | None => mret (0, (px0, py0))
  end.

(** ** Blur *)

(** [void ImageBlur(Image img, int dx, int dy)] *)
Definition ImageBlur (a : alloc_outcome) (img : Image) (dx dy : Z) : M unit :=
  im ← deref img;
  let width := width im in
  let height := height im in
  originalImage ← ImageCreate a width height (to_uint8 (maxval im));
  match originalImage with
  | None => mret tt
  | Some _ =>
      _ ← for_range 0 height (λ y,
            for_range 0 width (λ x,
              pixel ← ImageGetPixel img x y;
              ImageSetPixel originalImage x y pixel));
      for_range 0 height (λ y,
        for_range 0 width (λ x,
          let sum := 0 in
          let count := 0 in
          _ ← for_le_acc (wrap_int (- dy)) dy (λ j,
                for_le_acc (wrap_int (- dx)) dx (λ i '(sum, count),
                  ok ← ImageValidPos originalImage (wrap_int (x + i)) (wrap_int (y + j));
                  if negb (ok =? 0) then
                    p ← ImageGetPixel originalImage (wrap_int (x + i)) (wrap_int (y + j));
                    mret (wrap_int (sum + p), wrap_int (count + 1))
                  else mret (sum, count))) (sum, count);
          mret tt))
  end.

(** ** Information queries *)

(** [char *ImageErrMsg()] *)
Definition ImageErrMsg : M string := w ← get_world; mret (errCause w).

(** [int ImageWidth(Image img)] *)
Definition ImageWidth (img : Image) : M Z := im ← deref img; mret (width im).

(** [int ImageHeight(Image img)] *)
Definition ImageHeight (img : Image) : M Z := im ← deref img; mret (height im).

(** [int ImageMaxval(Image img)] *)
Definition ImageMaxval (img : Image) : M Z := im ← deref img; mret (maxval im).

(** [void ImageStats(Image img, uint8 *min, uint8 *max)], for [min] and
    [max] two distinct non-NULL pointers: returns the values left in
    [*min] and [*max]. *)
Definition ImageStats (img : Image) : M (Z * Z) :=
  im ← deref img;
  let width := width im in
  let height := height im in
  if (width <=? 0) || (height <=? 0) then mret (0, 0) else
  first ← defined (pixel im !! 0%nat);
  for_range_acc 1 (width * height) (λ i '(min, max),
    pixel_value ← defined (pixel im !! Z.to_nat i);
    let min := if pixel_value <? min then pixel_value else min in
    let max := if max <? pixel_value then pixel_value else max in
    mret (min, max)) (first, first).

(** ** More point operators *)

(** [void ImageNegative(Image img)] *)
Definition ImageNegative (img : Image) : M unit :=
  im ← deref img;
  let width := width im in
  let height := height im in
  for_range 0 height (λ y,
    for_range 0 width (λ x,
      currentPixel ← ImageGetPixel img x y;
      let negativePixel := to_uint8 (PixMax - currentPixel) in
      ImageSetPixel img x y negativePixel)).

(** [void ImageThreshold(Image img, uint8 thr)] *)
Definition ImageThreshold (img : Image) (thr : Z) : M unit :=
  im ← deref img;
  let width := width im in
  let height := height im in
  let maxval := to_uint8 (maxval im) in
  for_range 0 height (λ y,
    for_range 0 width (λ x,
      currentPixel ← ImageGetPixel img x y;
      let newPixel := if currentPixel <? thr then 0 else maxval in
      ImageSetPixel img x y newPixel)).

(** ** More geometric operators *)

(** [Image ImageMirror(Image img)] *)
Definition ImageMirror (a : alloc_outcome) (img : Image) : M Image :=
  im ← deref img;
  let width := width im in
  let height := height im in
  mirroredImage ← ImageCreate a width height (to_uint8 (maxval im));
  match mirroredImage with
  | None => mret None
  | Some _ =>
      _ ← for_range 0 height (λ y,
            for_range 0 width (λ x,
              pixel ← ImageGetPixel img x y;
              ImageSetPixel mirroredImage (width - x - 1) y pixel));
      mret mirroredImage
  end.

(** [Image ImageCrop(Image img, int x, int y, int w, int h)] *)
Definition ImageCrop (a : alloc_outcome) (img : Image) (x y w h : Z) : M Image :=
  im ← deref img;
  ok ← ImageValidRect img x y w h;
  _ ← assert (negb (ok =? 0));
  croppedImage ← ImageCreate a w h (to_uint8 (maxval im));
  match croppedImage with
  | None => mret None
  | Some _ =>
      _ ← for_range 0 h (λ j,
            for_range 0 w (λ i,
              pixel ← ImageGetPixel img (x + i) (y + j);
              ImageSetPixel croppedImage i j pixel));
      mret croppedImage
  end.

(** ** Blending *)

(** [(uint8)d]: defined only when the integer part fits [uint8]. *)
Definition double_to_uint8 (d : float) : option Z :=
  match trunc_double d with
  | Some z => if (0 <=? z) && (z <=? 255) then Some z else None
  | None => None
  end.

(** [void ImageBlend(Image img1, int x, int y, Image img2, double alpha)] *)
Definition ImageBlend (img1 : Image) (x y : Z) (img2 : Image) (alpha : float) : M unit :=
  _ ← deref img1;
  im2 ← deref img2;
  ok ← ImageValidRect img1 x y (width im2) (height im2);
  _ ← assert (negb (ok =? 0));
  for_range 0 (height im2) (λ j,
    for_range 0 (width im2) (λ i,
      pixel1 ← ImageGetPixel img1 (x + i) (y + j);
      pixel2 ← ImageGetPixel img2 i j;
      blendedPixel ← defined (double_to_uint8
                       (alpha * int_to_double pixel1
                        + (1.0 - alpha) * int_to_double pixel2)%float);
      ImageSetPixel img1 (x + i) (y + j) blendedPixel)).

(** ** The C library's formatted input and output, on byte streams *)

(** An open input file: the bytes not yet read. *)
Abbreviation stream := (list Z).

Definition isspace (c : Z) : bool := (c =? 32) || ((9 <=? c) && (c <=? 13)).
Definition isdigit (c : Z) : bool := (chr "0" <=? c) && (c <=? chr "9").

(** A white-space directive: skip any white space. *)
Fixpoint skip_ws (f : stream) : stream :=
  match f with
  | c :: f' => if isspace c then skip_ws f' else f
  | [] => []
  end.

(** The digits of a number, most significant first, read into [acc]. *)
Fixpoint scan_digits (acc : Z) (f : stream) : Z * stream :=
  match f with
  | c :: f' => if isdigit c then scan_digits (acc * 10 + (c - chr "0")) f' else (acc, f)
  | [] => (acc, [])
  end.

(** The conversion [%d] to an [int]: white space, an optional sign, one
    or more digits.  [None] when nothing was assigned. *)
Definition scan_int (f : stream) : option (Z * stream) :=
  let f1 := skip_ws f in
  let '(neg, f2) :=
    match f1 with
    | c :: t => if c =? chr "-" then (true, t)
                else if c =? chr "+" then (false, t) else (false, f1)
    | [] => (false, f1)
    end in
  match f2 with
  | c :: _ =>
      if isdigit c then
        let '(n, f3) := scan_digits 0 f2 in
        Some (stored_int (if neg then - n else n), f3)
      else None
  | [] => None
  end.

(** [fscanf(f, "P%c ", &c) == 1], with the character assigned. *)
Definition fscanf_P_c (f : stream) : option (Z * stream) :=
  match f with
  | p :: c :: f' => if p =? chr "P" then Some (c, skip_ws f') else None
  | _ => None
  end.

(** [fscanf(f, "%d ", &n) == 1], with the number assigned. *)
Definition fscanf_d_ws (f : stream) : option (Z * stream) :=
  match scan_int f with
  | Some (n, f') => Some (n, skip_ws f')
  | None => None
  end.

(** [fscanf(f, "%d", &n) == 1] *)
Definition fscanf_d (f : stream) : option (Z * stream) := scan_int f.

(** [fscanf(f, "%c", &c) == 1] *)
Definition fscanf_c (f : stream) : option (Z * stream) :=
  match f with
  | c :: f' => Some (c, f')
  | [] => None
  end.

(** The longest prefix without a newline, and what follows it. *)
Fixpoint scan_line (f : stream) : list Z * stream :=
  match f with
  | c :: f' => if c =? newline then ([], f)
               else let '(l, r) := scan_line f' in (c :: l, r)
  | [] => ([], [])
  end.

(** [fscanf(f, "#%*[^\n]%c", &c)]: the character assigned when the call
    returned 1, and the stream it leaves. *)
Definition fscanf_comment (f : stream) : option Z * stream :=
  match f with
  | c0 :: f1 =>
      if c0 =? chr "#" then
        match scan_line f1 with
        | ([], _) => (None, f1)
        | (_ :: _, c :: f2) => (Some c, f2)
        | (_ :: _, []) => (None, [])
        end
      else (None, f)
  | [] => (None, [])
  end.

(** The loop of [skipComments]; every turn that continues consumes input,
    so [S (length f)] turns are never exhausted. *)
Fixpoint skipComments_loop (fuel : nat) (f : stream) (i : Z) : Z * stream :=
  match fuel with
  | O => (i, f)
  | S fuel' =>
      match fscanf_comment f with
      | (Some c, f') =>
          if c =? newline then skipComments_loop fuel' f' (i + 1) else (i, f')
      | (None, f') => (i, f')
      end
  end.

(** [static int skipComments(FILE *f)] *)
Definition skipComments (f : stream) : Z * stream :=
  skipComments_loop (S (length f)) f 0.

(** Decimal digits of a non-negative number. *)
Fixpoint digits_aux (fuel : nat) (n : Z) (acc : list Z) : list Z :=
  match fuel with
  | O => acc
  | S fuel' =>
      let acc' := (chr "0" + n mod 10) :: acc in
      if n <? 10 then acc' else digits_aux fuel' (n / 10) acc'
  end.

(** What [%u] prints. *)
Definition print_uint (n : Z) : list Z :=
  digits_aux (S (Z.to_nat (Z.log2 n))) n [].

(** What [%d] prints. *)
Definition print_int (n : Z) : list Z :=
  if n <? 0 then chr "-" :: print_uint (- n) else print_uint n.

(** ** PGM files *)

(** One conjunct [check(step, failmsg) && ...] of a chain of steps: [step]
    is [None] when the condition fails, which ends the chain with the
    image pointer still NULL. *)
Definition check_step {A} (step : option A) (failmsg : string)
    (k : A → M (bool * Image)) : M (bool * Image) :=
  ok ← check (bool_decide (is_Some step)) failmsg;
  match step with
  | Some v => k v
  | None => mret (ok, None)
  end.

(** The conditions of the header steps of [ImageLoad], each with the
    stream it leaves and the value it assigns. *)

(** [fscanf(f, "P%c ", &c) == 1 && c == '5'] *)
Definition read_magic (f : stream) : option stream :=
  '(c, f) ← fscanf_P_c f; guard (c = chr "5");; Some f.

(** [fscanf(f, "%d ", &w) == 1 && w >= 0], for the width and the height. *)
Definition read_size (f : stream) : option (Z * stream) :=
  '(n, f) ← fscanf_d_ws f; guard (0 ≤ n);; Some (n, f).

(** [fscanf(f, "%d", &maxval) == 1 && 0 < maxval && maxval <= (int)PixMax] *)
Definition read_maxval (f : stream) : option (Z * stream) :=
  '(maxval, f) ← fscanf_d f; guard (0 < maxval ≤ PixMax);; Some (maxval, f).

(** [fscanf(f, "%c", &c) == 1 && isspace(c)] *)
Definition read_space (f : stream) : option stream :=
  '(c, f) ← fscanf_c f; guard (isspace c = true);; Some f.

(** The chain of steps of [ImageLoad]: the value of [success] and of [img]
    when it ends. *)
Definition ImageLoad_steps (a : alloc_outcome) (filename : string) : M (bool * Image) :=
  wd ← get_world;
  check_step (fs wd !! filename) "Open failed" (λ f,
  check_step (read_magic f) "Invalid file format" (λ f,
  let '(n, f) := skipComments f in
  if negb (0 <=? n) then mret (false, None) else
  check_step (read_size f) "Invalid width" (λ '(w, f),
  let '(n, f) := skipComments f in
  if negb (0 <=? n) then mret (false, None) else
  check_step (read_size f) "Invalid height" (λ '(h, f),
  let '(n, f) := skipComments f in
  if negb (0 <=? n) then mret (false, None) else
  check_step (read_maxval f) "Invalid maxval" (λ '(maxval, f),
  check_step (read_space f) "Whitespace expected" (λ f,
  img ← ImageCreate a w h (to_uint8 maxval);
  match img with
  | None => mret (false, None)
  | Some _ =>
      (* fread(img->pixel, sizeof(uint8), w * h, f) == w * h *)
      im ← deref img;
      let count := wrap_int (w * h) in
      let data := take (Z.to_nat count) f in
      _ ← store img (with_pixel im (data ++ drop (length data) (pixel im)));
      ok ← check (Z.of_nat (length data) =? count) "Reading pixels";
      mret (ok, img)
  end)))))).

(** [Image ImageLoad(const char *filename)] *)
Definition ImageLoad (a : alloc_outcome) (filename : string) : M Image :=
  '(success, img) ← ImageLoad_steps a filename;
  (* Cleanup *)
  if negb success then ImageDestroy img else mret img.

(** What opening and writing the output file do. *)
Inductive write_outcome := WriteOK | OpenFails | HeaderFails | PixelsFail.

#[global] Instance write_outcome_eq_dec : EqDecision write_outcome.
Proof. solve_decision. Defined.

(** The header [fprintf(f, "P5\n%d %d\n%u\n", w, h, maxval)] prints. *)
Definition pgm_header (w h maxval : Z) : list Z :=
  bytes_of "P5" ++ [newline] ++ print_int w ++ [chr " "] ++ print_int h
    ++ [newline] ++ print_uint maxval ++ [newline].

(** [int ImageSave(Image img, const char *filename)].  A write that fails
    leaves the file with what was written before it. *)
Definition ImageSave (o : write_outcome) (img : Image) (filename : string) : M Z :=
  im ← deref img;
  let w := width im in
  let h := height im in
  let maxval := to_uint8 (maxval im) in
  ok ← check (negb (bool_decide (o = OpenFails))) "Open failed";
  if negb ok then mret 0 else
  _ ← modify (set_fs <[filename := []]>);
  let header := pgm_header w h maxval in
  ok ← check (negb (bool_decide (o = HeaderFails)) && (0 <? Z.of_nat (length header)))
             "Writing header failed";
  if negb ok then mret 0 else
  _ ← modify (set_fs <[filename := header]>);
  let raster := take (Z.to_nat (w * h)) (pixel im) in
  ok ← check (negb (bool_decide (o = PixelsFail)) && (Z.of_nat (length raster) =? w * h))
             "Writing pixels failed";
  if negb ok then mret 0 else
  _ ← modify (set_fs <[filename := header ++ raster]>);
  mret 1.

(** ** Specification vocabulary *)

(** The data-model invariants of an image, as the structure can hold it:
    the width, the height and the number of pixels are [int] values. *)
Definition wf_image (im : image) : Prop :=
  0 ≤ width im ∧ 0 ≤ height im ∧ 0 < maxval im ≤ 255
  ∧ Z.of_nat (length (pixel im)) = width im * height im
  ∧ Forall (λ s, 0 ≤ s ≤ 255) (pixel im)
  ∧ width im ≤ INT_MAX ∧ height im ≤ INT_MAX ∧ width im * height im ≤ INT_MAX.

#[global] Instance wf_image_dec im : Decision (wf_image im).
Proof. unfold wf_image. apply _. Defined.

(** The sample at column [x], row [y]: offset [y * width + x]. *)
Definition sample (im : image) (x y : Z) : option Z :=
  pixel im !! Z.to_nat (y * width im + x).

Definition set_sample (im : image) (x y v : Z) : image :=
  with_pixel im (<[Z.to_nat (y * width im + x) := v]> (pixel im)).

(** Two structures with the same dimensions, maxval and array length. *)
Definition same_shape (im1 im2 : image) : Prop :=
  width im1 = width im2 ∧ height im1 = height im2 ∧ maxval im1 = maxval im2
  ∧ length (pixel im1) = length (pixel im2).

(** The pixel array of the image at [l] once [m] has run from [w]. *)
Definition pixels_after {A} (m : M A) (w : world) (l : loc) : option (list Z) :=
  match m w with
  | Some (_, w') => pixel <$> hp w' !! l
  | None => None
  end.

(** A store holding the single image [im], at address 1. *)
Definition single (im : image) : world := mkWorld {[ 1%positive := im ]} "" ∅.

(** What [ImagePaste] keeps true of the destination at [l1] while it
    copies [im2] to the rectangle anchored at (x, y): only the image at
    [l1] differs from the initial store [w], its shape is that of [im1],
    and its samples outside the rectangle are those of [im1]. *)
Definition paste_inv (w : world) (l1 : loc) (im1 im2 : image) (x y : Z)
    (w' : world) : Prop :=
  ∃ im1', hp w' = <[l1 := im1']> (hp w) ∧ same_shape im1' im1
          ∧ ∀ x' y', 0 ≤ x' < width im1 → 0 ≤ y' < height im1 →
                     ¬ (x ≤ x' < x + width im2 ∧ y ≤ y' < y + height im2) →
                     sample im1' x' y' = sample im1 x' y'.

(** What [ImageRotate] keeps true while it copies [im], when its loops
    are about to handle column [x] of row [y]: the initial store [w] has
    gained one image, of the rotated shape, which holds the samples of the
    positions handled so far. *)
Definition rotate_inv (w : world) (im : image) (y x : Z) (w' : world) : Prop :=
  ∃ r, hp w' = <[fresh (dom (hp w)) := r]> (hp w)
       ∧ same_shape r (mkImage (height im) (width im) (maxval im)
                               (replicate (Z.to_nat (height im * width im)) 0))
       ∧ ∀ x' y', 0 ≤ x' < width im → 0 ≤ y' < height im →
                  y' < y ∨ (y' = y ∧ x' < x) →
                  sample r (height im - 1 - y') x' = sample im x' y'.


(** The neighbourhood mean the blur is to compute at (x, y), in the words
    of its contract: the sum of the samples of [im] at the positions of
    [x - dx, x + dx] x [y - dy, y + dy] that lie in the image, divided
    (truncating) by the number of those positions. *)
Definition window (im : image) (dx dy x y : Z) : list Z :=
  j ← seqZ (y - dy) (2 * dy + 1);
  i ← seqZ (x - dx) (2 * dx + 1);
  if ((0 <=? i) && (i <? width im)) && ((0 <=? j) && (j <? height im))
  then default 0 (sample im i j) :: [] else [].

Definition blur_mean (im : image) (dx dy x y : Z) : Z :=
  Z.quot (foldr Z.add 0 (window im dx dy x y)) (Z.of_nat (length (window im dx dy x y))).

(** The value of a digit string read after [a]. *)
Definition digits_value (l : list Z) (a : Z) : Z :=
  fold_left (λ a c, a * 10 + (c - chr "0")) l a.

(** A stream on which the scan of a number stops at once. *)
Definition stops_number (f : stream) : Prop :=
  match f with
  | [] => True
  | c :: _ => isdigit c = false
  end.

(** What holds when the chain of steps of [ImageLoad] ends, started from
    [w]: files are as they were; either no image was created, the chain
    failed and the store is as before, or one image was created at a
    fresh address; and the error cause is empty exactly on success. *)
Definition steps_post (w : world) (success : bool) (img : Image) (w1 : world) : Prop :=
  fs w1 = fs w
  ∧ match img with
    | None => success = false ∧ hp w1 = hp w
    | Some l' => hp w !! l' = None ∧ ∃ im, hp w1 = <[l' := im]> (hp w)
    end
  ∧ (success = true ↔ errCause w1 = "").

(** What [ImageBrighten] makes of one sample: the product, cut to its
    integer part, narrowed to [uint8], and only then compared with maxval. *)
Definition brighten_sample (maxval : Z) (factor : float) (s : Z) : option Z :=
  v ← double_to_int (int_to_double s * factor)%float;
  let newPixel := to_uint8 v in
  Some (if maxval <? newPixel then maxval else newPixel).

(** What [ImageBrighten] keeps true of the image at [l] when its loops are
    about to handle column [x] of row [y]: the positions handled so far
    hold the brightened samples of [im], the others still those of [im]. *)
Definition brighten_inv (w : world) (l : loc) (im : image) (factor : float)
    (y x : Z) (w' : world) : Prop :=
  ∃ im', hp w' = <[l := im']> (hp w) ∧ same_shape im' im
         ∧ ∀ x' y', 0 ≤ x' < width im → 0 ≤ y' < height im →
                    sample im' x' y'
                    = if decide (y' < y ∨ (y' = y ∧ x' < x))
                      then sample im x' y' ≫= brighten_sample (maxval im) factor
                      else sample im x' y'.

(** Position (i', o') of a two-level loop (outer counter [o], inner
    counter [i]) is handled before position (i, o). *)
Definition before (o' i' o i : Z) : Prop := o' < o ∨ (o' = o ∧ i' < i).

(** What a two-level loop over [0, W) x [0, H) keeps true when each turn
    (i, o) writes the value [val i o] at position [dst i o] of the image
    at [ld], when it is about to handle (i, o): only the image at [ld]
    differs from the initial store [w]; it has the shape of [imd]; the
    positions written so far hold their values; every other position
    holds the sample of [imd]. *)
Definition grid_inv (w : world) (ld : loc) (imd : image) (W H : Z)
    (dst : Z → Z → Z * Z) (val : Z → Z → option Z) (o i : Z) (w' : world) : Prop :=
  ∃ imd', w' = set_hp <[ld := imd']> w ∧ same_shape imd' imd
          ∧ (∀ i' o', 0 ≤ i' < W → 0 ≤ o' < H → before o' i' o i →
                      sample imd' (dst i' o').1 (dst i' o').2 = val i' o')
          ∧ (∀ x y, 0 ≤ x < width imd → 0 ≤ y < height imd →
                    (∀ i' o', 0 ≤ i' < W → 0 ≤ o' < H → before o' i' o i →
                              dst i' o' ≠ (x, y)) →
                    sample imd' x y = sample imd x y).

(** Every sample is a byte. *)
Definition byte_samples (im : image) : Prop := Forall (λ s, 0 ≤ s ≤ 255) (pixel im).

(** [P] holds of every byte value (decided by enumeration). *)
Definition all_bytes (P : Z → bool) : bool := forallb P (seqZ 0 256).

(** What [ImageBlend] makes of a destination sample [p1] and a source
    sample [p2]. *)
Definition blend_value (alpha : float) (p1 p2 : Z) : option Z :=
  double_to_uint8 (alpha * int_to_double p1 + (1.0 - alpha) * int_to_double p2)%float.

(** The image [im2] placed at (x, y) agrees with [im1] on every sample. *)
Definition agree (im1 im2 : image) (x y : Z) : Prop :=
  ∀ i j, 0 ≤ i < width im2 → 0 ≤ j < height im2 →
         sample im1 (x + i) (y + j) = sample im2 i j.

(** A comment line of a PGM header: [#], a text, the end of the line. *)
Definition comment_line (text : list Z) : list Z := chr "#" :: text ++ [newline].

Definition comment_lines (texts : list (list Z)) : list Z :=
  concat (map comment_line texts).

(** The text of a comment is not empty and stays on its line. *)
Definition comment_text (text : list Z) : Prop :=
  text ≠ [] ∧ Forall (λ c, c ≠ newline) text.

(** A header as [ImageSave] prints it, with comment lines before each of
    the three numbers. *)
Definition commented_header (c1 c2 c3 : list (list Z)) (w h maxval : Z) : list Z :=
  bytes_of "P5" ++ [newline] ++ comment_lines c1 ++ print_int w ++ [chr " "]
    ++ comment_lines c2 ++ print_int h ++ [newline]
    ++ comment_lines c3 ++ print_uint maxval ++ [newline].

(** A run of white space. *)
Definition blank (s : list Z) : Prop := Forall (λ c, isspace c = true) s.


(** ** Basic facts about computations *)

Lemma bind_unfold {A B} (m : M A) (f : A → M B) w :
  (m ≫= f) w = match m w with Some (a, w') => f a w' | None => None end.
Proof. reflexivity. Qed.

Lemma bind_Some {A B} (m : M A) (f : A → M B) w a w' :
  m w = Some (a, w') → (m ≫= f) w = f a w'.
Proof. intros H. rewrite bind_unfold, H. reflexivity. Qed.

Lemma ret_unfold {A} (a : A) w : (mret a : M A) w = Some (a, w).
Proof. reflexivity. Qed.

Lemma assert_true b w : b = true → assert b w = Some (tt, w).
Proof. intros ->. reflexivity. Qed.

Lemma deref_Some w l im : hp w !! l = Some im → deref (Some l) w = Some (im, w).
Proof.
  intros H. unfold deref. rewrite bind_unfold. cbn. rewrite H. reflexivity.
Qed.

Lemma store_Some w l im im' :
  hp w !! l = Some im → store (Some l) im' w = Some (tt, set_hp <[l := im']> w).
Proof.
  intros H. unfold store. rewrite bind_unfold. cbn. rewrite bind_unfold, H. reflexivity.
Qed.

Lemma hp_set_hp f w : hp (set_hp f w) = f (hp w).
Proof. reflexivity. Qed.

(** ** Pixel access on a well-shaped image *)

Section PixelAccess.
Variables (w : world) (l : loc) (im : image).
Hypothesis Hl : hp w !! l = Some im.
Hypothesis Hlen : Z.of_nat (length (pixel im)) = width im * height im.

Lemma index_in_range x y :
  0 ≤ x < width im → 0 ≤ y < height im →
  0 ≤ y * width im + x < width im * height im.
Proof. intros Hx Hy. nia. Qed.

Lemma sample_is_Some x y :
  0 ≤ x < width im → 0 ≤ y < height im → is_Some (sample im x y).
Proof.
  intros Hx Hy. apply lookup_lt_is_Some.
  pose proof (index_in_range x y Hx Hy). lia.
Qed.

Lemma ImageValidPos_eq x y :
  ImageValidPos (Some l) x y w
  = Some (of_bool (((0 <=? x) && (x <? width im)) && ((0 <=? y) && (y <? height im))), w).
Proof.
  unfold ImageValidPos. rewrite (bind_Some _ _ _ _ _ (deref_Some _ _ _ Hl)).
  reflexivity.
Qed.

Lemma valid_pos_true x y :
  0 ≤ x < width im → 0 ≤ y < height im →
  ((0 <=? x) && (x <? width im)) && ((0 <=? y) && (y <? height im)) = true.
Proof. intros Hx Hy. repeat (apply andb_true_intro; split); lia. Qed.

Lemma G_eq x y :
  0 ≤ x < width im → 0 ≤ y < height im →
  G (Some l) x y w = Some (y * width im + x, w).
Proof.
  intros Hx Hy. unfold G.
  rewrite (bind_Some _ _ _ _ _ (deref_Some _ _ _ Hl)).
  rewrite (bind_Some _ _ w tt w) by (apply assert_true; lia).
  rewrite (bind_Some _ _ w tt w) by (apply assert_true; lia).
  pose proof (index_in_range x y Hx Hy).
  rewrite (bind_Some _ _ w tt w) by (apply assert_true; lia).
  reflexivity.
Qed.

Lemma ImageGetPixel_eq x y v :
  0 ≤ x < width im → 0 ≤ y < height im → sample im x y = Some v →
  ImageGetPixel (Some l) x y w = Some (v, w).
Proof.
  intros Hx Hy Hv. unfold ImageGetPixel.
  rewrite (bind_Some _ _ _ _ _ (deref_Some _ _ _ Hl)).
  rewrite (bind_Some _ _ _ _ _ (ImageValidPos_eq x y)).
  rewrite (valid_pos_true x y Hx Hy). cbn [of_bool].
  rewrite (bind_Some _ _ w tt w) by reflexivity.
  rewrite (bind_Some _ _ _ _ _ (G_eq x y Hx Hy)).
  unfold sample in Hv. rewrite Hv. reflexivity.
Qed.

Lemma ImageSetPixel_eq x y v :
  0 ≤ x < width im → 0 ≤ y < height im →
  ImageSetPixel (Some l) x y v w
  = Some (tt, set_hp <[l := set_sample im x y v]> w).
Proof.
  intros Hx Hy. unfold ImageSetPixel.
  rewrite (bind_Some _ _ _ _ _ (deref_Some _ _ _ Hl)).
  rewrite (bind_Some _ _ _ _ _ (ImageValidPos_eq x y)).
  rewrite (valid_pos_true x y Hx Hy). cbn [of_bool].
  rewrite (bind_Some _ _ w tt w) by reflexivity.
  rewrite (bind_Some _ _ _ _ _ (G_eq x y Hx Hy)).
  destruct (sample_is_Some x y Hx Hy) as [v0 Hv0]. unfold sample in Hv0.
  rewrite Hv0. cbn [defined]. rewrite (bind_Some _ _ w v0 w) by reflexivity.
  apply store_Some with (im := im). exact Hl.
Qed.
End PixelAccess.

(** ** Samples and in-place updates *)

Lemma set_sample_shape im x y v : same_shape (set_sample im x y v) im.
Proof. unfold same_shape, set_sample, with_pixel. cbn. rewrite length_insert. auto. Qed.

Lemma sample_set_same im x y v :
  Z.of_nat (length (pixel im)) = width im * height im →
  0 ≤ x < width im → 0 ≤ y < height im →
  sample (set_sample im x y v) x y = Some v.
Proof.
  intros Hlen Hx Hy. unfold sample, set_sample, with_pixel. cbn.
  apply list_lookup_insert_eq. nia.
Qed.

Lemma sample_set_other im x y v x' y' :
  0 ≤ x < width im → 0 ≤ y →
  0 ≤ x' < width im → 0 ≤ y' →
  (x', y') ≠ (x, y) →
  sample (set_sample im x y v) x' y' = sample im x' y'.
Proof.
  intros Hx Hy Hx' Hy' Hne. unfold sample, set_sample, with_pixel. cbn.
  apply list_lookup_insert_ne. intros Heq.
  assert (y * width im + x = y' * width im + x') as E by nia.
  assert (y = y') by nia. subst y'.
  assert (x = x') by lia. subst x'. congruence.
Qed.

Lemma same_shape_refl im : same_shape im im.
Proof. unfold same_shape. auto. Qed.

Lemma same_shape_trans im1 im2 im3 :
  same_shape im1 im2 → same_shape im2 im3 → same_shape im1 im3.
Proof. unfold same_shape. intuition congruence. Qed.

Lemma same_shape_len im1 im2 :
  same_shape im1 im2 →
  Z.of_nat (length (pixel im2)) = width im2 * height im2 →
  Z.of_nat (length (pixel im1)) = width im1 * height im1.
Proof. unfold same_shape. intros (-> & -> & _ & ->). auto. Qed.

(** ** Loop rules *)

Lemma for_acc_inv {St} (P : Z → St → world → Prop) (body : Z → St → M St) n :
  ∀ i s w,
    P i s w →
    (∀ j s w, i ≤ j < i + Z.of_nat n → P j s w →
       ∃ s' w', body j s w = Some (s', w') ∧ P (j + 1) s' w') →
    ∃ s' w', for_acc n i body s w = Some (s', w') ∧ P (i + Z.of_nat n) s' w'.
Proof.
  induction n as [|n IH]; intros i s w HP Hstep.
  - exists s, w. split; [reflexivity|]. replace (i + Z.of_nat 0) with i by lia. exact HP.
  - destruct (Hstep i s w) as (s1 & w1 & Hb & HP1); [lia|exact HP|].
    destruct (IH (i + 1) s1 w1 HP1) as (s2 & w2 & Hf & HP2).
    { intros j s' w' Hj. apply Hstep. lia. }
    exists s2, w2. split.
    + cbn [for_acc]. rewrite (bind_Some _ _ _ _ _ Hb). exact Hf.
    + replace (i + Z.of_nat (S n)) with (i + 1 + Z.of_nat n) by lia. exact HP2.
Qed.

Lemma for_range_inv (P : Z → world → Prop) lo hi (body : Z → M unit) w :
  lo ≤ hi → P lo w →
  (∀ j w, lo ≤ j < hi → P j w → ∃ w', body j w = Some (tt, w') ∧ P (j + 1) w') →
  ∃ w', for_range lo hi body w = Some (tt, w') ∧ P hi w'.
Proof.
  intros Hle HP Hstep. unfold for_range.
  destruct (for_acc_inv (λ i _ w, P i w) (λ i _, body i) (Z.to_nat (hi - lo)) lo tt w HP)
    as ([] & w' & Hf & HP').
  { intros j [] w0 Hj HPj. destruct (Hstep j w0) as (w1 & Hb & HP1); [lia|exact HPj|].
    exists tt, w1. auto. }
  exists w'. split; [exact Hf|]. replace hi with (lo + Z.of_nat (Z.to_nat (hi - lo))) by lia.
  exact HP'.
Qed.

(** A loop over no index does nothing. *)
Lemma for_range_empty lo hi (body : Z → M unit) w :
  hi ≤ lo → for_range lo hi body w = Some (tt, w).
Proof. intros H. unfold for_range. replace (Z.to_nat (hi - lo)) with O by lia. reflexivity. Qed.

(** A loop whose turns only read the store, and never return, falls through. *)
Lemma for_ret_none {R} (body : Z → M (option R)) w n :
  ∀ i, (∀ j, i ≤ j < i + Z.of_nat n → body j w = Some (None, w)) →
       for_ret n i body w = Some (None, w).
Proof.
  induction n as [|n IH]; intros i H; [reflexivity|].
  cbn [for_ret]. rewrite (bind_Some _ _ _ _ _ (H i ltac:(lia))).
  apply IH. intros j Hj. apply H. lia.
Qed.

Lemma for_range_ret_none {R} (body : Z → M (option R)) w lo hi :
  (∀ j, lo ≤ j < hi → body j w = Some (None, w)) →
  for_range_ret lo hi body w = Some (None, w).
Proof. intros H. apply for_ret_none. intros j Hj. apply H. lia. Qed.


(** ** Machine integers *)

Lemma wrap_int_small z : INT_MIN ≤ z ≤ INT_MAX → wrap_int z = z.
Proof.
  unfold wrap_int, INT_MIN, INT_MAX. intros H.
  rewrite Z.mod_small by lia. lia.
Qed.

Lemma wrap_int_range z : INT_MIN ≤ wrap_int z ≤ INT_MAX.
Proof.
  unfold wrap_int, INT_MIN, INT_MAX.
  pose proof (Z.mod_pos_bound (z - - 2 ^ 31) (2 ^ 32) ltac:(lia)). lia.
Qed.

Lemma stored_int_small n : INT_MIN ≤ n ≤ INT_MAX → stored_int n = n.
Proof.
  intros H. unfold stored_int, LONG_MIN, LONG_MAX.
  unfold INT_MIN, INT_MAX in H.
  rewrite Z.min_r, Z.max_r by lia. apply wrap_int_small. exact H.
Qed.

Lemma stored_int_range n : INT_MIN ≤ stored_int n ≤ INT_MAX.
Proof. apply wrap_int_range. Qed.

(** ** Loops with a counter that wraps around *)







(** ** Creation *)

Lemma fresh_not_allocated (w : world) : hp w !! fresh (dom (hp w)) = None.
Proof. apply not_elem_of_dom. apply is_fresh. Qed.

Lemma ImageCreate_ok w width height maxval :
  0 ≤ width → 0 ≤ height → 0 < maxval ≤ 255 → width * height ≤ INT_MAX →
  ImageCreate AllocOK width height maxval w
  = Some (Some (fresh (dom (hp w))),
          set_hp <[fresh (dom (hp w)) :=
                     mkImage width height maxval
                             (replicate (Z.to_nat (width * height)) 0)]> w).
Proof.
  intros Hw Hh Hm Hint. unfold ImageCreate, PixMax.
  rewrite (bind_Some _ _ w tt w) by (apply assert_true; lia).
  rewrite (bind_Some _ _ w tt w) by (apply assert_true; lia).
  rewrite (bind_Some _ _ w tt w) by (apply assert_true; lia).
  rewrite wrap_int_small by (unfold INT_MIN; nia).
  rewrite (proj2 (Z.ltb_ge _ _)) by nia.
  reflexivity.
Qed.

Lemma ImageCreate_no_memory a w width height maxval :
  a ≠ AllocOK → 0 ≤ width → 0 ≤ height → 0 < maxval ≤ 255 →
  ∃ msg, ImageCreate a width height maxval w = Some (None, set_errCause msg w)
         ∧ msg ≠ "".
Proof.
  intros Ha Hw Hh Hm. unfold ImageCreate, PixMax.
  rewrite (bind_Some _ _ w tt w) by (apply assert_true; lia).
  rewrite (bind_Some _ _ w tt w) by (apply assert_true; lia).
  rewrite (bind_Some _ _ w tt w) by (apply assert_true; lia).
  destruct a; [congruence| |]; eexists; (split; [reflexivity|discriminate]).
Qed.

(** Whatever the arguments that pass its assertions, [ImageCreate] returns:
    NULL with a cause, or a new image at an unused address. *)
Lemma ImageCreate_total a w width height maxval :
  0 ≤ width → 0 ≤ height → 0 < maxval ≤ 255 →
  (∃ msg, ImageCreate a width height maxval w = Some (None, set_errCause msg w)
          ∧ msg ≠ "")
  ∨ (a = AllocOK ∧ 0 ≤ wrap_int (width * height)
     ∧ ImageCreate a width height maxval w
       = Some (Some (fresh (dom (hp w))),
               set_hp <[fresh (dom (hp w)) :=
                          mkImage width height maxval
                            (replicate (Z.to_nat (wrap_int (width * height))) 0)]> w)).
Proof.
  intros Hw Hh Hm. unfold ImageCreate, PixMax.
  rewrite (bind_Some _ _ w tt w) by (apply assert_true; lia).
  rewrite (bind_Some _ _ w tt w) by (apply assert_true; lia).
  rewrite (bind_Some _ _ w tt w) by (apply assert_true; lia).
  destruct a.
  - destruct (Z.ltb_spec (wrap_int (width * height)) 0) as [Hneg|Hpos].
    + left. eexists. split; [reflexivity|discriminate].
    + right. repeat split; auto.
  - left. eexists. split; [reflexivity|discriminate].
  - left. eexists. split; [reflexivity|discriminate].
Qed.

Lemma to_uint8_small z : 0 ≤ z ≤ 255 → to_uint8 z = z.
Proof. intros H. unfold to_uint8. apply Z.mod_small. lia. Qed.

Lemma wf_image_int im :
  wf_image im →
  width im ≤ INT_MAX ∧ height im ≤ INT_MAX ∧ width im * height im ≤ INT_MAX.
Proof. intros (_ & _ & _ & _ & _ & H). exact H. Qed.

(** A rectangle that lies within an image that fits its fields passes the
    test of [ImageValidRect]: its sums stay within [int]. *)
Lemma valid_rect_true (im : image) (x y cw ch : Z) :
  0 ≤ x → INT_MIN ≤ x + cw ≤ width im → width im ≤ INT_MAX →
  0 ≤ y → INT_MIN ≤ y + ch ≤ height im → height im ≤ INT_MAX →
  ((0 <=? x) && (wrap_int (x + cw) <=? width im))
  && ((0 <=? y) && (wrap_int (y + ch) <=? height im)) = true.
Proof.
  intros. rewrite !wrap_int_small by lia.
  repeat (apply andb_true_intro; split); lia.
Qed.

(** ** Rotation *)

Section Rotate.
Variables (w : world) (l : loc) (im : image).
Hypothesis Hl : hp w !! l = Some im.
Hypothesis Hwf : wf_image im.

Abbreviation l' := (fresh (dom (hp w))).
Abbreviation r0 := (mkImage (height im) (width im) (maxval im)
                            (replicate (Z.to_nat (height im * width im)) 0)).

Lemma rotate_step y x w' :
  0 ≤ y < height im → 0 ≤ x < width im → rotate_inv w im y x w' →
  ∃ w'', (pixel ← ImageGetPixel (Some l) x y;
          ImageSetPixel (Some l') (height im - y - 1) x pixel) w' = Some (tt, w'')
         ∧ rotate_inv w im y (x + 1) w''.
Proof.
  intros Hy Hx (r & Hhp & Hsh & Hdone).
  destruct Hwf as (Hw0 & Hh0 & Hmax & Hlen & _).
  assert (l ≠ l') as Hne.
  { intros E. pose proof (fresh_not_allocated w) as F. congruence. }
  assert (hp w' !! l = Some im) as Hl1 by (rewrite Hhp, lookup_insert_ne; auto).
  assert (hp w' !! l' = Some r) as Hl2 by (rewrite Hhp; apply lookup_insert_eq).
  destruct (sample_is_Some im Hlen x y Hx Hy) as [v Hv].
  rewrite (bind_Some _ _ _ _ _ (ImageGetPixel_eq w' l im Hl1 x y v Hx Hy Hv)).
  destruct Hsh as (Hrw & Hrh & Hrm & Hrl). cbn in Hrw, Hrh, Hrm, Hrl.
  assert (Z.of_nat (length (pixel r)) = width r * height r) as Hrlen.
  { rewrite Hrl, length_replicate, Hrw, Hrh. lia. }
  rewrite (ImageSetPixel_eq w' l' r Hl2 Hrlen) by lia.
  eexists. split; [reflexivity|].
  exists (set_sample r (height im - y - 1) x v). split; [|split].
  - rewrite hp_set_hp, Hhp. apply insert_insert_eq.
  - eapply same_shape_trans; [apply set_sample_shape|].
    unfold same_shape; cbn; auto.
  - intros x' y' Hx' Hy' Hlt.
    destruct (decide ((x', y') = (x, y))) as [E|E].
    + inversion E; subst x' y'.
      replace (height im - 1 - y) with (height im - y - 1) by lia.
      rewrite Hv. apply sample_set_same; [exact Hrlen|lia|lia].
    + assert (x' ≠ x ∨ y' ≠ y) as E2.
      { destruct (decide (x' = x)); [right|left; auto]. intros ->. apply E. congruence. }
      rewrite sample_set_other; [apply Hdone; auto; lia|lia|lia|lia|lia|].
      intros E'. inversion E'. lia.
Qed.

Lemma rotate_row y w' :
  0 ≤ y < height im → rotate_inv w im y 0 w' →
  ∃ w'', for_range 0 (width im) (λ x,
           pixel ← ImageGetPixel (Some l) x y;
           ImageSetPixel (Some l') (height im - y - 1) x pixel) w' = Some (tt, w'')
         ∧ rotate_inv w im (y + 1) 0 w''.
Proof.
  intros Hy Hinv. destruct Hwf as (Hw0 & _).
  destruct (for_range_inv (rotate_inv w im y) 0 (width im) (λ x,
              pixel ← ImageGetPixel (Some l) x y;
              ImageSetPixel (Some l') (height im - y - 1) x pixel) w' Hw0 Hinv)
    as (w'' & Hrun & r & Hhp & Hsh & Hdone).
  { intros x w1 Hx Hinv1. apply rotate_step; auto. }
  exists w''. split; [exact Hrun|]. exists r. repeat split; try apply Hsh; auto.
  intros x' y' Hx' Hy' Hlt. apply Hdone; auto. lia.
Qed.

Lemma rotate_loops :
  ∃ w'', for_range 0 (height im) (λ y,
           for_range 0 (width im) (λ x,
             pixel ← ImageGetPixel (Some l) x y;
             ImageSetPixel (Some l') (height im - y - 1) x pixel))
           (set_hp <[l' := r0]> w) = Some (tt, w'')
         ∧ rotate_inv w im (height im) 0 w''.
Proof.
  destruct Hwf as (_ & Hh0 & _).
  apply (for_range_inv (λ y, rotate_inv w im y 0)); [exact Hh0| |].
  - exists r0. split; [reflexivity|]. split; [apply same_shape_refl|].
    intros x' y' Hx' Hy' Hlt. lia.
  - intros y w1 Hy Hinv. apply rotate_row; auto.
Qed.
End Rotate.

(** C4: for every well-formed image [im] of width w and height h (stored
    at [l]), [ImageRotate] returns the address [l'] of a fresh image [r]
    of width h and height w with the same maxval; every sample of [im] at
    a valid position (x, y) is the sample of [r] at (h - 1 - y, x); and the
    store is otherwise as before, so [im] itself is not changed.  (When
    the allocation fails instead, NULL is returned and no image changes.) *)
Theorem ImageRotate_spec (w : world) (l : loc) (im : image) :
  hp w !! l = Some im → wf_image im →
  (∃ l' r w',
     ImageRotate AllocOK (Some l) w = Some (Some l', w')
     ∧ hp w !! l' = None
     ∧ hp w' = <[l' := r]> (hp w)
     ∧ hp w' !! l = Some im
     ∧ width r = height im ∧ height r = width im ∧ maxval r = maxval im
     ∧ Z.of_nat (length (pixel r)) = width r * height r
     ∧ ∀ x y, 0 ≤ x < width im → 0 ≤ y < height im →
              is_Some (sample im x y)
              ∧ sample r (height im - 1 - y) x = sample im x y)
  ∧ (∀ a, a ≠ AllocOK →
          ∃ w', ImageRotate a (Some l) w = Some (None, w') ∧ hp w' = hp w).
Proof.
  intros Hl Hwf. pose proof Hwf as (Hw0 & Hh0 & Hmax & Hlen & _). split.
  - destruct (rotate_loops w l im Hl Hwf) as (w' & Hrun & r & Hhp & Hsh & Hdone).
    pose proof (fresh_not_allocated w) as Hfresh.
    exists (fresh (dom (hp w))), r, w'.
    destruct Hsh as (Hrw & Hrh & Hrm & Hrl). cbn in Hrw, Hrh, Hrm, Hrl.
    repeat split; auto.
    + unfold ImageRotate.
      rewrite (bind_Some _ _ _ _ _ (deref_Some _ _ _ Hl)).
      rewrite to_uint8_small by lia.
      rewrite (bind_Some _ _ _ _ _ (ImageCreate_ok w _ _ _ Hh0 Hw0 Hmax
                                      ltac:(destruct (wf_image_int im Hwf) as (_ & _ & ?); lia))).
      cbv beta iota. rewrite (bind_Some _ _ _ _ _ Hrun). reflexivity.
    + rewrite Hhp, lookup_insert_ne; [exact Hl|].
      intros E. rewrite E in Hfresh. congruence.
    + rewrite Hrl, length_replicate, Hrw, Hrh. lia.
    + apply sample_is_Some; auto.
    + apply Hdone; auto. lia.
  - intros a Ha. unfold ImageRotate.
    rewrite (bind_Some _ _ _ _ _ (deref_Some _ _ _ Hl)).
    rewrite to_uint8_small by lia.
    destruct (ImageCreate_no_memory a w _ _ _ Ha Hh0 Hw0 Hmax) as (msg & Hc & _).
    rewrite (bind_Some _ _ _ _ _ Hc). eexists. split; reflexivity.
Qed.

Lemma ImageRotate_spec_witness :
  (∃ l' r w',
     ImageRotate AllocOK (Some 1%positive) (single (mkImage 2 1 255 [7; 9]))
     = Some (Some l', w')
     ∧ hp (single (mkImage 2 1 255 [7; 9])) !! l' = None
     ∧ hp w' = <[l' := r]> (hp (single (mkImage 2 1 255 [7; 9])))
     ∧ hp w' !! 1%positive = Some (mkImage 2 1 255 [7; 9])
     ∧ width r = 1 ∧ height r = 2 ∧ maxval r = 255
     ∧ Z.of_nat (length (pixel r)) = width r * height r
     ∧ ∀ x y, 0 ≤ x < 2 → 0 ≤ y < 1 →
              is_Some (sample (mkImage 2 1 255 [7; 9]) x y)
              ∧ sample r (1 - 1 - y) x = sample (mkImage 2 1 255 [7; 9]) x y)
  ∧ (∀ a, a ≠ AllocOK →
          ∃ w', ImageRotate a (Some 1%positive) (single (mkImage 2 1 255 [7; 9]))
                = Some (None, w')
                ∧ hp w' = hp (single (mkImage 2 1 255 [7; 9]))).
Proof.
  apply (ImageRotate_spec (single (mkImage 2 1 255 [7; 9])) 1%positive
                          (mkImage 2 1 255 [7; 9])).
  - reflexivity.
  - vm_compute. repeat split; try discriminate. repeat constructor; discriminate.
Defined.

(** C3: on the 2x2 image with rows [10, 20] and [30, 40], [ImageRotate]
    yields the 2x2 image with rows [30, 10] and [40, 20] (a quarter turn
    clockwise), not the rows [20, 40] and [10, 30] of a quarter turn
    counter-clockwise. *)
Theorem ImageRotate_2x2 :
  let w := single (mkImage 2 2 255 [10; 20; 30; 40]) in
  ∃ l' w', ImageRotate AllocOK (Some 1%positive) w = Some (Some l', w')
           ∧ hp w' !! l' = Some (mkImage 2 2 255 [30; 10; 40; 20])
           ∧ hp w' !! l' ≠ Some (mkImage 2 2 255 [20; 40; 10; 30]).
Proof.
  eexists _, _. split; [vm_compute; reflexivity|].
  split; [vm_compute; reflexivity|vm_compute; discriminate].
Qed.

(** ** Matching *)

(** Where the template fits and every sample agrees, the comparison
    reads through both images and answers 1. *)
Lemma ImageMatchSubImage_true w l1 l2 im1 im2 x y :
  hp w !! l1 = Some im1 → hp w !! l2 = Some im2 →
  Z.of_nat (length (pixel im1)) = width im1 * height im1 →
  Z.of_nat (length (pixel im2)) = width im2 * height im2 →
  0 ≤ x < width im1 → 0 ≤ y < height im1 →
  x + width im2 ≤ width im1 → y + height im2 ≤ height im1 →
  (∀ i j, 0 ≤ i < width im2 → 0 ≤ j < height im2 →
          sample im1 (x + i) (y + j) = sample im2 i j) →
  ImageMatchSubImage (Some l1) x y (Some l2) w = Some (1, w).
Proof.
  intros Hl1 Hl2 Hlen1 Hlen2 Hx Hy Hfx Hfy Hsame. unfold ImageMatchSubImage.
  rewrite (bind_Some _ _ _ _ _ (deref_Some _ _ _ Hl1)).
  rewrite (bind_Some _ _ _ _ _ (deref_Some _ _ _ Hl2)).
  rewrite (bind_Some _ _ _ _ _ (ImageValidPos_eq w l1 im1 Hl1 x y)).
  rewrite (valid_pos_true im1 x y Hx Hy). cbn [of_bool].
  rewrite (bind_Some _ _ w tt w) by reflexivity.
  rewrite (bind_Some _ _ w None w); [reflexivity|].
  apply for_range_ret_none. intros j Hj.
  apply for_range_ret_none. intros i Hi.
  destruct (sample_is_Some im2 Hlen2 i j Hi Hj) as [v Hv].
  rewrite (bind_Some _ _ w v w).
  2:{ apply (ImageGetPixel_eq w l1 im1 Hl1); [lia|lia|]. rewrite Hsame; auto. }
  rewrite (bind_Some _ _ w v w) by (apply (ImageGetPixel_eq w l2 im2 Hl2); auto).
  rewrite Z.eqb_refl. reflexivity.
Qed.

(** C10: a template of width 0 or height 0 matches at every valid
    position of the image. *)
Theorem ImageMatchSubImage_empty w l1 l2 im1 im2 x y :
  hp w !! l1 = Some im1 → hp w !! l2 = Some im2 →
  width im2 = 0 ∨ height im2 = 0 →
  0 ≤ x < width im1 → 0 ≤ y < height im1 →
  ImageMatchSubImage (Some l1) x y (Some l2) w = Some (1, w).
Proof.
  intros Hl1 Hl2 Hempty Hx Hy. unfold ImageMatchSubImage.
  rewrite (bind_Some _ _ _ _ _ (deref_Some _ _ _ Hl1)).
  rewrite (bind_Some _ _ _ _ _ (deref_Some _ _ _ Hl2)).
  rewrite (bind_Some _ _ _ _ _ (ImageValidPos_eq w l1 im1 Hl1 x y)).
  rewrite (valid_pos_true im1 x y Hx Hy). cbn [of_bool].
  rewrite (bind_Some _ _ w tt w) by reflexivity.
  rewrite (bind_Some _ _ w None w); [reflexivity|].
  apply for_range_ret_none. intros j Hj.
  apply for_range_ret_none. intros i Hi. lia.
Qed.

Lemma ImageMatchSubImage_empty_witness :
  ImageMatchSubImage (Some 1%positive) 1 0 (Some 2%positive)
    (mkWorld (<[2%positive := mkImage 0 3 255 []]>
                {[ 1%positive := mkImage 2 1 255 [5; 6] ]}) "" ∅)
  = Some (1, mkWorld (<[2%positive := mkImage 0 3 255 []]>
                        {[ 1%positive := mkImage 2 1 255 [5; 6] ]}) "" ∅).
Proof.
  apply (ImageMatchSubImage_empty _ 1%positive 2%positive
           (mkImage 2 1 255 [5; 6]) (mkImage 0 3 255 [])).
  - reflexivity.
  - reflexivity.
  - left. reflexivity.
  - cbn. lia.
  - cbn. lia.
Defined.

(** C8, as the code has it: for every image with at least one column and
    one row, comparing the image with itself at (0, 0) answers 1, and
    locating it in itself answers 1 with position (0, 0). *)
Theorem ImageMatchSubImage_self w l1 l2 im px0 py0 :
  hp w !! l1 = Some im → hp w !! l2 = Some im → wf_image im →
  0 < width im → 0 < height im →
  ImageMatchSubImage (Some l1) 0 0 (Some l2) w = Some (1, w)
  ∧ ImageLocateSubImage (Some l1) px0 py0 (Some l2) w = Some ((1, (0, 0)), w).
Proof.
  intros Hl1 Hl2 (Hw0 & Hh0 & _ & Hlen & _) Hw Hh.
  assert (ImageMatchSubImage (Some l1) 0 0 (Some l2) w = Some (1, w)) as Hm.
  { apply (ImageMatchSubImage_true w l1 l2 im im); auto; lia. }
  split; [exact Hm|]. unfold ImageLocateSubImage.
  rewrite (bind_Some _ _ _ _ _ (deref_Some _ _ _ Hl1)).
  rewrite (bind_Some _ _ _ _ _ (deref_Some _ _ _ Hl2)).
  unfold for_range_ret.
  replace (Z.to_nat (height im - height im + 1 - 0)) with 1%nat by lia.
  replace (Z.to_nat (width im - width im + 1 - 0)) with 1%nat by lia.
  cbn [for_ret]. rewrite !bind_unfold, Hm. reflexivity.
Qed.

Lemma ImageMatchSubImage_self_witness :
  ImageMatchSubImage (Some 1%positive) 0 0 (Some 1%positive)
    (single (mkImage 2 1 255 [5; 6]))
  = Some (1, single (mkImage 2 1 255 [5; 6]))
  ∧ ImageLocateSubImage (Some 1%positive) 7 7 (Some 1%positive)
      (single (mkImage 2 1 255 [5; 6]))
    = Some ((1, (0, 0)), single (mkImage 2 1 255 [5; 6])).
Proof.
  apply (ImageMatchSubImage_self _ 1%positive 1%positive (mkImage 2 1 255 [5; 6])).
  - reflexivity.
  - reflexivity.
  - vm_compute. repeat split; try discriminate. repeat constructor; discriminate.
  - cbn. lia.
  - cbn. lia.
Defined.

(** C8 as stated fails on an image without pixels: the comparison's
    assertion on position (0, 0) stops the program, in the locator too. *)
Lemma ImageMatchSubImage_self_empty :
  let w := single (mkImage 0 0 255 []) in
  hp w !! 1%positive = Some (mkImage 0 0 255 [])
  ∧ wf_image (mkImage 0 0 255 [])
  ∧ ImageMatchSubImage (Some 1%positive) 0 0 (Some 1%positive) w = None
  ∧ ImageLocateSubImage (Some 1%positive) 0 0 (Some 1%positive) w = None.
Proof.
  cbv zeta. split; [reflexivity|]. split.
  - vm_compute. repeat split; try discriminate. constructor.
  - split; vm_compute; reflexivity.
Qed.

(** ** Pasting *)

Section Paste.
Variables (w : world) (l1 l2 : loc) (im1 im2 : image) (x y : Z).
Hypothesis Hl1 : hp w !! l1 = Some im1.
Hypothesis Hl2 : hp w !! l2 = Some im2.
Hypothesis Hlen1 : Z.of_nat (length (pixel im1)) = width im1 * height im1.
Hypothesis Hlen2 : Z.of_nat (length (pixel im2)) = width im2 * height im2.
Hypothesis Hx : 0 ≤ x ∧ x + width im2 ≤ width im1.
Hypothesis Hy : 0 ≤ y ∧ y + height im2 ≤ height im1.

Lemma paste_step i j w' :
  0 ≤ i < width im2 → 0 ≤ j < height im2 → paste_inv w l1 im1 im2 x y w' →
  ∃ w'', (pixel ← ImageGetPixel (Some l2) i j;
          ImageSetPixel (Some l1) (x + i) (y + j) pixel) w' = Some (tt, w'')
         ∧ paste_inv w l1 im1 im2 x y w''.
Proof.
  intros Hi Hj (im1' & Hhp & Hsh & Hframe).
  assert (hp w' !! l1 = Some im1') as Hl1' by (rewrite Hhp; apply lookup_insert_eq).
  assert (∃ im2', hp w' !! l2 = Some im2' ∧ same_shape im2' im2) as (im2' & Hl2' & Hsh2).
  { destruct (decide (l1 = l2)) as [<-|Hne].
    - exists im1'. split; [exact Hl1'|]. replace im2 with im1 by congruence. exact Hsh.
    - exists im2. split; [|apply same_shape_refl]. rewrite Hhp, lookup_insert_ne; auto. }
  pose proof (same_shape_len _ _ Hsh Hlen1) as Hlen1'.
  pose proof (same_shape_len _ _ Hsh2 Hlen2) as Hlen2'.
  destruct Hsh as (Hw1 & Hh1 & Hm1 & Hp1). destruct Hsh2 as (Hw2 & Hh2 & Hm2 & Hp2).
  destruct (sample_is_Some im2' Hlen2' i j) as [v Hv]; [lia|lia|].
  rewrite (bind_Some _ _ w' v w')
    by (apply (ImageGetPixel_eq w' l2 im2' Hl2'); auto; lia).
  rewrite (ImageSetPixel_eq w' l1 im1' Hl1' Hlen1') by lia.
  eexists. split; [reflexivity|].
  exists (set_sample im1' (x + i) (y + j) v). split; [|split].
  - rewrite hp_set_hp, Hhp. apply insert_insert_eq.
  - eapply same_shape_trans; [apply set_sample_shape|]. unfold same_shape. auto.
  - intros x' y' Hx' Hy' Hout.
    rewrite sample_set_other; [apply Hframe; auto|lia|lia|lia|lia|].
    intros E. inversion E. lia.
Qed.

Lemma paste_loops :
  ∃ w', for_range 0 (height im2) (λ j,
          for_range 0 (width im2) (λ i,
            pixel ← ImageGetPixel (Some l2) i j;
            ImageSetPixel (Some l1) (x + i) (y + j) pixel)) w = Some (tt, w')
        ∧ paste_inv w l1 im1 im2 x y w'.
Proof.
  destruct (Z_lt_le_dec (height im2) 0) as [Hneg|Hh0].
  { exists w. split; [apply for_range_empty; lia|].
    exists im1. split; [symmetry; apply insert_id; exact Hl1|].
    split; [apply same_shape_refl|auto]. }
  apply (for_range_inv (λ _, paste_inv w l1 im1 im2 x y)); [exact Hh0| |].
  - exists im1. split; [symmetry; apply insert_id; exact Hl1|].
    split; [apply same_shape_refl|auto].
  - intros j w1 Hj Hinv.
    destruct (Z_lt_le_dec (width im2) 0) as [Hneg|Hw0].
    { exists w1. split; [apply for_range_empty; lia|exact Hinv]. }
    apply (for_range_inv (λ _, paste_inv w l1 im1 im2 x y)); [exact Hw0|exact Hinv|].
    intros i w2 Hi Hinv2. apply paste_step; auto.
Qed.
End Paste.

(** C9: when the rectangle of [im2] anchored at (x, y) lies within [im1],
    [ImagePaste] runs to the end and leaves the width, height and maxval
    of [im1], and each of its samples outside the rectangle
    [x, x + width im2) x [y, y + height im2), as they were. *)
Theorem ImagePaste_frame (w : world) (l1 l2 : loc) (im1 im2 : image) (x y : Z) :
  hp w !! l1 = Some im1 → hp w !! l2 = Some im2 →
  wf_image im1 → wf_image im2 →
  0 ≤ x ∧ x + width im2 ≤ width im1 → 0 ≤ y ∧ y + height im2 ≤ height im1 →
  ∃ w' im1',
    ImagePaste (Some l1) x y (Some l2) w = Some (tt, w')
    ∧ hp w' !! l1 = Some im1'
    ∧ width im1' = width im1 ∧ height im1' = height im1 ∧ maxval im1' = maxval im1
    ∧ ∀ x' y', 0 ≤ x' < width im1 → 0 ≤ y' < height im1 →
               ¬ (x ≤ x' < x + width im2 ∧ y ≤ y' < y + height im2) →
               sample im1' x' y' = sample im1 x' y'.
Proof.
  intros Hl1 Hl2 Hwf1 Hwf2 Hx Hy.
  pose proof Hwf1 as (_ & _ & _ & Hlen1 & _). pose proof Hwf2 as (Hw2 & Hh2 & _ & Hlen2 & _).
  destruct (wf_image_int im1 Hwf1) as (Hwi & Hhi & _).
  destruct (paste_loops w l1 l2 im1 im2 x y Hl1 Hl2 Hlen1 Hlen2 Hx Hy)
    as (w' & Hrun & im1' & Hhp & (Hw1 & Hh1 & Hm1 & _) & Hframe).
  exists w', im1'. repeat split; auto.
  - unfold ImagePaste.
    rewrite (bind_Some _ _ _ _ _ (deref_Some _ _ _ Hl1)).
    rewrite (bind_Some _ _ _ _ _ (deref_Some _ _ _ Hl2)).
    unfold ImageValidRect. rewrite !bind_unfold.
    rewrite (deref_Some _ _ _ Hl1). cbn [mret M_ret].
    rewrite valid_rect_true by (unfold INT_MIN; lia).
    cbn [of_bool Z.eqb negb assert]. exact Hrun.
  - rewrite Hhp. apply lookup_insert_eq.
Qed.

Lemma ImagePaste_frame_witness :
  ∃ w' im1',
    ImagePaste (Some 1%positive) 1 0 (Some 2%positive)
      (mkWorld (<[2%positive := mkImage 1 1 255 [9]]>
                  {[ 1%positive := mkImage 2 1 255 [5; 6] ]}) "" ∅) = Some (tt, w')
    ∧ hp w' !! 1%positive = Some im1'
    ∧ width im1' = 2 ∧ height im1' = 1 ∧ maxval im1' = 255
    ∧ ∀ x' y', 0 ≤ x' < 2 → 0 ≤ y' < 1 →
               ¬ (1 ≤ x' < 1 + 1 ∧ 0 ≤ y' < 0 + 1) →
               sample im1' x' y' = sample (mkImage 2 1 255 [5; 6]) x' y'.
Proof.
  apply (ImagePaste_frame
           (mkWorld (<[2%positive := mkImage 1 1 255 [9]]>
                       {[ 1%positive := mkImage 2 1 255 [5; 6] ]}) "" ∅)
           1%positive 2%positive (mkImage 2 1 255 [5; 6]) (mkImage 1 1 255 [9]) 1 0).
  - reflexivity.
  - reflexivity.
  - vm_compute. repeat split; try discriminate. repeat constructor; discriminate.
  - vm_compute. repeat split; try discriminate. repeat constructor; discriminate.
  - cbn. lia.
  - cbn. lia.
Defined.

(** ** Blur *)

Section Blur.
Variables (w : world) (l : loc) (im : image) (dx dy : Z).
Hypothesis Hl : hp w !! l = Some im.
Hypothesis Hwf : wf_image im.
Hypothesis Hdx : dx < INT_MAX.
Hypothesis Hdy : dy < INT_MAX.

Abbreviation l' := (fresh (dom (hp w))).




End Blur.





(** C2: on the 2x1 image [0, 100], blurring with dx = 1, dy = 0 leaves
    the samples [0, 100], while the mean of the neighbourhood is 50 at
    both positions: the means are computed and never stored. *)
Theorem ImageBlur_no_write_back :
  pixels_after (ImageBlur AllocOK (Some 1%positive) 1 0)
               (single (mkImage 2 1 255 [0; 100])) 1%positive = Some [0; 100]
  ∧ blur_mean (mkImage 2 1 255 [0; 100]) 1 0 0 0 = 50
  ∧ blur_mean (mkImage 2 1 255 [0; 100]) 1 0 1 0 = 50.
Proof. repeat split; vm_compute; reflexivity. Qed.

(** ** Brightening *)

Section Brighten.
Variables (w : world) (l : loc) (im : image) (factor : float).
Hypothesis Hl : hp w !! l = Some im.
Hypothesis Hwf : wf_image im.
Hypothesis Hdef : ∀ s, s ∈ pixel im → is_Some (brighten_sample (maxval im) factor s).

Lemma brighten_step y x w' :
  0 ≤ y < height im → 0 ≤ x < width im → brighten_inv w l im factor y x w' →
  ∃ w'', (currentPixel ← ImageGetPixel (Some l) x y;
          v ← defined (double_to_int (int_to_double currentPixel * factor)%float);
          let newPixel := to_uint8 v in
          let newPixel := if maxval im <? newPixel then maxval im else newPixel in
          ImageSetPixel (Some l) x y newPixel) w' = Some (tt, w'')
         ∧ brighten_inv w l im factor y (x + 1) w''.
Proof.
  intros Hy Hx (im' & Hhp & Hsh & Hdone).
  destruct Hwf as (Hw0 & Hh0 & Hmax & Hlen & _).
  assert (hp w' !! l = Some im') as Hl' by (rewrite Hhp; apply lookup_insert_eq).
  pose proof (same_shape_len _ _ Hsh Hlen) as Hlen'.
  destruct (sample_is_Some im Hlen x y Hx Hy) as [s Hs].
  assert (sample im' x y = Some s) as Hs'.
  { rewrite (Hdone x y Hx Hy), decide_False by lia. exact Hs. }
  destruct Hsh as (Hw1 & Hh1 & Hm1 & Hp1).
  rewrite (bind_Some _ _ w' s w')
    by (apply (ImageGetPixel_eq w' l im' Hl'); auto; lia).
  destruct (Hdef s) as [p Hp]; [apply list_elem_of_lookup; eexists; exact Hs|].
  unfold brighten_sample in Hp.
  destruct (double_to_int (int_to_double s * factor)) as [v|] eqn:Hv; [|discriminate].
  cbn [mbind option_bind] in Hp. cbn [defined].
  rewrite (bind_Some _ _ w' v w') by reflexivity. cbv zeta.
  rewrite (ImageSetPixel_eq w' l im' Hl' Hlen') by lia.
  eexists. split; [reflexivity|].
  eexists. split; [|split].
  - rewrite hp_set_hp, Hhp. apply insert_insert_eq.
  - eapply same_shape_trans; [apply set_sample_shape|]. unfold same_shape. auto.
  - intros x' y' Hx' Hy'.
    destruct (decide (x' = x ∧ y' = y)) as [[-> ->]|Hne].
    + rewrite sample_set_same by (auto; lia). rewrite decide_True by lia.
      rewrite Hs. cbn [mbind option_bind]. unfold brighten_sample.
      rewrite Hv. reflexivity.
    + rewrite sample_set_other; [|lia|lia|lia|lia|intros E; inversion E; lia].
      rewrite (Hdone x' y' Hx' Hy').
      destruct (decide (y' < y ∨ y' = y ∧ x' < x)), (decide (y' < y ∨ y' = y ∧ x' < x + 1));
        auto; lia.
Qed.

(** The law of brightening, for every image and factor for which the
    conversions to [int] are defined: each sample s becomes
    [brighten_sample maxval factor s]. *)
Lemma ImageBrighten_samples :
  ∃ w' im',
    ImageBrighten (Some l) factor w = Some (tt, w')
    ∧ hp w' = <[l := im']> (hp w) ∧ same_shape im' im
    ∧ ∀ x y, 0 ≤ x < width im → 0 ≤ y < height im →
             sample im' x y = sample im x y ≫= brighten_sample (maxval im) factor.
Proof.
  pose proof Hwf as (Hw0 & Hh0 & Hmax & Hlen & _).
  unfold ImageBrighten. rewrite (bind_Some _ _ _ _ _ (deref_Some _ _ _ Hl)).
  rewrite to_uint8_small by lia.
  match goal with
  | |- ∃ w' im', for_range _ _ ?body _ = _ ∧ _ =>
      destruct (for_range_inv (λ y, brighten_inv w l im factor y 0) 0 (height im) body w Hh0)
        as (w' & Hrun & im' & Hhp & Hsh & Hdone)
  end.
  - exists im. split; [symmetry; apply insert_id; exact Hl|].
    split; [apply same_shape_refl|]. intros x' y' Hx' Hy'.
    rewrite decide_False by lia. reflexivity.
  - intros y w1 Hy Hinv.
    match goal with
    | |- ∃ w', for_range _ _ ?body _ = _ ∧ _ =>
        destruct (for_range_inv (brighten_inv w l im factor y) 0 (width im) body w1 Hw0 Hinv)
          as (w2 & Hrun & im2 & Hhp & Hsh & Hdone)
    end.
    + intros x w2 Hx Hinv2. apply brighten_step; auto.
    + exists w2. split; [exact Hrun|]. exists im2. split; [exact Hhp|]. split; [exact Hsh|].
      intros x' y' Hx' Hy'. rewrite (Hdone x' y' Hx' Hy').
      destruct (decide (y' < y ∨ y' = y ∧ x' < width im)), (decide (y' < y + 1 ∨ y' = y + 1 ∧ x' < 0));
        auto; lia.
  - exists w', im'. split; [exact Hrun|]. split; [exact Hhp|]. split; [exact Hsh|].
    intros x y Hx Hy. rewrite (Hdone x y Hx Hy), decide_True by lia. reflexivity.
Qed.
End Brighten.

(** C1: brightening stores the product in a [uint8] before it compares
    it with maxval, so a product above 255 wraps around instead of
    saturating: with maxval 255, factor 1.5 turns the sample 200 into 44
    (not 255), and factor 2 turns 128 into 0 and 200 into 144 (not 255). *)
Theorem ImageBrighten_wraps :
  pixels_after (ImageBrighten (Some 1%positive) 1.5%float)
               (single (mkImage 2 1 255 [200; 100])) 1%positive = Some [44; 150]
  ∧ pixels_after (ImageBrighten (Some 1%positive) 2%float)
                 (single (mkImage 2 1 255 [128; 200])) 1%positive = Some [0; 144]
  ∧ brighten_sample 255 1.5%float 200 = Some 44
  ∧ Z.min 255 (200 * 3 / 2) = 255.
Proof. repeat split; vm_compute; reflexivity. Qed.

(** ** Printing and scanning numbers *)

Lemma digits_aux_app fuel :
  ∀ n acc, digits_aux fuel n acc = digits_aux fuel n [] ++ acc.
Proof.
  induction fuel as [|fuel IH]; intros n acc; [reflexivity|].
  cbn [digits_aux]. destruct (n <? 10); [reflexivity|].
  rewrite (IH _ (_ :: acc)), (IH _ [_]), <- app_assoc. reflexivity.
Qed.

Lemma isdigit_digit d : 0 ≤ d < 10 → isdigit (chr "0" + d) = true.
Proof. intros H. unfold isdigit. change (chr "0") with 48. change (chr "9") with 57. lia. Qed.

Lemma digits_aux_digits fuel :
  ∀ n, Forall (λ c, isdigit c = true) (digits_aux fuel n []).
Proof.
  induction fuel as [|fuel IH]; intros n; [constructor|].
  cbn [digits_aux].
  assert (isdigit (chr "0" + n mod 10) = true) as Hd
    by (apply isdigit_digit, Z.mod_pos_bound; lia).
  destruct (n <? 10); [repeat constructor; exact Hd|].
  rewrite digits_aux_app. apply Forall_app. split; [apply IH|repeat constructor; exact Hd].
Qed.

Lemma digits_aux_value fuel :
  ∀ n, 0 ≤ n < 2 ^ Z.of_nat fuel →
       ∃ p, ∀ a, digits_value (digits_aux fuel n []) a = a * p + n.
Proof.
  induction fuel as [|fuel IH]; intros n Hn.
  - exists 1. intros a. cbn. change (2 ^ Z.of_nat 0) with 1 in Hn. lia.
  - cbn [digits_aux]. destruct (Z.ltb_spec n 10) as [Hlt|Hge].
    + exists 10. intros a. unfold digits_value. cbn [fold_left].
      rewrite Z.mod_small by lia. lia.
    + rewrite Nat2Z.inj_succ, Z.pow_succ_r in Hn by lia.
      destruct (IH (n / 10)) as (p & Hp).
      { split; [apply Z.div_pos; lia|]. apply Z.div_lt_upper_bound; lia. }
      exists (p * 10). intros a. rewrite digits_aux_app. unfold digits_value in *.
      rewrite fold_left_app, Hp. cbn [fold_left].
      pose proof (Z.div_mod n 10 ltac:(lia)). lia.
Qed.

Lemma print_uint_value n : 0 ≤ n → digits_value (print_uint n) 0 = n.
Proof.
  intros Hn. unfold print_uint.
  destruct (digits_aux_value (S (Z.to_nat (Z.log2 n))) n) as (p & Hp); [|rewrite Hp; lia].
  split; [exact Hn|]. rewrite Nat2Z.inj_succ, Z2Nat.id by apply Z.log2_nonneg.
  destruct (Z.eq_dec n 0) as [->|Hne]; [reflexivity|].
  apply Z.log2_spec. lia.
Qed.

Lemma print_uint_digits n : Forall (λ c, isdigit c = true) (print_uint n).
Proof. apply digits_aux_digits. Qed.

Lemma print_uint_head n : ∃ c tl, print_uint n = c :: tl ∧ isdigit c = true.
Proof.
  pose proof (print_uint_digits n) as H. unfold print_uint in *.
  cbn [digits_aux] in *. destruct (n <? 10).
  - eexists _, _. split; [reflexivity|]. inversion H; auto.
  - rewrite digits_aux_app in *.
    destruct (digits_aux _ (n / 10) []) as [|c tl] eqn:E; cbn [app] in *;
      eexists _, _; (split; [reflexivity|]); inversion H; auto.
Qed.

Lemma scan_digits_app l :
  ∀ a f, Forall (λ c, isdigit c = true) l → stops_number f →
         scan_digits a (l ++ f) = (digits_value l a, f).
Proof.
  induction l as [|c l IH]; intros a f Hl Hf.
  - cbn. destruct f as [|c f]; [reflexivity|]. cbn in Hf. cbn [scan_digits]. rewrite Hf.
    reflexivity.
  - inversion Hl as [|? ? Hc Hl']; subst. cbn [app scan_digits]. rewrite Hc.
    apply IH; auto.
Qed.

Lemma isdigit_not_space c : isdigit c = true → isspace c = false.
Proof. unfold isdigit, isspace. change (chr "0") with 48. change (chr "9") with 57. lia. Qed.

(** Scanning what [%d] or [%u] printed for a non-negative number gives
    the number back and stops where the print ended. *)
Lemma scan_int_print_uint n f :
  0 ≤ n ≤ INT_MAX → stops_number f → scan_int (print_uint n ++ f) = Some (n, f).
Proof.
  intros Hn Hf. unfold scan_int.
  destruct (print_uint_head n) as (c & tl & E & Hc).
  pose proof (scan_digits_app (print_uint n) 0 f (print_uint_digits n) Hf) as Hscan.
  rewrite print_uint_value in Hscan by apply Hn.
  rewrite E in *. cbn [app skip_ws]. rewrite (isdigit_not_space c Hc).
  assert ((c =? chr "-") = false) as ->.
  { unfold isdigit in Hc. change (chr "0") with 48 in Hc. change (chr "-") with 45. lia. }
  assert ((c =? chr "+") = false) as ->.
  { unfold isdigit in Hc. change (chr "0") with 48 in Hc. change (chr "+") with 43. lia. }
  rewrite Hc. cbn [app] in Hscan. rewrite Hscan.
  rewrite stored_int_small by (unfold INT_MIN; lia). reflexivity.
Qed.

Lemma print_int_nonneg n : 0 ≤ n → print_int n = print_uint n.
Proof. intros Hn. unfold print_int. destruct (Z.ltb_spec n 0); [lia|reflexivity]. Qed.

Lemma skip_ws_print_uint n f : skip_ws (print_uint n ++ f) = print_uint n ++ f.
Proof.
  destruct (print_uint_head n) as (c & tl & E & Hc). rewrite E. cbn [app skip_ws].
  rewrite (isdigit_not_space c Hc). reflexivity.
Qed.

Lemma skipComments_print_uint n f :
  skipComments (print_uint n ++ f) = (0, print_uint n ++ f).
Proof.
  destruct (print_uint_head n) as (c & tl & E & Hc). rewrite E.
  unfold skipComments. cbn [app length skipComments_loop fscanf_comment].
  assert ((c =? chr "#") = false) as ->; [|reflexivity].
  unfold isdigit in Hc. change (chr "0") with 48 in Hc. change (chr "#") with 35. lia.
Qed.

(** ** Loading *)

Lemma check_step_Some {A} (v : A) msg k w :
  check_step (Some v) msg k w = k v (set_errCause "" w).
Proof. reflexivity. Qed.

Lemma check_step_None {A} msg (k : A → M (bool * Image)) w :
  check_step None msg k w = Some ((false, None), set_errCause msg w).
Proof. reflexivity. Qed.

Lemma skipComments_loop_nonneg fuel :
  ∀ f i, 0 ≤ i → 0 ≤ (skipComments_loop fuel f i).1.
Proof.
  induction fuel as [|fuel IH]; intros f i Hi; [exact Hi|].
  cbn [skipComments_loop]. destruct (fscanf_comment f) as [[c|] f']; [|exact Hi].
  destruct (c =? newline); [apply IH; lia|exact Hi].
Qed.

Lemma skipComments_nonneg f : 0 ≤ (skipComments f).1.
Proof. apply skipComments_loop_nonneg. lia. Qed.

(** The header steps, with their guards decided. *)
Lemma read_magic_eq f :
  read_magic f = match fscanf_P_c f with
                 | Some (c, f') => if decide (c = chr "5") then Some f' else None
                 | None => None
                 end.
Proof.
  unfold read_magic. destruct (fscanf_P_c f) as [[c f']|]; [|reflexivity].
  cbn [mbind option_bind]. apply option_guard_decide.
Qed.

Lemma read_size_eq f :
  read_size f = match fscanf_d_ws f with
                | Some (n, f') => if decide (0 ≤ n) then Some (n, f') else None
                | None => None
                end.
Proof.
  unfold read_size. destruct (fscanf_d_ws f) as [[n f']|]; [|reflexivity].
  cbn [mbind option_bind]. apply option_guard_decide.
Qed.

Lemma read_maxval_eq f :
  read_maxval f = match fscanf_d f with
                  | Some (m, f') => if decide (0 < m ≤ PixMax) then Some (m, f') else None
                  | None => None
                  end.
Proof.
  unfold read_maxval. destruct (fscanf_d f) as [[n f']|]; [|reflexivity].
  cbn [mbind option_bind]. apply option_guard_decide.
Qed.

Lemma read_space_eq f :
  read_space f = match fscanf_c f with
                 | Some (c, f') => if decide (isspace c = true) then Some f' else None
                 | None => None
                 end.
Proof.
  unfold read_space. destruct (fscanf_c f) as [[c f']|]; [|reflexivity].
  cbn [mbind option_bind]. apply option_guard_decide.
Qed.

(** *** Reading back a header that [ImageSave] printed *)

Section Header.
Variables (w h maxval : Z) (raster : list Z).
Hypothesis Hw : 0 ≤ w.
Hypothesis Hh : 0 ≤ h.
Hypothesis Hmaxval : 0 < maxval ≤ 255.

Lemma read_magic_header :
  read_magic (pgm_header w h maxval ++ raster)
  = Some (print_uint w ++ chr " " :: print_uint h ++ newline :: print_uint maxval
                     ++ newline :: raster).
Proof.
  unfold pgm_header. rewrite !print_int_nonneg by assumption.
  rewrite <- !app_assoc. cbn [bytes_of app]. rewrite read_magic_eq. unfold fscanf_P_c.
  change (chr "P" =? chr "P") with true. cbv iota.
  rewrite decide_True by reflexivity.
  change (skip_ws (newline :: ?f)) with (skip_ws f).
  rewrite skip_ws_print_uint. reflexivity.
Qed.

Lemma read_size_print n f sep :
  0 ≤ n ≤ INT_MAX → isspace sep = true →
  read_size (print_uint n ++ sep :: f) = Some (n, skip_ws f).
Proof.
  intros Hn Hsep. rewrite read_size_eq. unfold fscanf_d_ws.
  rewrite scan_int_print_uint.
  - cbn [skip_ws]. rewrite Hsep. rewrite decide_True by apply Hn. reflexivity.
  - exact Hn.
  - cbn. unfold isdigit, isspace in *. change (chr "0") with 48. change (chr "9") with 57.
    lia.
Qed.

Lemma read_maxval_print f :
  read_maxval (print_uint maxval ++ newline :: f) = Some (maxval, newline :: f).
Proof.
  rewrite read_maxval_eq. unfold fscanf_d.
  rewrite scan_int_print_uint; [|unfold INT_MAX; lia|reflexivity].
  rewrite decide_True by (unfold PixMax; lia). reflexivity.
Qed.
End Header.

Lemma ImageLoad_steps_pgm w1 name w h maxval raster :
  fs w1 !! name = Some (pgm_header w h maxval ++ raster) →
  0 ≤ w ≤ INT_MAX → 0 ≤ h ≤ INT_MAX → 0 < maxval ≤ 255 →
  Z.of_nat (length raster) = w * h → w * h ≤ INT_MAX →
  ImageLoad_steps AllocOK name w1
  = Some ((true, Some (fresh (dom (hp w1)))),
          mkWorld (<[fresh (dom (hp w1)) := mkImage w h maxval raster]> (hp w1))
                  "" (fs w1)).
Proof.
  intros Hfile Hw Hh Hmaxval Hlen Hint. unfold ImageLoad_steps.
  rewrite (bind_Some _ _ w1 w1 w1) by reflexivity. rewrite Hfile, check_step_Some.
  rewrite (read_magic_header w h maxval raster (proj1 Hw) (proj1 Hh)), check_step_Some.
  rewrite skipComments_print_uint. cbv iota beta. cbn [Z.leb Z.compare negb].
  rewrite (read_size_print w _ (chr " ") Hw eq_refl), check_step_Some.
  rewrite skip_ws_print_uint, skipComments_print_uint. cbv iota beta.
  cbn [Z.leb Z.compare negb].
  rewrite (read_size_print h _ newline Hh eq_refl), check_step_Some.
  rewrite skip_ws_print_uint, skipComments_print_uint. cbv iota beta.
  cbn [Z.leb Z.compare negb].
  rewrite (read_maxval_print maxval Hmaxval), check_step_Some.
  rewrite read_space_eq. cbn [fscanf_c]. rewrite decide_True by reflexivity.
  rewrite check_step_Some, to_uint8_small by lia.
  change (set_errCause "" (set_errCause "" (set_errCause "" (set_errCause ""
            (set_errCause "" (set_errCause "" w1))))))
    with (mkWorld (hp w1) "" (fs w1)).
  rewrite (bind_Some _ _ _ _ _
             (ImageCreate_ok _ w h maxval (proj1 Hw) (proj1 Hh) Hmaxval Hint)).
  cbv beta iota. cbn [hp].
  set (l' := fresh (dom (hp w1))).
  rewrite (bind_Some _ _ _ _ _ (deref_Some _ l' _ (lookup_insert_eq _ _ _))).
  rewrite wrap_int_small by (unfold INT_MIN; nia).
  rewrite take_ge by lia. cbn [pixel].
  rewrite drop_ge by (rewrite length_replicate; lia). rewrite app_nil_r.
  rewrite (bind_Some _ _ _ _ _ (store_Some _ l' _ _ (lookup_insert_eq _ _ _))).
  rewrite (proj2 (Z.eqb_eq _ _) Hlen).
  unfold set_hp. cbn [hp errCause fs]. rewrite insert_insert_eq. reflexivity.
Qed.

Lemma ImageLoad_pgm w1 name w h maxval raster :
  fs w1 !! name = Some (pgm_header w h maxval ++ raster) →
  0 ≤ w ≤ INT_MAX → 0 ≤ h ≤ INT_MAX → 0 < maxval ≤ 255 →
  Z.of_nat (length raster) = w * h → w * h ≤ INT_MAX →
  ImageLoad AllocOK name w1
  = Some (Some (fresh (dom (hp w1))),
          mkWorld (<[fresh (dom (hp w1)) := mkImage w h maxval raster]> (hp w1))
                  "" (fs w1)).
Proof.
  intros Hfile Hw Hh Hmaxval Hlen Hint. unfold ImageLoad.
  rewrite (bind_Some _ _ _ _ _
             (ImageLoad_steps_pgm w1 name w h maxval raster Hfile Hw Hh Hmaxval Hlen Hint)).
  reflexivity.
Qed.

(** ** Saving *)

Lemma pgm_header_nonempty w h maxval : (0 <? Z.of_nat (length (pgm_header w h maxval))) = true.
Proof.
  apply Z.ltb_lt. unfold pgm_header. rewrite length_app.
  change (length (bytes_of "P5")) with 2%nat. lia.
Qed.

Lemma ImageSave_ok w l im name :
  hp w !! l = Some im → wf_image im →
  ImageSave WriteOK (Some l) name w
  = Some (1, mkWorld (hp w) ""
                     (<[name := pgm_header (width im) (height im) (maxval im)
                                  ++ pixel im]> (fs w))).
Proof.
  intros Hl (Hw & Hh & Hmaxval & Hlen & _). unfold ImageSave.
  rewrite (bind_Some _ _ _ _ _ (deref_Some _ _ _ Hl)).
  rewrite to_uint8_small by lia. rewrite pgm_header_nonempty.
  rewrite take_ge by lia. rewrite (proj2 (Z.eqb_eq _ _) Hlen).
  change (bool_decide (WriteOK = OpenFails)) with false.
  change (bool_decide (WriteOK = HeaderFails)) with false.
  change (bool_decide (WriteOK = PixelsFail)) with false.
  cbn [negb andb].
  do 2 (rewrite (bind_Some _ _ _ _ _ eq_refl); cbv beta iota; cbn [negb]).
  do 2 (rewrite (bind_Some _ _ _ _ _ eq_refl); cbv beta iota; cbn [negb]).
  do 2 (rewrite (bind_Some _ _ _ _ _ eq_refl); cbv beta iota; cbn [negb]).
  unfold modify, set_fs, set_errCause. cbn [hp errCause fs].
  rewrite !insert_insert_eq. reflexivity.
Qed.

(** C6: saving a well-formed image to a file and loading that file (the
    file can be written and memory is available) succeeds; the file holds
    the header "P5
<width> <height>
<maxval>
" followed by the raster,
    and the loaded image, at a fresh address, is equal to the saved one in
    width, height, maxval and every sample. *)
Theorem ImageSave_ImageLoad (w : world) (l : loc) (im : image) (name : string) :
  hp w !! l = Some im → wf_image im →
  ∃ w1 l' w2,
    ImageSave WriteOK (Some l) name w = Some (1, w1)
    ∧ fs w1 !! name
      = Some (bytes_of "P5" ++ [newline] ++ print_int (width im) ++ [chr " "]
                ++ print_int (height im) ++ [newline] ++ print_uint (maxval im)
                ++ [newline] ++ pixel im)
    ∧ ImageLoad AllocOK name w1 = Some (Some l', w2)
    ∧ hp w !! l' = None
    ∧ hp w2 !! l' = Some im
    ∧ hp w2 !! l = Some im.
Proof.
  intros Hl Hwf. pose proof Hwf as (Hw & Hh & Hmaxval & Hlen & _).
  destruct (wf_image_int im Hwf) as (Hwi & Hhi & Hint).
  eexists _, _, _. split; [apply ImageSave_ok; eauto|].
  cbn [fs hp].
  split; [|split; [|split; [|split]]].
  - rewrite lookup_insert_eq. unfold pgm_header. rewrite <- !app_assoc. reflexivity.
  - apply ImageLoad_pgm with (w := width im) (h := height im) (maxval := maxval im)
                             (raster := pixel im); auto.
    cbn [fs]. apply lookup_insert_eq.
  - cbn [hp]. apply fresh_not_allocated.
  - cbn [hp]. rewrite lookup_insert_eq. destruct im; reflexivity.
  - cbn [hp]. rewrite lookup_insert_ne; [exact Hl|].
    intros E. pose proof (fresh_not_allocated w) as F. rewrite E in F. congruence.
Qed.

Lemma ImageSave_ImageLoad_witness :
  ∃ w1 l' w2,
    ImageSave WriteOK (Some 1%positive) "a.pgm" (single (mkImage 2 1 255 [17; 200]))
    = Some (1, w1)
    ∧ fs w1 !! "a.pgm"
      = Some (bytes_of "P5" ++ [newline] ++ print_int 2 ++ [chr " "]
                ++ print_int 1 ++ [newline] ++ print_uint 255
                ++ [newline] ++ [17; 200])
    ∧ ImageLoad AllocOK "a.pgm" w1 = Some (Some l', w2)
    ∧ hp (single (mkImage 2 1 255 [17; 200])) !! l' = None
    ∧ hp w2 !! l' = Some (mkImage 2 1 255 [17; 200])
    ∧ hp w2 !! 1%positive = Some (mkImage 2 1 255 [17; 200]).
Proof.
  apply (ImageSave_ImageLoad (single (mkImage 2 1 255 [17; 200])) 1%positive
           (mkImage 2 1 255 [17; 200]) "a.pgm").
  - reflexivity.
  - vm_compute. repeat split; try discriminate. repeat constructor; discriminate.
Defined.

(** ** Comment lines and separators *)

Lemma scan_line_text (t : list Z) : ∀ f,
  Forall (λ c, c ≠ newline) t → scan_line (t ++ newline :: f) = (t, newline :: f).
Proof.
  induction t as [|c t IH]; intros f Ht.
  - reflexivity.
  - inversion Ht as [|? ? Hc Ht']; subst. cbn [app scan_line].
    rewrite (proj2 (Z.eqb_neq c newline) Hc), (IH f Ht'). reflexivity.
Qed.

Lemma skipComments_loop_comments n f (ts : list (list Z)) : ∀ fuel i,
  Forall comment_text ts → (length ts < fuel)%nat →
  skipComments_loop fuel (comment_lines ts ++ print_uint n ++ f) i
  = (i + Z.of_nat (length ts), print_uint n ++ f).
Proof.
  induction ts as [|t ts IH]; intros fuel i Hts Hfuel.
  - destruct fuel as [|fuel]; [cbn in Hfuel; lia|].
    destruct (print_uint_head n) as (c & tl & E & Hc). rewrite E.
    cbn [comment_lines map concat app length skipComments_loop fscanf_comment].
    assert ((c =? chr "#") = false) as ->.
    { unfold isdigit in Hc. change (chr "0") with 48 in Hc. change (chr "#") with 35. lia. }
    rewrite Z.add_0_r. reflexivity.
  - destruct fuel as [|fuel]; [cbn in Hfuel; lia|].
    inversion Hts as [|? ? [Hne Ht] Hts']; subst.
    unfold comment_lines. cbn [map concat]. fold (comment_lines ts).
    unfold comment_line. cbn [app]. rewrite <- !app_assoc. cbn [app].
    cbn [skipComments_loop fscanf_comment]. change (chr "#" =? chr "#") with true.
    cbv iota. rewrite (scan_line_text t _ Ht).
    destruct t as [|c t]; [congruence|]. cbv iota.
    change (newline =? newline) with true. cbv iota.
    rewrite IH by (auto; cbn [length] in Hfuel; lia).
    f_equal. cbn [length]. lia.
Qed.

Lemma comment_lines_length (ts : list (list Z)) :
  (length ts ≤ length (comment_lines ts))%nat.
Proof.
  induction ts as [|t ts IH]; [reflexivity|].
  unfold comment_lines in *. cbn [map concat comment_line app length].
  rewrite length_app. lia.
Qed.

Lemma skipComments_comments n f (ts : list (list Z)) :
  Forall comment_text ts →
  skipComments (comment_lines ts ++ print_uint n ++ f)
  = (Z.of_nat (length ts), print_uint n ++ f).
Proof.
  intros Hts. unfold skipComments.
  rewrite (skipComments_loop_comments n f ts _ 0 Hts); [reflexivity|].
  rewrite length_app. pose proof (comment_lines_length ts). lia.
Qed.

Lemma skip_ws_comments n f (ts : list (list Z)) :
  skip_ws (comment_lines ts ++ print_uint n ++ f) = comment_lines ts ++ print_uint n ++ f.
Proof.
  destruct ts as [|t ts]; [apply skip_ws_print_uint|reflexivity].
Qed.



(** ** Failures of loading *)

Lemma read_size_nonneg f n f' : read_size f = Some (n, f') → 0 ≤ n.
Proof.
  rewrite read_size_eq. destruct (fscanf_d_ws f) as [[n0 f0]|]; [|discriminate].
  destruct (decide (0 ≤ n0)); [|discriminate]. congruence.
Qed.

Lemma read_maxval_range f m f' : read_maxval f = Some (m, f') → 0 < m ≤ 255.
Proof.
  rewrite read_maxval_eq. destruct (fscanf_d f) as [[n0 f0]|]; [|discriminate].
  destruct (decide (0 < n0 ≤ PixMax)) as [H|]; [|discriminate].
  unfold PixMax in H. congruence.
Qed.

Ltac steps_fail :=
  eexists _, _, _; split; [reflexivity|];
  split; [reflexivity|]; split; [split; reflexivity|];
  split; [discriminate|cbn; discriminate].

Ltac skip_comments f f' :=
  let n := fresh "n" in let E := fresh "E" in let H := fresh "H" in
  pose proof (skipComments_nonneg f) as H;
  destruct (skipComments f) as [n f'] eqn:E; cbn [fst] in H;
  rewrite (proj2 (Z.leb_le 0 n) H); cbn [negb].

(** However the file reads and whatever the allocator does, the chain of
    steps runs to its end. *)
Lemma ImageLoad_steps_total a name w :
  ∃ success img w1,
    ImageLoad_steps a name w = Some ((success, img), w1)
    ∧ steps_post w success img w1.
Proof.
  unfold ImageLoad_steps, steps_post.
  rewrite (bind_Some _ _ w w w) by reflexivity.
  destruct (fs w !! name) as [f0|]; [rewrite check_step_Some; cbv beta iota|steps_fail].
  destruct (read_magic f0) as [f1|]; [rewrite check_step_Some; cbv beta iota|steps_fail].
  skip_comments f1 f1'.
  destruct (read_size f1') as [[wd f2]|] eqn:Hwd;
    [rewrite check_step_Some; cbv beta iota|steps_fail].
  skip_comments f2 f2'.
  destruct (read_size f2') as [[ht f3]|] eqn:Hht;
    [rewrite check_step_Some; cbv beta iota|steps_fail].
  skip_comments f3 f3'.
  destruct (read_maxval f3') as [[m f4]|] eqn:Hm;
    [rewrite check_step_Some; cbv beta iota|steps_fail].
  destruct (read_space f4) as [f5|]; [rewrite check_step_Some; cbv beta iota|steps_fail].
  apply read_size_nonneg in Hwd, Hht. apply read_maxval_range in Hm.
  rewrite to_uint8_small by lia.
  set (w0 := set_errCause "" _).
  assert (hp w0 = hp w ∧ fs w0 = fs w) as [Hhp0 Hfs0] by (split; reflexivity).
  clearbody w0.
  destruct (ImageCreate_total a w0 wd ht m Hwd Hht Hm)
    as [(msg & Hc & Hmsg)|(-> & Hcount & Hc)].
  - rewrite (bind_Some _ _ _ _ _ Hc). cbv beta iota.
    eexists _, _, _. split; [reflexivity|]. cbn [hp fs errCause set_hp set_errCause].
    split; [exact Hfs0|]. split; [auto|]. split; [discriminate|intros Hempty; contradiction].
  - rewrite (bind_Some _ _ _ _ _ Hc).
    cbv beta iota. set (l' := fresh (dom (hp w0))).
    rewrite (bind_Some _ _ _ _ _ (deref_Some _ l' _ (lookup_insert_eq _ _ _))).
    rewrite (bind_Some _ _ _ _ _ (store_Some _ l' _ _ (lookup_insert_eq _ _ _))).
    rewrite (bind_Some _ _ _ _ _ eq_refl). cbv beta.
    eexists _, _, _. split; [reflexivity|]. cbn [hp fs errCause set_hp set_errCause].
    split; [exact Hfs0|]. split.
    + split; [rewrite <- Hhp0; apply fresh_not_allocated|].
      eexists. rewrite insert_insert_eq, Hhp0. reflexivity.
    + destruct (_ =? _); split; auto; discriminate.
Qed.






(** * Further properties of the module *)

(** ** Stores and images *)

Lemma world_eta (w : world) : mkWorld (hp w) (errCause w) (fs w) = w.
Proof. destruct w; reflexivity. Qed.

Lemma set_hp_id (w : world) l im : hp w !! l = Some im → set_hp <[l := im]> w = w.
Proof. intros H. unfold set_hp. rewrite insert_id by exact H. apply world_eta. Qed.

Lemma set_hp_twice (w : world) l im1 im2 :
  set_hp <[l := im2]> (set_hp <[l := im1]> w) = set_hp <[l := im2]> w.
Proof. unfold set_hp. cbn [hp errCause fs]. rewrite insert_insert_eq. reflexivity. Qed.

(** Two images of the same shape with the same sample at every position
    are the same image. *)
Lemma image_ext (im1 im2 : image) :
  same_shape im1 im2 → 0 ≤ width im2 →
  Z.of_nat (length (pixel im2)) = width im2 * height im2 →
  (∀ x y, 0 ≤ x < width im2 → 0 ≤ y < height im2 → sample im1 x y = sample im2 x y) →
  im1 = im2.
Proof.
  intros (Hw & Hh & Hm & Hl) Hw0 Hlen Hs.
  destruct im1 as [w1 h1 m1 p1], im2 as [w2 h2 m2 p2]. cbn in *. subst w1 h1 m1.
  f_equal. apply list_eq. intros k.
  destruct (decide (k < length p2)%nat) as [Hk|Hk].
  - assert (0 < w2) as Hw2
      by (destruct (Z.eq_dec w2 0) as [E|E]; [rewrite E in Hlen; lia|lia]).
    pose proof (Z.div_mod (Z.of_nat k) w2 ltac:(lia)) as Hdm.
    pose proof (Z.mod_pos_bound (Z.of_nat k) w2 Hw2) as Hmod.
    assert (0 ≤ Z.of_nat k / w2) as Hdiv by (apply Z.div_pos; lia).
    assert (Z.of_nat k / w2 < h2) as Hdiv2 by (apply Z.div_lt_upper_bound; nia).
    specialize (Hs (Z.of_nat k mod w2) (Z.of_nat k / w2) Hmod (conj Hdiv Hdiv2)).
    unfold sample in Hs. cbn in Hs.
    replace (Z.to_nat (Z.of_nat k / w2 * w2 + Z.of_nat k mod w2)) with k in Hs by lia.
    exact Hs.
  - rewrite !lookup_ge_None_2 by lia. reflexivity.
Qed.

(** When every sample at a valid position satisfies [P], so does every
    element of the pixel array. *)
Lemma samples_Forall (P : Z → Prop) (im : image) :
  0 ≤ width im →
  Z.of_nat (length (pixel im)) = width im * height im →
  (∀ x y s, 0 ≤ x < width im → 0 ≤ y < height im → sample im x y = Some s → P s) →
  Forall P (pixel im).
Proof.
  intros Hw0 Hlen Hs. apply Forall_lookup. intros k s Hk.
  pose proof (lookup_lt_Some _ _ _ Hk) as Hlt.
  assert (0 < width im) as Hw
    by (destruct (Z.eq_dec (width im) 0) as [E|E]; [rewrite E in Hlen; lia|lia]).
  pose proof (Z.div_mod (Z.of_nat k) (width im) ltac:(lia)) as Hdm.
  pose proof (Z.mod_pos_bound (Z.of_nat k) (width im) Hw) as Hmod.
  assert (0 ≤ Z.of_nat k / width im) as Hdiv by (apply Z.div_pos; lia).
  assert (Z.of_nat k / width im < height im) as Hdiv2
    by (apply Z.div_lt_upper_bound; nia).
  apply (Hs (Z.of_nat k mod width im) (Z.of_nat k / width im)); auto.
  unfold sample.
  replace (Z.to_nat (Z.of_nat k / width im * width im + Z.of_nat k mod width im))
    with k by lia.
  exact Hk.
Qed.

Lemma sample_byte (im : image) x y s :
  byte_samples im → sample im x y = Some s → 0 ≤ s ≤ 255.
Proof.
  intros Hb Hs. unfold byte_samples in Hb. rewrite Forall_lookup in Hb.
  exact (Hb _ _ Hs).
Qed.

Lemma all_bytes_spec (P : Z → bool) :
  all_bytes P = true → ∀ p, 0 ≤ p ≤ 255 → P p = true.
Proof.
  unfold all_bytes. intros H p Hp. rewrite forallb_forall in H.
  apply H. apply list_elem_of_In, elem_of_seqZ. lia.
Qed.

(** ** Two-level loops *)

Lemma grid_loops (P : Z → Z → world → Prop) (body : Z → Z → M unit) W H w :
  0 ≤ W → 0 ≤ H → P 0 0 w →
  (∀ o i w', 0 ≤ o < H → 0 ≤ i < W → P o i w' →
             ∃ w'', body o i w' = Some (tt, w'') ∧ P o (i + 1) w'') →
  (∀ o w', 0 ≤ o < H → P o W w' → P (o + 1) 0 w') →
  ∃ w', for_range 0 H (λ o, for_range 0 W (λ i, body o i)) w = Some (tt, w')
        ∧ P H 0 w'.
Proof.
  intros HW HH Hinit Hstep Hrow.
  apply (for_range_inv (λ o, P o 0)); [exact HH|exact Hinit|].
  intros o w1 Ho HP.
  destruct (for_range_inv (P o) 0 W (λ i, body o i) w1 HW HP) as (w2 & Hrun & HP2).
  { intros i w2 Hi HPi. apply Hstep; auto. }
  exists w2. split; [exact Hrun|]. apply Hrow; auto.
Qed.

Section Grid.
Variables (w : world) (ld : loc) (imd : image) (W H : Z).
Variables (dst : Z → Z → Z * Z) (val : Z → Z → option Z).
Hypothesis Hld : hp w !! ld = Some imd.
Hypothesis Hlen : Z.of_nat (length (pixel imd)) = width imd * height imd.
Hypothesis Hvalid : ∀ i o, 0 ≤ i < W → 0 ≤ o < H →
  0 ≤ (dst i o).1 < width imd ∧ 0 ≤ (dst i o).2 < height imd.
Hypothesis Hinj : ∀ i1 o1 i2 o2, 0 ≤ i1 < W → 0 ≤ o1 < H → 0 ≤ i2 < W → 0 ≤ o2 < H →
  dst i1 o1 = dst i2 o2 → i1 = i2 ∧ o1 = o2.

Lemma grid_inv_init : grid_inv w ld imd W H dst val 0 0 w.
Proof.
  exists imd. split; [symmetry; apply set_hp_id; exact Hld|].
  split; [apply same_shape_refl|]. split.
  - intros i' o' Hi' Ho' Hb. unfold before in Hb. lia.
  - auto.
Qed.

Lemma grid_inv_row o w' :
  grid_inv w ld imd W H dst val o W w' → grid_inv w ld imd W H dst val (o + 1) 0 w'.
Proof.
  intros (imd' & Hw' & Hsh & Hdone & Hrest). exists imd'.
  split; [exact Hw'|]. split; [exact Hsh|]. split.
  - intros i' o' Hi' Ho' Hb. apply Hdone; auto. unfold before in *. lia.
  - intros x y Hx Hy Hfree. apply Hrest; auto.
    intros i' o' Hi' Ho' Hb. apply Hfree; auto. unfold before in *. lia.
Qed.

(** The image under construction, and the rest of the store. *)
Lemma grid_inv_current o i w' :
  grid_inv w ld imd W H dst val o i w' →
  ∃ imd', hp w' !! ld = Some imd' ∧ same_shape imd' imd
          ∧ Z.of_nat (length (pixel imd')) = width imd' * height imd'
          ∧ (∀ l, l ≠ ld → hp w' !! l = hp w !! l)
          ∧ (∀ i' o', 0 ≤ i' < W → 0 ≤ o' < H → ¬ before o' i' o i →
                      sample imd' (dst i' o').1 (dst i' o').2
                      = sample imd (dst i' o').1 (dst i' o').2).
Proof.
  intros (imd' & -> & Hsh & Hdone & Hrest). exists imd'.
  split; [apply lookup_insert_eq|]. split; [exact Hsh|].
  split; [exact (same_shape_len _ _ Hsh Hlen)|]. split.
  - intros l Hl. cbn. apply lookup_insert_ne. auto.
  - intros i' o' Hi' Ho' Hnb. apply Hrest; try apply Hvalid; auto.
    intros i2 o2 Hi2 Ho2 Hb E.
    rewrite <- surjective_pairing in E.
    destruct (Hinj i2 o2 i' o' Hi2 Ho2 Hi' Ho' E) as [-> ->]. contradiction.
Qed.

(** Writing the value of turn (i, o) at its position makes the next turn's
    invariant. *)
Lemma grid_inv_write o i w' imd' v :
  0 ≤ i < W → 0 ≤ o < H →
  grid_inv w ld imd W H dst val o i w' →
  hp w' !! ld = Some imd' → val i o = Some v →
  grid_inv w ld imd W H dst val o (i + 1)
           (set_hp <[ld := set_sample imd' (dst i o).1 (dst i o).2 v]> w').
Proof.
  intros Hi Ho (imd0 & -> & Hsh & Hdone & Hrest) Hcur Hv.
  cbn in Hcur. rewrite lookup_insert_eq in Hcur. injection Hcur as <-.
  pose proof (same_shape_len _ _ Hsh Hlen) as Hlen0.
  destruct Hsh as (Hw1 & Hh1 & Hm1 & Hp1).
  destruct (Hvalid i o Hi Ho) as [Hdx Hdy].
  eexists. split; [apply set_hp_twice|]. split; [|split].
  - eapply same_shape_trans; [apply set_sample_shape|]. unfold same_shape. auto.
  - intros i' o' Hi' Ho' Hb.
    destruct (decide (i' = i ∧ o' = o)) as [[-> ->]|Hne].
    + rewrite Hv. apply sample_set_same; [exact Hlen0|lia|lia].
    + destruct (Hvalid i' o' Hi' Ho') as [Hdx' Hdy'].
      rewrite sample_set_other; [|lia|lia|lia|lia|].
      * apply Hdone; auto. unfold before in *. lia.
      * rewrite <- !surjective_pairing. intros E.
        destruct (Hinj i' o' i o Hi' Ho' Hi Ho E). lia.
  - intros x y Hx Hy Hfree.
    rewrite sample_set_other; [|lia|lia|lia|lia|].
    + apply Hrest; auto. intros i' o' Hi' Ho' Hb. apply Hfree; auto.
      unfold before in *. lia.
    + rewrite <- surjective_pairing. intros E. symmetry in E. revert E.
      apply Hfree; auto. unfold before. lia.
Qed.

(** When the loops end every turn's value is in place. *)
Lemma grid_inv_end w' :
  grid_inv w ld imd W H dst val H 0 w' →
  ∃ imd', w' = set_hp <[ld := imd']> w ∧ same_shape imd' imd
          ∧ (∀ i o, 0 ≤ i < W → 0 ≤ o < H →
                    sample imd' (dst i o).1 (dst i o).2 = val i o)
          ∧ (∀ x y, 0 ≤ x < width imd → 0 ≤ y < height imd →
                    (∀ i o, 0 ≤ i < W → 0 ≤ o < H → dst i o ≠ (x, y)) →
                    sample imd' x y = sample imd x y).
Proof.
  intros (imd' & Hw' & Hsh & Hdone & Hrest). exists imd'.
  split; [exact Hw'|]. split; [exact Hsh|]. split.
  - intros i o Hi Ho. apply Hdone; auto. unfold before. lia.
  - intros x y Hx Hy Hfree. apply Hrest; auto.
Qed.
End Grid.

(** ** Pixel access: bounds and round trip *)

(** X1: a pixel written at a valid position is the pixel read back there;
    every other position of the image reads as before, and no other image
    of the store changes. *)
Theorem ImageSetPixel_ImageGetPixel (w : world) (l : loc) (im : image) (x y v : Z) :
  hp w !! l = Some im →
  Z.of_nat (length (pixel im)) = width im * height im →
  0 ≤ x < width im → 0 ≤ y < height im →
  ∃ w', ImageSetPixel (Some l) x y v w = Some (tt, w')
        ∧ ImageGetPixel (Some l) x y w' = Some (v, w')
        ∧ (∀ x' y' v', 0 ≤ x' < width im → 0 ≤ y' < height im → (x', y') ≠ (x, y) →
                       ImageGetPixel (Some l) x' y' w = Some (v', w) →
                       ImageGetPixel (Some l) x' y' w' = Some (v', w'))
        ∧ (∀ l0, l0 ≠ l → hp w' !! l0 = hp w !! l0).
Proof.
  intros Hl Hlen Hx Hy. eexists. split; [apply (ImageSetPixel_eq w l im Hl Hlen); auto|].
  pose proof (set_sample_shape im x y v) as (Hw1 & Hh1 & Hm1 & Hp1).
  assert (hp (set_hp <[l := set_sample im x y v]> w) !! l = Some (set_sample im x y v))
    as Hl' by apply lookup_insert_eq.
  split; [|split].
  - apply (ImageGetPixel_eq _ l _ Hl'); try lia. apply sample_set_same; auto.
  - intros x' y' v' Hx' Hy' Hne Hget.
    apply (ImageGetPixel_eq _ l _ Hl'); try lia.
    rewrite sample_set_other by (auto; lia).
    destruct (sample_is_Some im Hlen x' y' Hx' Hy') as [v0 Hv0].
    rewrite (ImageGetPixel_eq w l im Hl x' y' v0 Hx' Hy' Hv0) in Hget. congruence.
  - intros l0 Hne. cbn. apply lookup_insert_ne. auto.
Qed.

Lemma ImageSetPixel_ImageGetPixel_witness :
  ∃ w', ImageSetPixel (Some 1%positive) 1 0 200 (single (mkImage 3 2 255 [0; 0; 0; 0; 0; 0]))
        = Some (tt, w')
        ∧ ImageGetPixel (Some 1%positive) 1 0 w' = Some (200, w')
        ∧ (∀ x' y' v', 0 ≤ x' < 3 → 0 ≤ y' < 2 → (x', y') ≠ (1, 0) →
                       ImageGetPixel (Some 1%positive) x' y'
                         (single (mkImage 3 2 255 [0; 0; 0; 0; 0; 0]))
                       = Some (v', single (mkImage 3 2 255 [0; 0; 0; 0; 0; 0])) →
                       ImageGetPixel (Some 1%positive) x' y' w' = Some (v', w'))
        ∧ (∀ l0, l0 ≠ 1%positive →
                 hp w' !! l0 = hp (single (mkImage 3 2 255 [0; 0; 0; 0; 0; 0])) !! l0).
Proof.
  apply (ImageSetPixel_ImageGetPixel (single (mkImage 3 2 255 [0; 0; 0; 0; 0; 0]))
           1%positive (mkImage 3 2 255 [0; 0; 0; 0; 0; 0]) 1 0 200).
  - reflexivity.
  - reflexivity.
  - cbn. lia.
  - cbn. lia.
Defined.

(** X2: reading or writing a pixel outside the image stops the program at
    the assertion, whatever the image holds. *)
Theorem pixel_access_out_of_bounds (w : world) (l : loc) (im : image) (x y v : Z) :
  hp w !! l = Some im →
  ¬ (0 ≤ x < width im ∧ 0 ≤ y < height im) →
  ImageGetPixel (Some l) x y w = None ∧ ImageSetPixel (Some l) x y v w = None.
Proof.
  intros Hl Hout.
  assert ((((0 <=? x) && (x <? width im)) && ((0 <=? y) && (y <? height im))) = false)
    as Hb.
  { apply not_true_is_false. intros Ht. apply Hout.
    apply andb_true_iff in Ht as [H1 H2].
    apply andb_true_iff in H1 as [? ?]. apply andb_true_iff in H2 as [? ?]. lia. }
  split.
  - unfold ImageGetPixel.
    rewrite (bind_Some _ _ _ _ _ (deref_Some _ _ _ Hl)).
    rewrite (bind_Some _ _ _ _ _ (ImageValidPos_eq w l im Hl x y)), Hb. reflexivity.
  - unfold ImageSetPixel.
    rewrite (bind_Some _ _ _ _ _ (deref_Some _ _ _ Hl)).
    rewrite (bind_Some _ _ _ _ _ (ImageValidPos_eq w l im Hl x y)), Hb. reflexivity.
Qed.

Lemma pixel_access_out_of_bounds_witness :
  ImageGetPixel (Some 1%positive) 3 0 (single (mkImage 3 2 255 [0; 0; 0; 0; 0; 0])) = None
  ∧ ImageSetPixel (Some 1%positive) 3 0 9 (single (mkImage 3 2 255 [0; 0; 0; 0; 0; 0]))
    = None.
Proof.
  apply (pixel_access_out_of_bounds (single (mkImage 3 2 255 [0; 0; 0; 0; 0; 0]))
           1%positive (mkImage 3 2 255 [0; 0; 0; 0; 0; 0]) 3 0 9).
  - reflexivity.
  - cbn. lia.
Defined.

(** ** Creation and destruction *)

(** X3: with valid arguments whose product width * height is within
    [int], and memory available, [ImageCreate] adds at an unused address
    a well-formed image of the given width, height and maxval whose
    samples are all 0, and changes nothing else; destroying that image
    gives the store back as it was.  Destroying NULL does nothing. *)
Theorem ImageCreate_ImageDestroy (w : world) (width0 height0 maxval0 : Z) :
  0 ≤ width0 ≤ INT_MAX → 0 ≤ height0 ≤ INT_MAX → 0 < maxval0 ≤ 255 →
  width0 * height0 ≤ INT_MAX →
  ∃ l im w',
    ImageCreate AllocOK width0 height0 maxval0 w = Some (Some l, w')
    ∧ hp w !! l = None ∧ hp w' = <[l := im]> (hp w)
    ∧ errCause w' = errCause w ∧ fs w' = fs w
    ∧ wf_image im
    ∧ width im = width0 ∧ height im = height0 ∧ maxval im = maxval0
    ∧ (∀ s, s ∈ pixel im → s = 0)
    ∧ ImageDestroy (Some l) w' = Some (None, w)
    ∧ ImageDestroy None w = Some (None, w).
Proof.
  intros Hw Hh Hm Hint.
  eexists _, _, _. split; [apply ImageCreate_ok; auto; lia|].
  split; [apply fresh_not_allocated|]. split; [reflexivity|].
  split; [reflexivity|]. split; [reflexivity|]. split.
  { unfold wf_image. cbn. rewrite length_replicate. repeat split; try lia.
    apply Forall_forall. intros s Hs. apply elem_of_replicate in Hs as [-> _]. lia. }
  split; [reflexivity|]. split; [reflexivity|]. split; [reflexivity|]. split.
  { intros s Hs. cbn in Hs. apply elem_of_replicate in Hs as [-> _]. reflexivity. }
  split; [|reflexivity].
  unfold ImageDestroy. rewrite (bind_Some _ _ _ _ _ eq_refl). cbn [hp set_hp].
  rewrite lookup_insert_eq. cbn [defined].
  rewrite (bind_Some _ _ _ _ _ eq_refl). rewrite (bind_Some _ _ _ _ _ eq_refl).
  unfold set_hp. cbn [hp errCause fs mret M_ret].
  rewrite delete_insert_id by apply fresh_not_allocated. rewrite world_eta. reflexivity.
Qed.

Lemma ImageCreate_ImageDestroy_witness :
  ∃ l im w',
    ImageCreate AllocOK 3 2 255 (mkWorld ∅ "" ∅) = Some (Some l, w')
    ∧ hp (mkWorld ∅ "" ∅) !! l = None ∧ hp w' = <[l := im]> (hp (mkWorld ∅ "" ∅))
    ∧ errCause w' = errCause (mkWorld ∅ "" ∅) ∧ fs w' = fs (mkWorld ∅ "" ∅)
    ∧ wf_image im
    ∧ width im = 3 ∧ height im = 2 ∧ maxval im = 255
    ∧ (∀ s, s ∈ pixel im → s = 0)
    ∧ ImageDestroy (Some l) w' = Some (None, mkWorld ∅ "" ∅)
    ∧ ImageDestroy None (mkWorld ∅ "" ∅) = Some (None, mkWorld ∅ "" ∅).
Proof.
  apply (ImageCreate_ImageDestroy (mkWorld ∅ "" ∅) 3 2 255); unfold INT_MAX; lia.
Defined.

(** ** Statistics *)

(** X4: on a well-formed image [ImageStats] reads the image without
    changing anything; for an image without pixels it answers (0, 0);
    otherwise the minimum and the maximum it answers are samples of the
    image and bound every sample. *)
Theorem ImageStats_spec (w : world) (l : loc) (im : image) :
  hp w !! l = Some im → wf_image im →
  ∃ mn mx,
    ImageStats (Some l) w = Some ((mn, mx), w)
    ∧ (pixel im = [] → mn = 0 ∧ mx = 0)
    ∧ (pixel im ≠ [] → mn ∈ pixel im ∧ mx ∈ pixel im)
    ∧ ∀ s, s ∈ pixel im → mn ≤ s ≤ mx.
Proof.
  intros Hl (Hw0 & Hh0 & _ & Hlen & _). unfold ImageStats.
  rewrite (bind_Some _ _ _ _ _ (deref_Some _ _ _ Hl)).
  destruct ((width im <=? 0) || (height im <=? 0)) eqn:Hempty.
  - assert (width im * height im = 0) as Hz.
    { apply orb_true_iff in Hempty as [E|E]; apply Z.leb_le in E; nia. }
    assert (pixel im = []) as Hnil by (apply length_zero_iff_nil; lia).
    exists 0, 0. split; [reflexivity|]. rewrite Hnil.
    split; [auto|]. split; [congruence|]. intros s Hs. inversion Hs.
  - apply orb_false_iff in Hempty as [E1 E2].
    apply Z.leb_gt in E1, E2.
    destruct (pixel im) as [|first ps] eqn:Hpx; [cbn in Hlen; nia|].
    cbn [lookup list_lookup defined]. rewrite (bind_Some _ _ w first w) by reflexivity.
    rewrite <- Hpx in *.
    destruct (for_acc_inv
                (λ i '(mn, mx) w',
                   w' = w ∧ mn ∈ pixel im ∧ mx ∈ pixel im
                   ∧ ∀ k s, (Z.of_nat k < i) → pixel im !! k = Some s → mn ≤ s ≤ mx)
                (λ i '(min, max),
                   pixel_value ← defined (pixel im !! Z.to_nat i);
                   let min := if pixel_value <? min then pixel_value else min in
                   let max := if max <? pixel_value then pixel_value else max in
                   mret (min, max))
                (Z.to_nat (width im * height im - 1)) 1 (first, first) w)
      as ([mn mx] & w' & Hrun & -> & Hmn & Hmx & Hbound).
    + assert (first ∈ pixel im) by (rewrite Hpx; left).
      repeat split; auto; destruct k as [|k]; try lia;
        rewrite Hpx in H1; cbn in H1; injection H1 as <-; lia.
    + intros j [mn mx] w1 Hj (-> & Hmn & Hmx & Hbound).
      destruct (lookup_lt_is_Some_2 (pixel im) (Z.to_nat j)) as [v Hv]; [lia|].
      rewrite Hv. cbn [defined]. rewrite (bind_Some _ _ w v w) by reflexivity.
      cbv zeta. eexists (_, _), w. split; [reflexivity|].
      assert (v ∈ pixel im) as Hin by (apply list_elem_of_lookup; eauto).
      split; [reflexivity|].
      split; [destruct (v <? mn); auto|]. split; [destruct (mx <? v); auto|].
      intros k s Hk Hs.
      destruct (decide (k = Z.to_nat j)) as [->|Hne].
      * assert (s = v) as -> by congruence.
        pose proof (Hbound 0%nat first ltac:(lia) ltac:(rewrite Hpx; reflexivity)).
        destruct (Z.ltb_spec v mn), (Z.ltb_spec mx v); lia.
      * pose proof (Hbound k s ltac:(lia) Hs).
        destruct (Z.ltb_spec v mn), (Z.ltb_spec mx v); lia.
    + exists mn, mx. split; [exact Hrun|]. split; [rewrite Hpx; discriminate|].
      split; [auto|]. intros s Hs. apply list_elem_of_lookup in Hs as [k Hk].
      apply (Hbound k s); [|exact Hk]. apply lookup_lt_Some in Hk. lia.
Qed.

Lemma ImageStats_spec_witness :
  ∃ mn mx,
    ImageStats (Some 1%positive) (single (mkImage 3 1 255 [7; 200; 3]))
    = Some ((mn, mx), single (mkImage 3 1 255 [7; 200; 3]))
    ∧ ([7; 200; 3] = [] → mn = 0 ∧ mx = 0)
    ∧ ([7; 200; 3] ≠ [] → mn ∈ [7; 200; 3] ∧ mx ∈ [7; 200; 3])
    ∧ ∀ s, s ∈ [7; 200; 3] → mn ≤ s ≤ mx.
Proof.
  apply (ImageStats_spec (single (mkImage 3 1 255 [7; 200; 3])) 1%positive
           (mkImage 3 1 255 [7; 200; 3])).
  - reflexivity.
  - vm_compute. repeat split; try discriminate. repeat constructor; discriminate.
Defined.

(** ** Operators that rewrite every sample in place *)

(** A loop that replaces each sample s of the image by [f s]. *)
Lemma pointwise_loops (w : world) (l : loc) (im : image) (f : Z → Z) :
  hp w !! l = Some im → 0 ≤ width im → 0 ≤ height im →
  Z.of_nat (length (pixel im)) = width im * height im →
  ∃ im',
    for_range 0 (height im) (λ y,
      for_range 0 (width im) (λ x,
        currentPixel ← ImageGetPixel (Some l) x y;
        ImageSetPixel (Some l) x y (f currentPixel))) w
    = Some (tt, set_hp <[l := im']> w)
    ∧ same_shape im' im
    ∧ ∀ x y, 0 ≤ x < width im → 0 ≤ y < height im →
             sample im' x y = f <$> sample im x y.
Proof.
  intros Hl Hw0 Hh0 Hlen.
  set (dst := λ i o : Z, (i, o)).
  set (val := λ i o : Z, f <$> sample im i o).
  assert (∀ i o, 0 ≤ i < width im → 0 ≤ o < height im →
                 0 ≤ (dst i o).1 < width im ∧ 0 ≤ (dst i o).2 < height im) as Hvalid
    by (intros; cbn; lia).
  assert (∀ i1 o1 i2 o2, 0 ≤ i1 < width im → 0 ≤ o1 < height im →
                         0 ≤ i2 < width im → 0 ≤ o2 < height im →
                         dst i1 o1 = dst i2 o2 → i1 = i2 ∧ o1 = o2) as Hinj
    by (intros ? ? ? ? _ _ _ _ E; inversion E; auto).
  destruct (grid_loops (grid_inv w l im (width im) (height im) dst val)
              (λ y x, currentPixel ← ImageGetPixel (Some l) x y;
                      ImageSetPixel (Some l) x y (f currentPixel))
              (width im) (height im) w Hw0 Hh0) as (w' & Hrun & Hend).
  - apply grid_inv_init; auto.
  - intros o i w1 Ho Hi Hinv.
    destruct (grid_inv_current w l im _ _ dst val Hlen Hvalid Hinj o i w1 Hinv)
      as (im1 & Hl1 & Hsh1 & Hlen1 & _ & Hold).
    destruct (sample_is_Some im Hlen i o Hi Ho) as [s Hs].
    assert (sample im1 i o = Some s) as Hs1.
    { rewrite <- Hs. apply (Hold i o Hi Ho). unfold before. lia. }
    destruct Hsh1 as (Hw1 & Hh1 & _).
    rewrite (bind_Some _ _ w1 s w1)
      by (apply (ImageGetPixel_eq w1 l im1 Hl1); auto; lia).
    rewrite (ImageSetPixel_eq w1 l im1 Hl1 Hlen1) by lia.
    eexists. split; [reflexivity|].
    apply (grid_inv_write w l im _ _ dst val Hlen Hvalid Hinj o i w1 im1 (f s));
      auto.
    unfold val. rewrite Hs. reflexivity.
  - intros o w1 _. apply grid_inv_row.
  - destruct (grid_inv_end w l im _ _ dst val w' Hend)
      as (im' & -> & Hsh & Hdone & _).
    exists im'. split; [exact Hrun|]. split; [exact Hsh|].
    intros x y Hx Hy. apply (Hdone x y Hx Hy).
Qed.

(** [ImageNegative] replaces every sample s of a well-formed image by
    255 - s (whatever the maxval), keeps width, height and maxval, and
    changes no other image. *)
Lemma ImageNegative_run (w : world) (l : loc) (im : image) :
  hp w !! l = Some im → wf_image im →
  ∃ im',
    ImageNegative (Some l) w = Some (tt, set_hp <[l := im']> w)
    ∧ wf_image im'
    ∧ width im' = width im ∧ height im' = height im ∧ maxval im' = maxval im
    ∧ ∀ x y, 0 ≤ x < width im → 0 ≤ y < height im →
             sample im' x y = (λ s, 255 - s) <$> sample im x y.
Proof.
  intros Hl (Hw0 & Hh0 & Hmax & Hlen & Hbytes & Hwi & Hhi & Hint).
  destruct (pointwise_loops w l im (λ p, to_uint8 (PixMax - p)) Hl Hw0 Hh0 Hlen)
    as (im' & Hrun & Hsh & Hs).
  assert (∀ x y, 0 ≤ x < width im → 0 ≤ y < height im →
                 sample im' x y = (λ s, 255 - s) <$> sample im x y) as Hs'.
  { intros x y Hx Hy. rewrite (Hs x y Hx Hy).
    destruct (sample im x y) as [s|] eqn:E; [|reflexivity]. cbn.
    pose proof (sample_byte im x y s Hbytes E).
    unfold PixMax. rewrite to_uint8_small by lia. reflexivity. }
  pose proof (same_shape_len _ _ Hsh Hlen) as Hlen'.
  pose proof Hsh as (Hw1 & Hh1 & Hm1 & _).
  exists im'. split; [|split; [|auto]].
  - unfold ImageNegative. rewrite (bind_Some _ _ _ _ _ (deref_Some _ _ _ Hl)). exact Hrun.
  - unfold wf_image. rewrite Hw1, Hh1, Hm1. repeat split; try lia.
    apply samples_Forall; [lia|exact Hlen'|].
    intros x y s Hx Hy E. rewrite Hw1 in Hx. rewrite Hh1 in Hy.
    rewrite (Hs' x y Hx Hy) in E.
    destruct (sample im x y) as [s0|] eqn:E0; [|discriminate]. cbn in E.
    pose proof (sample_byte im x y s0 Hbytes E0). injection E as <-. lia.
Qed.

(** X5: [ImageNegative] replaces every sample s of a well-formed image by
    255 - s (whatever the maxval), keeps width, height and maxval, and
    changes no other image. *)
Theorem ImageNegative_spec (w : world) (l : loc) (im : image) :
  hp w !! l = Some im → wf_image im →
  ∃ im',
    ImageNegative (Some l) w = Some (tt, set_hp <[l := im']> w)
    ∧ wf_image im'
    ∧ width im' = width im ∧ height im' = height im ∧ maxval im' = maxval im
    ∧ ∀ x y, 0 ≤ x < width im → 0 ≤ y < height im →
             sample im' x y = (λ s, 255 - s) <$> sample im x y.
Proof. exact (ImageNegative_run w l im). Qed.

Lemma ImageNegative_spec_witness :
  ∃ im',
    ImageNegative (Some 1%positive) (single (mkImage 3 1 100 [0; 100; 255]))
    = Some (tt, set_hp <[1%positive := im']> (single (mkImage 3 1 100 [0; 100; 255])))
    ∧ wf_image im'
    ∧ width im' = 3 ∧ height im' = 1 ∧ maxval im' = 100
    ∧ ∀ x y, 0 ≤ x < 3 → 0 ≤ y < 1 →
             sample im' x y = (λ s, 255 - s) <$> sample (mkImage 3 1 100 [0; 100; 255]) x y.
Proof.
  apply (ImageNegative_spec (single (mkImage 3 1 100 [0; 100; 255])) 1%positive
           (mkImage 3 1 100 [0; 100; 255])).
  - reflexivity.
  - vm_compute. repeat split; try discriminate. repeat constructor; discriminate.
Defined.

(** X6: taking the negative twice gives back the store as it was. *)
Theorem ImageNegative_involutive (w : world) (l : loc) (im : image) :
  hp w !! l = Some im → wf_image im →
  ∃ w1, ImageNegative (Some l) w = Some (tt, w1)
        ∧ ImageNegative (Some l) w1 = Some (tt, w).
Proof.
  intros Hl Hwf.
  destruct (ImageNegative_run w l im Hl Hwf)
    as (im1 & Hrun1 & Hwf1 & Hw1 & Hh1 & Hm1 & Hs1).
  exists (set_hp <[l := im1]> w). split; [exact Hrun1|].
  destruct (ImageNegative_run (set_hp <[l := im1]> w) l im1
              (lookup_insert_eq _ _ _) Hwf1)
    as (im2 & Hrun2 & Hwf2 & Hw2 & Hh2 & Hm2 & Hs2).
  rewrite Hrun2, set_hp_twice. f_equal. f_equal.
  assert (im2 = im) as ->; [|apply set_hp_id; exact Hl].
  destruct Hwf as (Hw0 & Hh0 & _ & Hlen & _).
  destruct Hwf2 as (_ & _ & _ & Hlen2 & _).
  apply image_ext; auto.
  - unfold same_shape. repeat split; try congruence.
    apply Nat2Z.inj. rewrite Hlen, Hlen2. congruence.
  - intros x y Hx Hy.
    rewrite Hs2 by lia. rewrite Hs1 by lia.
    destruct (sample im x y); cbn; f_equal; lia.
Qed.

Lemma ImageNegative_involutive_witness :
  ∃ w1, ImageNegative (Some 1%positive) (single (mkImage 3 1 100 [0; 100; 255]))
        = Some (tt, w1)
        ∧ ImageNegative (Some 1%positive) w1
          = Some (tt, single (mkImage 3 1 100 [0; 100; 255])).
Proof.
  apply (ImageNegative_involutive (single (mkImage 3 1 100 [0; 100; 255])) 1%positive
           (mkImage 3 1 100 [0; 100; 255])).
  - reflexivity.
  - vm_compute. repeat split; try discriminate. repeat constructor; discriminate.
Defined.

(** X7: [ImageThreshold] replaces every sample below the threshold by 0
    and every other sample by maxval, so the image it leaves holds only
    these two values; width, height and maxval are kept. *)
Theorem ImageThreshold_spec (w : world) (l : loc) (im : image) (thr : Z) :
  hp w !! l = Some im → wf_image im →
  ∃ im',
    ImageThreshold (Some l) thr w = Some (tt, set_hp <[l := im']> w)
    ∧ width im' = width im ∧ height im' = height im ∧ maxval im' = maxval im
    ∧ (∀ x y, 0 ≤ x < width im → 0 ≤ y < height im →
              sample im' x y
              = (λ s, if s <? thr then 0 else maxval im) <$> sample im x y)
    ∧ (∀ s, s ∈ pixel im' → s = 0 ∨ s = maxval im).
Proof.
  intros Hl (Hw0 & Hh0 & Hmax & Hlen & Hbytes & Hwi & Hhi & Hint).
  destruct (pointwise_loops w l im (λ p, if p <? thr then 0 else maxval im)
              Hl Hw0 Hh0 Hlen) as (im' & Hrun & Hsh & Hs).
  pose proof (same_shape_len _ _ Hsh Hlen) as Hlen'.
  pose proof Hsh as (Hw1 & Hh1 & Hm1 & _).
  exists im'. split; [|split; [|split; [|split; [|split]]]]; auto.
  - unfold ImageThreshold. rewrite (bind_Some _ _ _ _ _ (deref_Some _ _ _ Hl)).
    rewrite to_uint8_small by lia. exact Hrun.
  - apply Forall_forall. apply samples_Forall; [lia|exact Hlen'|].
    intros x y s Hx Hy E. rewrite Hw1 in Hx. rewrite Hh1 in Hy.
    rewrite (Hs x y Hx Hy) in E.
    destruct (sample im x y) as [s0|]; [|discriminate]. cbn in E. injection E as <-.
    destruct (s0 <? thr); auto.
Qed.

Lemma ImageThreshold_spec_witness :
  ∃ im',
    ImageThreshold (Some 1%positive) 8 (single (mkImage 3 1 200 [7; 8; 255]))
    = Some (tt, set_hp <[1%positive := im']> (single (mkImage 3 1 200 [7; 8; 255])))
    ∧ width im' = 3 ∧ height im' = 1 ∧ maxval im' = 200
    ∧ (∀ x y, 0 ≤ x < 3 → 0 ≤ y < 1 →
              sample im' x y
              = (λ s, if s <? 8 then 0 else 200)
                  <$> sample (mkImage 3 1 200 [7; 8; 255]) x y)
    ∧ (∀ s, s ∈ pixel im' → s = 0 ∨ s = 200).
Proof.
  apply (ImageThreshold_spec (single (mkImage 3 1 200 [7; 8; 255])) 1%positive
           (mkImage 3 1 200 [7; 8; 255]) 8).
  - reflexivity.
  - vm_compute. repeat split; try discriminate. repeat constructor; discriminate.
Defined.

(** ** Operators that copy from one image to another *)

(** A loop that copies, for every (i, o) of [0, W) x [0, H), the sample of
    the image at [ls] at position [src i o] to position [dst i o] of a
    different image at [ld]. *)
Lemma copy_loops (w : world) (ls ld : loc) (ims imd : image) (W H : Z)
    (src dst : Z → Z → Z * Z) :
  hp w !! ls = Some ims → hp w !! ld = Some imd → ls ≠ ld →
  Z.of_nat (length (pixel ims)) = width ims * height ims →
  Z.of_nat (length (pixel imd)) = width imd * height imd →
  0 ≤ W → 0 ≤ H →
  (∀ i o, 0 ≤ i < W → 0 ≤ o < H →
          0 ≤ (src i o).1 < width ims ∧ 0 ≤ (src i o).2 < height ims) →
  (∀ i o, 0 ≤ i < W → 0 ≤ o < H →
          0 ≤ (dst i o).1 < width imd ∧ 0 ≤ (dst i o).2 < height imd) →
  (∀ i1 o1 i2 o2, 0 ≤ i1 < W → 0 ≤ o1 < H → 0 ≤ i2 < W → 0 ≤ o2 < H →
                  dst i1 o1 = dst i2 o2 → i1 = i2 ∧ o1 = o2) →
  ∃ imd',
    for_range 0 H (λ o,
      for_range 0 W (λ i,
        pixel ← ImageGetPixel (Some ls) (src i o).1 (src i o).2;
        ImageSetPixel (Some ld) (dst i o).1 (dst i o).2 pixel)) w
    = Some (tt, set_hp <[ld := imd']> w)
    ∧ same_shape imd' imd
    ∧ (∀ i o, 0 ≤ i < W → 0 ≤ o < H →
              sample imd' (dst i o).1 (dst i o).2 = sample ims (src i o).1 (src i o).2)
    ∧ (∀ x y, 0 ≤ x < width imd → 0 ≤ y < height imd →
              (∀ i o, 0 ≤ i < W → 0 ≤ o < H → dst i o ≠ (x, y)) →
              sample imd' x y = sample imd x y).
Proof.
  intros Hls Hld Hne Hlens Hlend HW HH Hsrc Hvalid Hinj.
  set (val := λ i o : Z, sample ims (src i o).1 (src i o).2).
  destruct (grid_loops (grid_inv w ld imd W H dst val)
              (λ o i, pixel ← ImageGetPixel (Some ls) (src i o).1 (src i o).2;
                      ImageSetPixel (Some ld) (dst i o).1 (dst i o).2 pixel)
              W H w HW HH) as (w' & Hrun & Hend).
  - apply grid_inv_init; auto.
  - intros o i w1 Ho Hi Hinv.
    destruct (grid_inv_current w ld imd _ _ dst val Hlend Hvalid Hinj o i w1 Hinv)
      as (im1 & Hl1 & Hsh1 & Hlen1 & Hother & _).
    destruct (Hsrc i o Hi Ho) as [Hsx Hsy]. destruct (Hvalid i o Hi Ho) as [Hdx Hdy].
    destruct (sample_is_Some ims Hlens _ _ Hsx Hsy) as [s Hs].
    assert (hp w1 !! ls = Some ims) as Hls1 by (rewrite Hother; auto).
    destruct Hsh1 as (Hw1 & Hh1 & _).
    rewrite (bind_Some _ _ w1 s w1)
      by (apply (ImageGetPixel_eq w1 ls ims Hls1); auto).
    rewrite (ImageSetPixel_eq w1 ld im1 Hl1 Hlen1) by lia.
    eexists. split; [reflexivity|].
    apply (grid_inv_write w ld imd _ _ dst val Hlend Hvalid Hinj o i w1 im1 s); auto.
  - intros o w1 _. apply grid_inv_row.
  - destruct (grid_inv_end w ld imd _ _ dst val w' Hend)
      as (im' & -> & Hsh & Hdone & Hrest).
    exists im'. split; [exact Hrun|]. split; [exact Hsh|]. split; [exact Hdone|].
    exact Hrest.
Qed.

(** The image that [ImageCreate] makes, and the store after it. *)
Lemma ImageCreate_blank (w : world) (width0 height0 maxval0 : Z) :
  0 ≤ width0 → 0 ≤ height0 → 0 < maxval0 ≤ 255 → width0 * height0 ≤ INT_MAX →
  ∃ l blank,
    ImageCreate AllocOK width0 height0 maxval0 w = Some (Some l, set_hp <[l := blank]> w)
    ∧ hp w !! l = None
    ∧ width blank = width0 ∧ height blank = height0 ∧ maxval blank = maxval0
    ∧ Z.of_nat (length (pixel blank)) = width0 * height0.
Proof.
  intros Hw Hh Hm Hint. eexists _, _. split; [apply ImageCreate_ok; auto|].
  split; [apply fresh_not_allocated|]. cbn. rewrite length_replicate.
  repeat split; lia.
Qed.

(** The samples of a copy are bytes when those of its source are. *)
Lemma copy_bytes (ims im' : image) (W H : Z) (src : Z → Z → Z * Z) :
  byte_samples ims → width im' = W → height im' = H → 0 ≤ W →
  Z.of_nat (length (pixel im')) = W * H →
  (∀ i o, 0 ≤ i < W → 0 ≤ o < H → ∃ x y, sample im' i o = sample ims x y) →
  byte_samples im'.
Proof.
  intros Hb Hw Hh HW Hlen Hs. apply samples_Forall; [lia|congruence|].
  intros x y s Hx Hy E. rewrite Hw in Hx. rewrite Hh in Hy.
  destruct (Hs x y Hx Hy) as (x0 & y0 & E0). rewrite E0 in E.
  exact (sample_byte ims x0 y0 s Hb E).
Qed.

(** With memory available, [ImageMirror] returns the address of a
    fresh well-formed image of the same width, height and maxval in which
    the sample of the source at (x, y) is at (width - 1 - x, y); the
    store is otherwise unchanged. *)
Lemma ImageMirror_run (w : world) (l : loc) (im : image) :
  hp w !! l = Some im → wf_image im →
  ∃ l' r,
    ImageMirror AllocOK (Some l) w = Some (Some l', set_hp <[l' := r]> w)
    ∧ hp w !! l' = None
    ∧ wf_image r
    ∧ width r = width im ∧ height r = height im ∧ maxval r = maxval im
    ∧ ∀ x y, 0 ≤ x < width im → 0 ≤ y < height im →
             sample r (width im - 1 - x) y = sample im x y.
Proof.
  intros Hl Hwf. pose proof Hwf as (Hw0 & Hh0 & Hmax & Hlen & Hbytes & Hwi & Hhi & Hint).
  destruct (ImageCreate_blank w (width im) (height im) (maxval im) Hw0 Hh0 Hmax Hint)
    as (l' & blank & Hcreate & Hfresh & Hbw & Hbh & Hbm & Hblen).
  assert (l ≠ l') as Hne by congruence.
  destruct (copy_loops (set_hp <[l' := blank]> w) l l' im blank (width im) (height im)
              (λ x y, (x, y)) (λ x y, (width im - x - 1, y)))
    as (r & Hrun & Hsh & Hcopy & _); auto.
  { cbn. rewrite lookup_insert_ne; auto. }
  { apply lookup_insert_eq. }
  { rewrite Hbw, Hbh. exact Hblen. }
  { intros; cbn; lia. }
  { intros i1 o1 i2 o2 _ _ _ _ E. inversion E. lia. }
  cbn [fst snd] in Hrun, Hcopy. rewrite set_hp_twice in Hrun.
  pose proof Hsh as (Hrw & Hrh & Hrm & Hrl).
  assert (Z.of_nat (length (pixel r)) = width im * height im) as Hrlen by lia.
  exists l', r. split; [|split; [exact Hfresh|split; [|split; [lia|split; [lia|split; [lia|]]]]]].
  - unfold ImageMirror. rewrite (bind_Some _ _ _ _ _ (deref_Some _ _ _ Hl)).
    rewrite to_uint8_small by lia. rewrite (bind_Some _ _ _ _ _ Hcreate).
    cbv beta iota. rewrite (bind_Some _ _ _ _ _ Hrun). reflexivity.
  - unfold wf_image. rewrite Hrw, Hrh, Hrm, Hbw, Hbh, Hbm. repeat split; try lia.
    apply (copy_bytes im r (width im) (height im) (λ x y, (x, y))); auto; try lia.
    intros i o Hi Ho. exists (width im - 1 - i), o.
    rewrite <- (Hcopy (width im - 1 - i) o) by lia. f_equal. lia.
  - intros x y Hx Hy. rewrite <- (Hcopy x y Hx Hy). f_equal. lia.
Qed.

(** X8: with memory available, [ImageMirror] returns the address of a
    fresh well-formed image of the same width, height and maxval in which
    the sample of the source at (x, y) is at (width - 1 - x, y); the
    store is otherwise unchanged. *)
Theorem ImageMirror_spec (w : world) (l : loc) (im : image) :
  hp w !! l = Some im → wf_image im →
  ∃ l' r,
    ImageMirror AllocOK (Some l) w = Some (Some l', set_hp <[l' := r]> w)
    ∧ hp w !! l' = None
    ∧ wf_image r
    ∧ width r = width im ∧ height r = height im ∧ maxval r = maxval im
    ∧ ∀ x y, 0 ≤ x < width im → 0 ≤ y < height im →
             sample r (width im - 1 - x) y = sample im x y.
Proof. exact (ImageMirror_run w l im). Qed.

Lemma ImageMirror_spec_witness :
  ∃ l' r,
    ImageMirror AllocOK (Some 1%positive) (single (mkImage 3 1 255 [1; 2; 3]))
    = Some (Some l', set_hp <[l' := r]> (single (mkImage 3 1 255 [1; 2; 3])))
    ∧ hp (single (mkImage 3 1 255 [1; 2; 3])) !! l' = None
    ∧ wf_image r
    ∧ width r = 3 ∧ height r = 1 ∧ maxval r = 255
    ∧ ∀ x y, 0 ≤ x < 3 → 0 ≤ y < 1 →
             sample r (3 - 1 - x) y = sample (mkImage 3 1 255 [1; 2; 3]) x y.
Proof.
  apply (ImageMirror_spec (single (mkImage 3 1 255 [1; 2; 3])) 1%positive
           (mkImage 3 1 255 [1; 2; 3])).
  - reflexivity.
  - vm_compute. repeat split; try discriminate. repeat constructor; discriminate.
Defined.

(** X9: mirroring the mirror image gives an image equal to the first one
    (at another address). *)
Theorem ImageMirror_involutive (w : world) (l : loc) (im : image) :
  hp w !! l = Some im → wf_image im →
  ∃ l1 w1 l2 w2,
    ImageMirror AllocOK (Some l) w = Some (Some l1, w1)
    ∧ ImageMirror AllocOK (Some l1) w1 = Some (Some l2, w2)
    ∧ hp w2 !! l2 = Some im ∧ hp w2 !! l = Some im.
Proof.
  intros Hl Hwf.
  destruct (ImageMirror_run w l im Hl Hwf)
    as (l1 & r1 & Hrun1 & Hfresh1 & Hwf1 & Hw1 & Hh1 & Hm1 & Hs1).
  destruct (ImageMirror_run (set_hp <[l1 := r1]> w) l1 r1 (lookup_insert_eq _ _ _) Hwf1)
    as (l2 & r2 & Hrun2 & Hfresh2 & Hwf2 & Hw2 & Hh2 & Hm2 & Hs2).
  eexists _, _, _, _. split; [exact Hrun1|]. split; [exact Hrun2|].
  cbn [hp set_hp]. rewrite lookup_insert_eq.
  assert (l ≠ l1) as Hne1 by congruence.
  assert (l ≠ l2) as Hne2.
  { intros ->. cbn in Hfresh2. rewrite lookup_insert_ne in Hfresh2 by auto. congruence. }
  split; [|rewrite !lookup_insert_ne by auto; exact Hl].
  f_equal. destruct Hwf as (Hw0 & Hh0 & _ & Hlen & _).
  destruct Hwf2 as (_ & _ & _ & Hlen2 & _).
  apply image_ext; auto.
  - unfold same_shape. repeat split; try congruence.
    apply Nat2Z.inj. rewrite Hlen, Hlen2. congruence.
  - intros x y Hx Hy.
    rewrite <- (Hs1 x y Hx Hy).
    rewrite <- (Hs2 (width im - 1 - x) y) by lia. f_equal. lia.
Qed.

Lemma ImageMirror_involutive_witness :
  ∃ l1 w1 l2 w2,
    ImageMirror AllocOK (Some 1%positive) (single (mkImage 3 1 255 [1; 2; 3]))
    = Some (Some l1, w1)
    ∧ ImageMirror AllocOK (Some l1) w1 = Some (Some l2, w2)
    ∧ hp w2 !! l2 = Some (mkImage 3 1 255 [1; 2; 3])
    ∧ hp w2 !! 1%positive = Some (mkImage 3 1 255 [1; 2; 3]).
Proof.
  apply (ImageMirror_involutive (single (mkImage 3 1 255 [1; 2; 3])) 1%positive
           (mkImage 3 1 255 [1; 2; 3])).
  - reflexivity.
  - vm_compute. repeat split; try discriminate. repeat constructor; discriminate.
Defined.

Lemma ImageValidRect_eq (w : world) (l : loc) (im : image) (x y cw ch : Z) :
  hp w !! l = Some im →
  ImageValidRect (Some l) x y cw ch w
  = Some (of_bool (((0 <=? x) && (wrap_int (x + cw) <=? width im))
                   && ((0 <=? y) && (wrap_int (y + ch) <=? height im))), w).
Proof.
  intros Hl. unfold ImageValidRect.
  rewrite (bind_Some _ _ _ _ _ (deref_Some _ _ _ Hl)). reflexivity.
Qed.

(** With memory available, cropping a rectangle that lies within a
    well-formed image returns the address of a fresh well-formed image of
    the rectangle's width and height, with the maxval of the source, whose
    sample at (i, j) is the source's sample at (x + i, y + j); the store
    is otherwise unchanged. *)
Lemma ImageCrop_run (w : world) (l : loc) (im : image) (x y cw ch : Z) :
  hp w !! l = Some im → wf_image im →
  0 ≤ x → 0 ≤ y → 0 ≤ cw → 0 ≤ ch → x + cw ≤ width im → y + ch ≤ height im →
  ∃ l' r,
    ImageCrop AllocOK (Some l) x y cw ch w = Some (Some l', set_hp <[l' := r]> w)
    ∧ hp w !! l' = None
    ∧ wf_image r
    ∧ width r = cw ∧ height r = ch ∧ maxval r = maxval im
    ∧ ∀ i j, 0 ≤ i < cw → 0 ≤ j < ch → sample r i j = sample im (x + i) (y + j).
Proof.
  intros Hl Hwf Hx Hy Hcw Hch Hxw Hyh.
  pose proof Hwf as (Hw0 & Hh0 & Hmax & Hlen & Hbytes & Hwi & Hhi & Hint).
  destruct (ImageCreate_blank w cw ch (maxval im) Hcw Hch Hmax ltac:(nia))
    as (l' & blank & Hcreate & Hfresh & Hbw & Hbh & Hbm & Hblen).
  assert (l ≠ l') as Hne by congruence.
  destruct (copy_loops (set_hp <[l' := blank]> w) l l' im blank cw ch
              (λ i j, (x + i, y + j)) (λ i j, (i, j)))
    as (r & Hrun & Hsh & Hcopy & _); auto.
  { cbn. rewrite lookup_insert_ne; auto. }
  { apply lookup_insert_eq. }
  { rewrite Hbw, Hbh. exact Hblen. }
  { intros; cbn; lia. }
  { intros; cbn; lia. }
  { intros i1 o1 i2 o2 _ _ _ _ E. inversion E. lia. }
  cbn [fst snd] in Hrun, Hcopy. rewrite set_hp_twice in Hrun.
  pose proof Hsh as (Hrw & Hrh & Hrm & Hrl).
  assert (Z.of_nat (length (pixel r)) = cw * ch) as Hrlen by lia.
  exists l', r. split; [|split; [exact Hfresh|split; [|split; [lia|split; [lia|split; [lia|]]]]]].
  - unfold ImageCrop. rewrite (bind_Some _ _ _ _ _ (deref_Some _ _ _ Hl)).
    rewrite (bind_Some _ _ _ _ _ (ImageValidRect_eq w l im x y cw ch Hl)).
    rewrite valid_rect_true by (unfold INT_MIN; lia). cbn [of_bool Z.eqb negb].
    rewrite (bind_Some _ _ w tt w) by reflexivity.
    rewrite to_uint8_small by lia. rewrite (bind_Some _ _ _ _ _ Hcreate).
    cbv beta iota. rewrite (bind_Some _ _ _ _ _ Hrun). reflexivity.
  - unfold wf_image. rewrite Hrw, Hrh, Hrm, Hbw, Hbh, Hbm.
    repeat split; try lia; try nia.
    apply (copy_bytes im r cw ch (λ i j, (i, j))); auto; try lia.
    intros i o Hi Ho. exists (x + i), (y + o). apply Hcopy; auto.
  - exact Hcopy.
Qed.

(** X10: with memory available, cropping a rectangle that lies within a
    well-formed image returns the address of a fresh well-formed image of
    the rectangle's width and height, with the maxval of the source, whose
    sample at (i, j) is the source's sample at (x + i, y + j); the store
    is otherwise unchanged. *)
Theorem ImageCrop_spec (w : world) (l : loc) (im : image) (x y cw ch : Z) :
  hp w !! l = Some im → wf_image im →
  0 ≤ x → 0 ≤ y → 0 ≤ cw → 0 ≤ ch → x + cw ≤ width im → y + ch ≤ height im →
  ∃ l' r,
    ImageCrop AllocOK (Some l) x y cw ch w = Some (Some l', set_hp <[l' := r]> w)
    ∧ hp w !! l' = None
    ∧ wf_image r
    ∧ width r = cw ∧ height r = ch ∧ maxval r = maxval im
    ∧ ∀ i j, 0 ≤ i < cw → 0 ≤ j < ch → sample r i j = sample im (x + i) (y + j).
Proof. exact (ImageCrop_run w l im x y cw ch). Qed.

Lemma ImageCrop_spec_witness :
  ∃ l' r,
    ImageCrop AllocOK (Some 1%positive) 1 0 2 1 (single (mkImage 3 1 255 [1; 2; 3]))
    = Some (Some l', set_hp <[l' := r]> (single (mkImage 3 1 255 [1; 2; 3])))
    ∧ hp (single (mkImage 3 1 255 [1; 2; 3])) !! l' = None
    ∧ wf_image r
    ∧ width r = 2 ∧ height r = 1 ∧ maxval r = 255
    ∧ ∀ i j, 0 ≤ i < 2 → 0 ≤ j < 1 →
             sample r i j = sample (mkImage 3 1 255 [1; 2; 3]) (1 + i) (0 + j).
Proof.
  apply (ImageCrop_spec (single (mkImage 3 1 255 [1; 2; 3])) 1%positive
           (mkImage 3 1 255 [1; 2; 3]) 1 0 2 1); try (cbn; lia).
  - reflexivity.
  - vm_compute. repeat split; try discriminate. repeat constructor; discriminate.
Defined.

(** X11: cropping the whole image gives an image equal to it (at another
    address). *)
Theorem ImageCrop_whole (w : world) (l : loc) (im : image) :
  hp w !! l = Some im → wf_image im →
  ∃ l' w',
    ImageCrop AllocOK (Some l) 0 0 (width im) (height im) w = Some (Some l', w')
    ∧ hp w !! l' = None ∧ hp w' !! l' = Some im ∧ hp w' !! l = Some im.
Proof.
  intros Hl Hwf. pose proof Hwf as (Hw0 & Hh0 & _ & Hlen & _).
  destruct (ImageCrop_run w l im 0 0 (width im) (height im) Hl Hwf)
    as (l' & r & Hrun & Hfresh & Hwfr & Hrw & Hrh & Hrm & Hs); try lia.
  eexists _, _. split; [exact Hrun|]. split; [exact Hfresh|].
  cbn [hp set_hp]. rewrite lookup_insert_eq.
  split; [|rewrite lookup_insert_ne by congruence; exact Hl].
  f_equal. destruct Hwfr as (_ & _ & _ & Hrlen & _).
  apply image_ext; auto.
  unfold same_shape. repeat split; try congruence.
  apply Nat2Z.inj. rewrite Hlen, Hrlen. congruence.
Qed.

Lemma ImageCrop_whole_witness :
  ∃ l' w',
    ImageCrop AllocOK (Some 1%positive) 0 0 3 1 (single (mkImage 3 1 255 [1; 2; 3]))
    = Some (Some l', w')
    ∧ hp (single (mkImage 3 1 255 [1; 2; 3])) !! l' = None
    ∧ hp w' !! l' = Some (mkImage 3 1 255 [1; 2; 3])
    ∧ hp w' !! 1%positive = Some (mkImage 3 1 255 [1; 2; 3]).
Proof.
  apply (ImageCrop_whole (single (mkImage 3 1 255 [1; 2; 3])) 1%positive
           (mkImage 3 1 255 [1; 2; 3])).
  - reflexivity.
  - vm_compute. repeat split; try discriminate. repeat constructor; discriminate.
Defined.

(** X12: when the sums x + w and y + h are within [int], [ImageCrop]
    stops the program at an assertion if the rectangle does not lie within
    the image or has a negative side, whatever the allocator would do. *)
Theorem ImageCrop_invalid (a : alloc_outcome) (w : world) (l : loc) (im : image)
    (x y cw ch : Z) :
  hp w !! l = Some im →
  INT_MIN ≤ x + cw ≤ INT_MAX → INT_MIN ≤ y + ch ≤ INT_MAX →
  x < 0 ∨ y < 0 ∨ width im < x + cw ∨ height im < y + ch ∨ cw < 0 ∨ ch < 0 →
  ImageCrop a (Some l) x y cw ch w = None.
Proof.
  intros Hl Hxi Hyi Hbad. unfold ImageCrop.
  rewrite (bind_Some _ _ _ _ _ (deref_Some _ _ _ Hl)).
  rewrite (bind_Some _ _ _ _ _ (ImageValidRect_eq w l im x y cw ch Hl)).
  rewrite !wrap_int_small by assumption.
  destruct (((0 <=? x) && (x + cw <=? width im)) && ((0 <=? y) && (y + ch <=? height im)))
    eqn:Hrect; cbn [of_bool Z.eqb negb]; [|reflexivity].
  rewrite (bind_Some _ _ w tt w) by reflexivity.
  apply andb_true_iff in Hrect as [H1 H2].
  apply andb_true_iff in H1 as [? ?]. apply andb_true_iff in H2 as [? ?].
  rewrite bind_unfold. unfold ImageCreate. rewrite bind_unfold.
  destruct (Z.leb_spec 0 cw) as [Hc|Hc]; cbn [assert]; [|reflexivity].
  cbn [mret M_ret]. rewrite bind_unfold.
  destruct (Z.leb_spec 0 ch) as [Hd|Hd]; cbn [assert]; [lia|reflexivity].
Qed.

Lemma ImageCrop_invalid_witness :
  ImageCrop AllocOK (Some 1%positive) 2 0 2 1 (single (mkImage 3 1 255 [1; 2; 3])) = None.
Proof.
  apply (ImageCrop_invalid AllocOK (single (mkImage 3 1 255 [1; 2; 3])) 1%positive
           (mkImage 3 1 255 [1; 2; 3]) 2 0 2 1).
  - reflexivity.
  - unfold INT_MIN, INT_MAX. lia.
  - unfold INT_MIN, INT_MAX. lia.
  - cbn. lia.
Defined.

(** ** Pasting and cropping *)

(** Pasting an image [im2] into a different image [im1], at an anchor
    where it fits, leaves in the rectangle exactly the samples of [im2]
    and outside it the samples of [im1]; [im1] keeps its width, height and
    maxval and stays well-formed, and no other image changes. *)
Lemma ImagePaste_run (w : world) (l1 l2 : loc) (im1 im2 : image) (x y : Z) :
  hp w !! l1 = Some im1 → hp w !! l2 = Some im2 → l1 ≠ l2 →
  wf_image im1 → wf_image im2 →
  0 ≤ x ∧ x + width im2 ≤ width im1 → 0 ≤ y ∧ y + height im2 ≤ height im1 →
  ∃ im1',
    ImagePaste (Some l1) x y (Some l2) w = Some (tt, set_hp <[l1 := im1']> w)
    ∧ wf_image im1'
    ∧ width im1' = width im1 ∧ height im1' = height im1 ∧ maxval im1' = maxval im1
    ∧ (∀ i j, 0 ≤ i < width im2 → 0 ≤ j < height im2 →
              sample im1' (x + i) (y + j) = sample im2 i j)
    ∧ (∀ x' y', 0 ≤ x' < width im1 → 0 ≤ y' < height im1 →
                ¬ (x ≤ x' < x + width im2 ∧ y ≤ y' < y + height im2) →
                sample im1' x' y' = sample im1 x' y').
Proof.
  intros Hl1 Hl2 Hne Hwf1 Hwf2 Hx Hy.
  pose proof Hwf1 as (Hw1 & Hh1 & Hmax1 & Hlen1 & Hb1 & Hwi1 & Hhi1 & Hint1).
  pose proof Hwf2 as (Hw2 & Hh2 & Hmax2 & Hlen2 & Hb2 & Hwi2 & Hhi2 & Hint2).
  destruct (copy_loops w l2 l1 im2 im1 (width im2) (height im2)
              (λ i j, (i, j)) (λ i j, (x + i, y + j)))
    as (r & Hrun & Hsh & Hcopy & Hrest); auto; try congruence;
    try (intros; cbn; lia);
    try (intros i1 o1 i2 o2 _ _ _ _ E; inversion E; lia).
  cbn [fst snd] in Hrun, Hcopy.
  pose proof Hsh as (Hrw & Hrh & Hrm & Hrl).
  pose proof (same_shape_len _ _ Hsh Hlen1) as Hrlen.
  assert (∀ x' y', 0 ≤ x' < width im1 → 0 ≤ y' < height im1 →
                   ¬ (x ≤ x' < x + width im2 ∧ y ≤ y' < y + height im2) →
                   sample r x' y' = sample im1 x' y') as Hout.
  { intros x' y' Hx' Hy' Hnot. apply Hrest; auto.
    intros i o Hi Ho E. inversion E. lia. }
  exists r. split; [|split; [|split; [lia|split; [lia|split; [lia|split; [exact Hcopy|exact Hout]]]]]].
  - unfold ImagePaste.
    rewrite (bind_Some _ _ _ _ _ (deref_Some _ _ _ Hl1)).
    rewrite (bind_Some _ _ _ _ _ (deref_Some _ _ _ Hl2)).
    unfold ImageValidRect. rewrite !bind_unfold.
    rewrite (deref_Some _ _ _ Hl1). cbn [mret M_ret].
    rewrite valid_rect_true by (unfold INT_MIN; lia).
    cbn [of_bool Z.eqb negb assert]. exact Hrun.
  - unfold wf_image. rewrite Hrw, Hrh, Hrm. repeat split; try lia.
    apply samples_Forall; [lia|exact Hrlen|].
    intros x' y' s Hx' Hy' E. rewrite Hrw in Hx'. rewrite Hrh in Hy'.
    destruct (decide (x ≤ x' < x + width im2 ∧ y ≤ y' < y + height im2)) as [Hin|Hnot].
    + replace x' with (x + (x' - x)) in E by lia.
      replace y' with (y + (y' - y)) in E by lia.
      rewrite Hcopy in E by lia. exact (sample_byte im2 _ _ s Hb2 E).
    + rewrite Hout in E by auto. exact (sample_byte im1 _ _ s Hb1 E).
Qed.

(** X13: pasting an image [im2] into a different image [im1], at an anchor
    where it fits, leaves in the rectangle exactly the samples of [im2]
    and outside it the samples of [im1]; [im1] keeps its width, height and
    maxval and stays well-formed, and no other image changes. *)
Theorem ImagePaste_content (w : world) (l1 l2 : loc) (im1 im2 : image) (x y : Z) :
  hp w !! l1 = Some im1 → hp w !! l2 = Some im2 → l1 ≠ l2 →
  wf_image im1 → wf_image im2 →
  0 ≤ x ∧ x + width im2 ≤ width im1 → 0 ≤ y ∧ y + height im2 ≤ height im1 →
  ∃ im1',
    ImagePaste (Some l1) x y (Some l2) w = Some (tt, set_hp <[l1 := im1']> w)
    ∧ wf_image im1'
    ∧ width im1' = width im1 ∧ height im1' = height im1 ∧ maxval im1' = maxval im1
    ∧ (∀ i j, 0 ≤ i < width im2 → 0 ≤ j < height im2 →
              sample im1' (x + i) (y + j) = sample im2 i j)
    ∧ (∀ x' y', 0 ≤ x' < width im1 → 0 ≤ y' < height im1 →
                ¬ (x ≤ x' < x + width im2 ∧ y ≤ y' < y + height im2) →
                sample im1' x' y' = sample im1 x' y').
Proof. exact (ImagePaste_run w l1 l2 im1 im2 x y). Qed.

Lemma ImagePaste_content_witness :
  ∃ im1',
    ImagePaste (Some 1%positive) 1 0 (Some 2%positive)
      (mkWorld (<[2%positive := mkImage 1 1 255 [9]]>
                  {[ 1%positive := mkImage 2 1 255 [5; 6] ]}) "" ∅)
    = Some (tt, set_hp <[1%positive := im1']>
                  (mkWorld (<[2%positive := mkImage 1 1 255 [9]]>
                              {[ 1%positive := mkImage 2 1 255 [5; 6] ]}) "" ∅))
    ∧ wf_image im1'
    ∧ width im1' = 2 ∧ height im1' = 1 ∧ maxval im1' = 255
    ∧ (∀ i j, 0 ≤ i < 1 → 0 ≤ j < 1 →
              sample im1' (1 + i) (0 + j) = sample (mkImage 1 1 255 [9]) i j)
    ∧ (∀ x' y', 0 ≤ x' < 2 → 0 ≤ y' < 1 →
                ¬ (1 ≤ x' < 1 + 1 ∧ 0 ≤ y' < 0 + 1) →
                sample im1' x' y' = sample (mkImage 2 1 255 [5; 6]) x' y').
Proof.
  apply (ImagePaste_content
           (mkWorld (<[2%positive := mkImage 1 1 255 [9]]>
                       {[ 1%positive := mkImage 2 1 255 [5; 6] ]}) "" ∅)
           1%positive 2%positive (mkImage 2 1 255 [5; 6]) (mkImage 1 1 255 [9]) 1 0).
  - reflexivity.
  - reflexivity.
  - discriminate.
  - vm_compute. repeat split; try discriminate. repeat constructor; discriminate.
  - vm_compute. repeat split; try discriminate. repeat constructor; discriminate.
  - cbn. lia.
  - cbn. lia.
Defined.

(** X14: pasting [im2] into [im1] where it fits and then cropping the
    same rectangle from [im1] gives an image with the width, the height
    and the pixels of [im2]; its maxval is that of [im1]. *)
Theorem ImagePaste_ImageCrop (w : world) (l1 l2 : loc) (im1 im2 : image) (x y : Z) :
  hp w !! l1 = Some im1 → hp w !! l2 = Some im2 → l1 ≠ l2 →
  wf_image im1 → wf_image im2 →
  0 ≤ x ∧ x + width im2 ≤ width im1 → 0 ≤ y ∧ y + height im2 ≤ height im1 →
  ∃ w1 l' w2,
    ImagePaste (Some l1) x y (Some l2) w = Some (tt, w1)
    ∧ ImageCrop AllocOK (Some l1) x y (width im2) (height im2) w1 = Some (Some l', w2)
    ∧ hp w2 !! l'
      = Some (mkImage (width im2) (height im2) (maxval im1) (pixel im2)).
Proof.
  intros Hl1 Hl2 Hne Hwf1 Hwf2 Hx Hy.
  destruct (ImagePaste_run w l1 l2 im1 im2 x y Hl1 Hl2 Hne Hwf1 Hwf2 Hx Hy)
    as (im1' & Hpaste & Hwf1' & Hw1' & Hh1' & Hm1' & Hin & _).
  pose proof Hwf2 as (Hw2 & Hh2 & _ & Hlen2 & _).
  destruct (ImageCrop_run (set_hp <[l1 := im1']> w) l1 im1' x y (width im2) (height im2)
              (lookup_insert_eq _ _ _) Hwf1')
    as (l' & r & Hcrop & _ & Hwfr & Hrw & Hrh & Hrm & Hs); try lia.
  eexists _, _, _. split; [exact Hpaste|]. split; [exact Hcrop|].
  cbn [hp set_hp]. rewrite lookup_insert_eq. f_equal.
  destruct Hwfr as (_ & _ & _ & Hrlen & _).
  apply image_ext; cbn; auto.
  - unfold same_shape. cbn. repeat split; try congruence.
    apply Nat2Z.inj. rewrite Hlen2, Hrlen. congruence.
  - intros i j Hi Hj. rewrite (Hs i j Hi Hj). apply Hin; auto.
Qed.

Lemma ImagePaste_ImageCrop_witness :
  ∃ w1 l' w2,
    ImagePaste (Some 1%positive) 1 0 (Some 2%positive)
      (mkWorld (<[2%positive := mkImage 1 1 100 [9]]>
                  {[ 1%positive := mkImage 2 1 255 [5; 6] ]}) "" ∅) = Some (tt, w1)
    ∧ ImageCrop AllocOK (Some 1%positive) 1 0 1 1 w1 = Some (Some l', w2)
    ∧ hp w2 !! l' = Some (mkImage 1 1 255 [9]).
Proof.
  apply (ImagePaste_ImageCrop
           (mkWorld (<[2%positive := mkImage 1 1 100 [9]]>
                       {[ 1%positive := mkImage 2 1 255 [5; 6] ]}) "" ∅)
           1%positive 2%positive (mkImage 2 1 255 [5; 6]) (mkImage 1 1 100 [9]) 1 0).
  - reflexivity.
  - reflexivity.
  - discriminate.
  - vm_compute. repeat split; try discriminate. repeat constructor; discriminate.
  - vm_compute. repeat split; try discriminate. repeat constructor; discriminate.
  - cbn. lia.
  - cbn. lia.
Defined.

(** ** Blending *)

(** The product of 0 and the double of a byte is 0 (checked on every
    byte). *)
Lemma zero_times_byte p : 0 ≤ p ≤ 255 → (0 * int_to_double p)%float = 0%float.
Proof.
  intros Hp.
  assert (Forall (λ p, (0 * int_to_double p)%float = 0%float) (seqZ 0 256)) as Hall.
  { let l := eval vm_compute in (seqZ 0 256) in change (seqZ 0 256) with l.
    repeat (constructor; [reflexivity|]). constructor. }
  rewrite Forall_forall in Hall. apply Hall. apply elem_of_seqZ. lia.
Qed.

(** With alpha 1 the blend of two bytes is the first, with alpha 0 the
    second (checked on every byte). *)
Lemma blend_value_one p1 p2 :
  0 ≤ p1 ≤ 255 → 0 ≤ p2 ≤ 255 → blend_value 1 p1 p2 = Some p1.
Proof.
  intros H1 H2. unfold blend_value.
  change (1.0 - 1)%float with 0%float. rewrite (zero_times_byte p2 H2).
  assert (all_bytes (λ p, match double_to_uint8 (1 * int_to_double p + 0)%float with
                          | Some v => v =? p
                          | None => false
                          end) = true) as Hall by (vm_compute; reflexivity).
  pose proof (all_bytes_spec _ Hall p1 H1) as H. cbv beta in H.
  destruct (double_to_uint8 _) as [v|]; [|discriminate].
  apply Z.eqb_eq in H. congruence.
Qed.

Lemma blend_value_zero p1 p2 :
  0 ≤ p1 ≤ 255 → 0 ≤ p2 ≤ 255 → blend_value 0 p1 p2 = Some p2.
Proof.
  intros H1 H2. unfold blend_value.
  change (1.0 - 0)%float with 1%float. rewrite (zero_times_byte p1 H1).
  assert (all_bytes (λ p, match double_to_uint8 (0 + 1 * int_to_double p)%float with
                          | Some v => v =? p
                          | None => false
                          end) = true) as Hall by (vm_compute; reflexivity).
  pose proof (all_bytes_spec _ Hall p2 H2) as H. cbv beta in H.
  destruct (double_to_uint8 _) as [v|]; [|discriminate].
  apply Z.eqb_eq in H. congruence.
Qed.

(** Blending an image [im2] into a different image [im1], at an
    anchor where it fits and for a factor with which the blend of every
    two samples that meet fits a byte, replaces each sample p1 of the
    rectangle by [blend_value alpha p1 p2], p2 the sample of [im2] placed
    there, and leaves the samples outside the rectangle, the width, the height and
    the maxval of [im1] and every other image as they were. *)
Lemma ImageBlend_run (w : world) (l1 l2 : loc) (im1 im2 : image) (x y : Z)
    (alpha : float) :
  hp w !! l1 = Some im1 → hp w !! l2 = Some im2 → l1 ≠ l2 →
  wf_image im1 → wf_image im2 →
  0 ≤ x ∧ x + width im2 ≤ width im1 → 0 ≤ y ∧ y + height im2 ≤ height im1 →
  (∀ i j p1 p2, 0 ≤ i < width im2 → 0 ≤ j < height im2 →
                sample im1 (x + i) (y + j) = Some p1 → sample im2 i j = Some p2 →
                is_Some (blend_value alpha p1 p2)) →
  ∃ im1',
    ImageBlend (Some l1) x y (Some l2) alpha w = Some (tt, set_hp <[l1 := im1']> w)
    ∧ same_shape im1' im1
    ∧ (∀ i j, 0 ≤ i < width im2 → 0 ≤ j < height im2 →
              sample im1' (x + i) (y + j)
              = (p1 ← sample im1 (x + i) (y + j);
                 p2 ← sample im2 i j;
                 blend_value alpha p1 p2))
    ∧ (∀ x' y', 0 ≤ x' < width im1 → 0 ≤ y' < height im1 →
                ¬ (x ≤ x' < x + width im2 ∧ y ≤ y' < y + height im2) →
                sample im1' x' y' = sample im1 x' y').
Proof.
  intros Hl1 Hl2 Hne Hwf1 Hwf2 Hx Hy Hdef.
  pose proof Hwf1 as (Hw1 & Hh1 & Hmax1 & Hlen1 & Hb1 & Hwi1 & Hhi1 & Hint1).
  pose proof Hwf2 as (Hw2 & Hh2 & Hmax2 & Hlen2 & Hb2 & Hwi2 & Hhi2 & Hint2).
  set (dst := λ i j : Z, (x + i, y + j)).
  set (val := λ i j : Z, p1 ← sample im1 (x + i) (y + j);
                         p2 ← sample im2 i j;
                         blend_value alpha p1 p2).
  assert (∀ i o, 0 ≤ i < width im2 → 0 ≤ o < height im2 →
                 0 ≤ (dst i o).1 < width im1 ∧ 0 ≤ (dst i o).2 < height im1) as Hvalid
    by (intros; cbn; lia).
  assert (∀ i1 o1 i2 o2, 0 ≤ i1 < width im2 → 0 ≤ o1 < height im2 →
                         0 ≤ i2 < width im2 → 0 ≤ o2 < height im2 →
                         dst i1 o1 = dst i2 o2 → i1 = i2 ∧ o1 = o2) as Hinj
    by (intros ? ? ? ? _ _ _ _ E; inversion E; lia).
  destruct (grid_loops (grid_inv w l1 im1 (width im2) (height im2) dst val)
              (λ j i,
                 pixel1 ← ImageGetPixel (Some l1) (x + i) (y + j);
                 pixel2 ← ImageGetPixel (Some l2) i j;
                 blendedPixel ← defined (double_to_uint8
                                  (alpha * int_to_double pixel1
                                   + (1.0 - alpha) * int_to_double pixel2)%float);
                 ImageSetPixel (Some l1) (x + i) (y + j) blendedPixel)
              (width im2) (height im2) w Hw2 Hh2) as (w' & Hrun & Hend).
  - apply grid_inv_init; auto.
  - intros o i w1 Ho Hi Hinv.
    destruct (grid_inv_current w l1 im1 _ _ dst val Hlen1 Hvalid Hinj o i w1 Hinv)
      as (cur & Hcur & Hsh & Hlenc & Hother & Hold).
    destruct (sample_is_Some im1 Hlen1 (x + i) (y + o)) as [p1 Hp1]; [lia|lia|].
    destruct (sample_is_Some im2 Hlen2 i o Hi Ho) as [p2 Hp2].
    assert (sample cur (x + i) (y + o) = Some p1) as Hp1'.
    { rewrite <- Hp1. apply (Hold i o Hi Ho). unfold before. lia. }
    assert (hp w1 !! l2 = Some im2) as Hl2' by (rewrite Hother; auto).
    destruct Hsh as (Hcw & Hch & _).
    rewrite (bind_Some _ _ w1 p1 w1)
      by (apply (ImageGetPixel_eq w1 l1 cur Hcur); auto; lia).
    rewrite (bind_Some _ _ w1 p2 w1)
      by (apply (ImageGetPixel_eq w1 l2 im2 Hl2'); auto).
    destruct (Hdef i o p1 p2 Hi Ho Hp1 Hp2) as [v Hv].
    unfold blend_value in Hv. rewrite Hv. cbn [defined].
    rewrite (bind_Some _ _ w1 v w1) by reflexivity.
    rewrite (ImageSetPixel_eq w1 l1 cur Hcur Hlenc) by lia.
    eexists. split; [reflexivity|].
    apply (grid_inv_write w l1 im1 _ _ dst val Hlen1 Hvalid Hinj o i w1 cur v); auto.
    unfold val. rewrite Hp1, Hp2. exact Hv.
  - intros o w1 _. apply grid_inv_row.
  - destruct (grid_inv_end w l1 im1 _ _ dst val w' Hend)
      as (im' & -> & Hsh & Hdone & Hrest).
    exists im'. split; [|split; [exact Hsh|split]].
    + unfold ImageBlend.
      rewrite (bind_Some _ _ _ _ _ (deref_Some _ _ _ Hl1)).
      rewrite (bind_Some _ _ _ _ _ (deref_Some _ _ _ Hl2)).
      rewrite (bind_Some _ _ _ _ _ (ImageValidRect_eq w l1 im1 x y _ _ Hl1)).
      rewrite valid_rect_true by (unfold INT_MIN; lia). cbn [of_bool Z.eqb negb].
      rewrite (bind_Some _ _ w tt w) by reflexivity. exact Hrun.
    + intros i j Hi Hj. apply (Hdone i j Hi Hj).
    + intros x' y' Hx' Hy' Hout. apply Hrest; auto.
      intros i o Hi Ho E. inversion E. lia.
Qed.

(** X15: blending an image [im2] into a different image [im1], at an
    anchor where it fits and for a factor with which the blend of every
    two samples that meet fits a byte, replaces each sample p1 of the
    rectangle by [blend_value alpha p1 p2], p2 the sample of [im2] placed
    there, and leaves the samples outside the rectangle, the width, the height and
    the maxval of [im1] and every other image as they were. *)
Theorem ImageBlend_spec (w : world) (l1 l2 : loc) (im1 im2 : image) (x y : Z)
    (alpha : float) :
  hp w !! l1 = Some im1 → hp w !! l2 = Some im2 → l1 ≠ l2 →
  wf_image im1 → wf_image im2 →
  0 ≤ x ∧ x + width im2 ≤ width im1 → 0 ≤ y ∧ y + height im2 ≤ height im1 →
  (∀ i j p1 p2, 0 ≤ i < width im2 → 0 ≤ j < height im2 →
                sample im1 (x + i) (y + j) = Some p1 → sample im2 i j = Some p2 →
                is_Some (blend_value alpha p1 p2)) →
  ∃ im1',
    ImageBlend (Some l1) x y (Some l2) alpha w = Some (tt, set_hp <[l1 := im1']> w)
    ∧ same_shape im1' im1
    ∧ (∀ i j, 0 ≤ i < width im2 → 0 ≤ j < height im2 →
              sample im1' (x + i) (y + j)
              = (p1 ← sample im1 (x + i) (y + j);
                 p2 ← sample im2 i j;
                 blend_value alpha p1 p2))
    ∧ (∀ x' y', 0 ≤ x' < width im1 → 0 ≤ y' < height im1 →
                ¬ (x ≤ x' < x + width im2 ∧ y ≤ y' < y + height im2) →
                sample im1' x' y' = sample im1 x' y').
Proof. exact (ImageBlend_run w l1 l2 im1 im2 x y alpha). Qed.

Lemma ImageBlend_spec_witness :
  ∃ im1',
    ImageBlend (Some 1%positive) 1 0 (Some 2%positive) 0.5%float
      (mkWorld (<[2%positive := mkImage 1 1 255 [9]]>
                  {[ 1%positive := mkImage 2 1 255 [5; 6] ]}) "" ∅)
    = Some (tt, set_hp <[1%positive := im1']>
                  (mkWorld (<[2%positive := mkImage 1 1 255 [9]]>
                              {[ 1%positive := mkImage 2 1 255 [5; 6] ]}) "" ∅))
    ∧ same_shape im1' (mkImage 2 1 255 [5; 6])
    ∧ (∀ i j, 0 ≤ i < 1 → 0 ≤ j < 1 →
              sample im1' (1 + i) (0 + j)
              = (p1 ← sample (mkImage 2 1 255 [5; 6]) (1 + i) (0 + j);
                 p2 ← sample (mkImage 1 1 255 [9]) i j;
                 blend_value 0.5 p1 p2))
    ∧ (∀ x' y', 0 ≤ x' < 2 → 0 ≤ y' < 1 →
                ¬ (1 ≤ x' < 1 + 1 ∧ 0 ≤ y' < 0 + 1) →
                sample im1' x' y' = sample (mkImage 2 1 255 [5; 6]) x' y').
Proof.
  apply (ImageBlend_spec
           (mkWorld (<[2%positive := mkImage 1 1 255 [9]]>
                       {[ 1%positive := mkImage 2 1 255 [5; 6] ]}) "" ∅)
           1%positive 2%positive (mkImage 2 1 255 [5; 6]) (mkImage 1 1 255 [9]) 1 0
           0.5%float).
  - reflexivity.
  - reflexivity.
  - discriminate.
  - vm_compute. repeat split; try discriminate. repeat constructor; discriminate.
  - vm_compute. repeat split; try discriminate. repeat constructor; discriminate.
  - cbn. lia.
  - cbn. lia.
  - intros i j p1 p2 Hi Hj Hp1 Hp2. cbn [width height] in Hi, Hj.
    assert (i = 0) as -> by lia. assert (j = 0) as -> by lia.
    vm_compute in Hp1, Hp2. injection Hp1 as <-. injection Hp2 as <-.
    vm_compute. eauto.
Defined.

(** X16: blending with alpha 1 leaves the destination, and the whole
    store, as it was. *)
Theorem ImageBlend_one (w : world) (l1 l2 : loc) (im1 im2 : image) (x y : Z) :
  hp w !! l1 = Some im1 → hp w !! l2 = Some im2 → l1 ≠ l2 →
  wf_image im1 → wf_image im2 →
  0 ≤ x ∧ x + width im2 ≤ width im1 → 0 ≤ y ∧ y + height im2 ≤ height im1 →
  ImageBlend (Some l1) x y (Some l2) 1 w = Some (tt, w).
Proof.
  intros Hl1 Hl2 Hne Hwf1 Hwf2 Hx Hy.
  destruct (ImageBlend_run w l1 l2 im1 im2 x y 1 Hl1 Hl2 Hne Hwf1 Hwf2 Hx Hy)
    as (im1' & Hrun & Hsh & Hin & Hout).
  { intros i j p1 p2 _ _ Hp1 Hp2.
    rewrite (blend_value_one p1 p2
               (sample_byte im1 _ _ p1 (proj1 (proj2 (proj2 (proj2 (proj2 Hwf1))))) Hp1)
               (sample_byte im2 _ _ p2 (proj1 (proj2 (proj2 (proj2 (proj2 Hwf2))))) Hp2)).
    eauto. }
  rewrite Hrun. f_equal. f_equal.
  pose proof Hwf1 as (Hw1 & Hh1 & _ & Hlen1 & Hb1 & Hwi1 & Hhi1 & Hint1).
  pose proof Hwf2 as (Hw2 & Hh2 & _ & Hlen2 & Hb2 & Hwi2 & Hhi2 & Hint2).
  assert (im1' = im1) as ->; [|apply set_hp_id; exact Hl1].
  apply image_ext; [exact Hsh|lia|exact Hlen1|]. intros x' y' Hx' Hy'.
  destruct (decide (x ≤ x' < x + width im2 ∧ y ≤ y' < y + height im2)) as [Hr|Hr];
    [|apply Hout; auto].
  replace x' with (x + (x' - x)) by lia. replace y' with (y + (y' - y)) by lia.
  rewrite Hin by lia.
  destruct (sample_is_Some im1 Hlen1 (x + (x' - x)) (y + (y' - y))) as [p1 Hp1]; [lia|lia|].
  destruct (sample_is_Some im2 Hlen2 (x' - x) (y' - y)) as [p2 Hp2]; [lia|lia|].
  rewrite Hp1, Hp2. cbn [mbind option_bind].
  apply blend_value_one;
    [exact (sample_byte im1 _ _ p1 Hb1 Hp1)|exact (sample_byte im2 _ _ p2 Hb2 Hp2)].
Qed.

Lemma ImageBlend_one_witness :
  ImageBlend (Some 1%positive) 1 0 (Some 2%positive) 1
    (mkWorld (<[2%positive := mkImage 1 1 255 [9]]>
                {[ 1%positive := mkImage 2 1 255 [5; 6] ]}) "" ∅)
  = Some (tt, mkWorld (<[2%positive := mkImage 1 1 255 [9]]>
                         {[ 1%positive := mkImage 2 1 255 [5; 6] ]}) "" ∅).
Proof.
  apply (ImageBlend_one
           (mkWorld (<[2%positive := mkImage 1 1 255 [9]]>
                       {[ 1%positive := mkImage 2 1 255 [5; 6] ]}) "" ∅)
           1%positive 2%positive (mkImage 2 1 255 [5; 6]) (mkImage 1 1 255 [9]) 1 0).
  - reflexivity.
  - reflexivity.
  - discriminate.
  - vm_compute. repeat split; try discriminate. repeat constructor; discriminate.
  - vm_compute. repeat split; try discriminate. repeat constructor; discriminate.
  - cbn. lia.
  - cbn. lia.
Defined.

(** X17: blending with alpha 0 does what pasting does: both leave the
    same store. *)
Theorem ImageBlend_zero (w : world) (l1 l2 : loc) (im1 im2 : image) (x y : Z) :
  hp w !! l1 = Some im1 → hp w !! l2 = Some im2 → l1 ≠ l2 →
  wf_image im1 → wf_image im2 →
  0 ≤ x ∧ x + width im2 ≤ width im1 → 0 ≤ y ∧ y + height im2 ≤ height im1 →
  ∃ w', ImageBlend (Some l1) x y (Some l2) 0 w = Some (tt, w')
        ∧ ImagePaste (Some l1) x y (Some l2) w = Some (tt, w').
Proof.
  intros Hl1 Hl2 Hne Hwf1 Hwf2 Hx Hy.
  destruct (ImageBlend_run w l1 l2 im1 im2 x y 0 Hl1 Hl2 Hne Hwf1 Hwf2 Hx Hy)
    as (imb & Hblend & Hshb & Hinb & Houtb).
  { intros i j p1 p2 _ _ Hp1 Hp2.
    rewrite (blend_value_zero p1 p2
               (sample_byte im1 _ _ p1 (proj1 (proj2 (proj2 (proj2 (proj2 Hwf1))))) Hp1)
               (sample_byte im2 _ _ p2 (proj1 (proj2 (proj2 (proj2 (proj2 Hwf2))))) Hp2)).
    eauto. }
  destruct (ImagePaste_run w l1 l2 im1 im2 x y Hl1 Hl2 Hne Hwf1 Hwf2 Hx Hy)
    as (imp & Hpaste & Hwfp & Hwp & Hhp & Hmp & Hinp & Houtp).
  exists (set_hp <[l1 := imb]> w). split; [exact Hblend|].
  rewrite Hpaste. f_equal. f_equal.
  pose proof Hwf1 as (Hw1 & Hh1 & _ & Hlen1 & Hb1 & Hwi1 & Hhi1 & Hint1).
  pose proof Hwf2 as (Hw2 & Hh2 & _ & Hlen2 & Hb2 & Hwi2 & Hhi2 & Hint2).
  destruct Hwfp as (_ & _ & _ & Hlenp & _).
  destruct Hshb as (Hwb & Hhb & Hmb & Hlb).
  assert (imp = imb) as ->; [|reflexivity].
  apply image_ext; try lia.
  - unfold same_shape. repeat split; try congruence.
    apply Nat2Z.inj. rewrite Hlenp. rewrite Hlb, Hlen1. congruence.
  - intros x' y' Hx' Hy'. rewrite Hwb in Hx'. rewrite Hhb in Hy'.
    destruct (decide (x ≤ x' < x + width im2 ∧ y ≤ y' < y + height im2)) as [Hr|Hr];
      [|rewrite Houtp, Houtb by auto; reflexivity].
    replace x' with (x + (x' - x)) by lia. replace y' with (y + (y' - y)) by lia.
    rewrite Hinp, Hinb by lia.
    destruct (sample_is_Some im1 Hlen1 (x + (x' - x)) (y + (y' - y))) as [p1 Hp1];
      [lia|lia|].
    destruct (sample_is_Some im2 Hlen2 (x' - x) (y' - y)) as [p2 Hp2]; [lia|lia|].
    rewrite Hp1, Hp2. cbn [mbind option_bind]. symmetry.
    apply blend_value_zero;
      [exact (sample_byte im1 _ _ p1 Hb1 Hp1)|exact (sample_byte im2 _ _ p2 Hb2 Hp2)].
Qed.

Lemma ImageBlend_zero_witness :
  ∃ w', ImageBlend (Some 1%positive) 1 0 (Some 2%positive) 0
          (mkWorld (<[2%positive := mkImage 1 1 255 [9]]>
                      {[ 1%positive := mkImage 2 1 255 [5; 6] ]}) "" ∅) = Some (tt, w')
        ∧ ImagePaste (Some 1%positive) 1 0 (Some 2%positive)
            (mkWorld (<[2%positive := mkImage 1 1 255 [9]]>
                        {[ 1%positive := mkImage 2 1 255 [5; 6] ]}) "" ∅) = Some (tt, w').
Proof.
  apply (ImageBlend_zero
           (mkWorld (<[2%positive := mkImage 1 1 255 [9]]>
                       {[ 1%positive := mkImage 2 1 255 [5; 6] ]}) "" ∅)
           1%positive 2%positive (mkImage 2 1 255 [5; 6]) (mkImage 1 1 255 [9]) 1 0).
  - reflexivity.
  - reflexivity.
  - discriminate.
  - vm_compute. repeat split; try discriminate. repeat constructor; discriminate.
  - vm_compute. repeat split; try discriminate. repeat constructor; discriminate.
  - cbn. lia.
  - cbn. lia.
Defined.

(** ** Matching and locating *)

(** A loop of reads that may return: either every turn falls through, or
    some turn is the first to return and the loop returns its value. *)
Lemma for_ret_first {R} (body : Z → M (option R)) (w : world) (n : nat) :
  ∀ i,
    (∀ j, i ≤ j < i + Z.of_nat n → ∃ r, body j w = Some (r, w)) →
    (for_ret n i body w = Some (None, w)
     ∧ ∀ j, i ≤ j < i + Z.of_nat n → body j w = Some (None, w))
    ∨ (∃ j v, i ≤ j < i + Z.of_nat n
              ∧ body j w = Some (Some v, w)
              ∧ (∀ j', i ≤ j' < j → body j' w = Some (None, w))
              ∧ for_ret n i body w = Some (Some v, w)).
Proof.
  induction n as [|n IH]; intros i Htotal.
  - left. split; [reflexivity|]. intros j Hj. lia.
  - destruct (Htotal i ltac:(lia)) as [[v|] Hb].
    + right. exists i, v. split; [lia|]. split; [exact Hb|]. split; [intros; lia|].
      cbn [for_ret]. rewrite (bind_Some _ _ _ _ _ Hb). reflexivity.
    + destruct (IH (i + 1)) as [[Hrun Hall]|(j & v & Hj & Hbj & Hbefore & Hrun)].
      { intros j Hj. apply Htotal. lia. }
      * left. split.
        -- cbn [for_ret]. rewrite (bind_Some _ _ _ _ _ Hb). exact Hrun.
        -- intros j Hj. destruct (decide (j = i)) as [->|]; [exact Hb|apply Hall; lia].
      * right. exists j, v. split; [lia|]. split; [exact Hbj|]. split.
        -- intros j' Hj'. destruct (decide (j' = i)) as [->|]; [exact Hb|].
           apply Hbefore. lia.
        -- cbn [for_ret]. rewrite (bind_Some _ _ _ _ _ Hb). exact Hrun.
Qed.

Lemma for_range_ret_first {R} (body : Z → M (option R)) (w : world) (hi : Z) :
  (∀ j, 0 ≤ j < hi → ∃ r, body j w = Some (r, w)) →
  (for_range_ret 0 hi body w = Some (None, w)
   ∧ ∀ j, 0 ≤ j < hi → body j w = Some (None, w))
  ∨ (∃ j v, 0 ≤ j < hi
            ∧ body j w = Some (Some v, w)
            ∧ (∀ j', 0 ≤ j' < j → body j' w = Some (None, w))
            ∧ for_range_ret 0 hi body w = Some (Some v, w)).
Proof.
  intros Htotal. unfold for_range_ret.
  destruct (for_ret_first body w (Z.to_nat (hi - 0)) 0)
    as [[Hrun Hall]|(j & v & Hj & Hbj & Hbefore & Hrun)].
  - intros j Hj. apply Htotal. lia.
  - left. split; [exact Hrun|]. intros j Hj. apply Hall. lia.
  - right. exists j, v. split; [lia|]. auto.
Qed.

Section Match.
Variables (w : world) (l1 l2 : loc) (im1 im2 : image) (x y : Z).
Hypothesis Hl1 : hp w !! l1 = Some im1.
Hypothesis Hl2 : hp w !! l2 = Some im2.
Hypothesis Hlen1 : Z.of_nat (length (pixel im1)) = width im1 * height im1.
Hypothesis Hlen2 : Z.of_nat (length (pixel im2)) = width im2 * height im2.
Hypothesis Hx : 0 ≤ x ∧ x + width im2 ≤ width im1.
Hypothesis Hy : 0 ≤ y ∧ y + height im2 ≤ height im1.

(** The comparison of one pixel. *)
Lemma match_pixel i j :
  0 ≤ i < width im2 → 0 ≤ j < height im2 →
  (pixel1 ← ImageGetPixel (Some l1) (x + i) (y + j);
   pixel2 ← ImageGetPixel (Some l2) i j;
   if negb (pixel1 =? pixel2) then mret (Some 0) else mret None) w
  = Some (if decide (sample im1 (x + i) (y + j) = sample im2 i j) then None else Some 0, w).
Proof.
  intros Hi Hj.
  destruct (sample_is_Some im1 Hlen1 (x + i) (y + j)) as [p1 Hp1]; [lia|lia|].
  destruct (sample_is_Some im2 Hlen2 i j Hi Hj) as [p2 Hp2].
  rewrite (bind_Some _ _ w p1 w)
    by (apply (ImageGetPixel_eq w l1 im1 Hl1); auto; lia).
  rewrite (bind_Some _ _ w p2 w) by (apply (ImageGetPixel_eq w l2 im2 Hl2); auto).
  rewrite Hp1, Hp2.
  destruct (Z.eqb_spec p1 p2) as [->|Hne]; cbn [negb].
  - rewrite decide_True by reflexivity. reflexivity.
  - rewrite decide_False by congruence. reflexivity.
Qed.

(** The comparison of one row. *)
Lemma match_row j :
  0 ≤ j < height im2 →
  ∃ r, for_range_ret 0 (width im2) (λ i,
         pixel1 ← ImageGetPixel (Some l1) (x + i) (y + j);
         pixel2 ← ImageGetPixel (Some l2) i j;
         if negb (pixel1 =? pixel2) then mret (Some 0) else mret None) w = Some (r, w)
       ∧ ((r = None ∧ ∀ i, 0 ≤ i < width im2 →
                           sample im1 (x + i) (y + j) = sample im2 i j)
          ∨ (r = Some 0 ∧ ∃ i, 0 ≤ i < width im2
                               ∧ sample im1 (x + i) (y + j) ≠ sample im2 i j)).
Proof.
  intros Hj.
  match goal with
  | |- ∃ r, for_range_ret 0 _ ?body w = _ ∧ _ =>
      destruct (for_range_ret_first body w (width im2))
        as [[Hrun Hall]|(i & v & Hi & Hbi & _ & Hrun)]
  end.
  - intros i Hi. rewrite (match_pixel i j Hi Hj). eauto.
  - exists None. split; [exact Hrun|]. left. split; [reflexivity|].
    intros i Hi. specialize (Hall i Hi). rewrite (match_pixel i j Hi Hj) in Hall.
    destruct (decide (sample im1 (x + i) (y + j) = sample im2 i j)); congruence.
  - rewrite (match_pixel i j Hi Hj) in Hbi.
    destruct (decide (sample im1 (x + i) (y + j) = sample im2 i j)) as [|Hne];
      [discriminate|].
    injection Hbi as <-. exists (Some 0). split; [exact Hrun|]. right. eauto.
Qed.

Lemma match_rows :
  ∃ r, for_range_ret 0 (height im2) (λ j,
         for_range_ret 0 (width im2) (λ i,
           pixel1 ← ImageGetPixel (Some l1) (x + i) (y + j);
           pixel2 ← ImageGetPixel (Some l2) i j;
           if negb (pixel1 =? pixel2) then mret (Some 0) else mret None)) w
       = Some (r, w)
       ∧ ((r = None ∧ agree im1 im2 x y) ∨ (r = Some 0 ∧ ¬ agree im1 im2 x y)).
Proof.
  match goal with
  | |- ∃ r, for_range_ret 0 _ ?body w = _ ∧ _ =>
      destruct (for_range_ret_first body w (height im2))
        as [[Hrun Hall]|(j & v & Hj & Hbj & _ & Hrun)]
  end.
  - intros j Hj. destruct (match_row j Hj) as (r & Hr & _). eauto.
  - exists None. split; [exact Hrun|]. left. split; [reflexivity|].
    intros i j Hi Hj. specialize (Hall j Hj). cbv beta in Hall.
    destruct (match_row j Hj) as (r & Hr & [[_ Hrow]|[-> _]]); [auto|congruence].
  - cbv beta in Hbj.
    destruct (match_row j Hj) as (r & Hr & [[-> _]|[-> (i & Hi & Hne)]]); [congruence|].
    assert (v = 0) as -> by congruence.
    exists (Some 0). split; [exact Hrun|]. right. split; [reflexivity|].
    intros Hagree. apply Hne. apply Hagree; auto.
Qed.
End Match.

(** At a valid position where the second image fits within the
    first, [ImageMatchSubImage] changes nothing and answers 1 when every
    sample of the second image equals the sample of the first one under it,
    and 0 otherwise. *)
Lemma ImageMatchSubImage_run (w : world) (l1 l2 : loc) (im1 im2 : image) (x y : Z) :
  hp w !! l1 = Some im1 → hp w !! l2 = Some im2 →
  Z.of_nat (length (pixel im1)) = width im1 * height im1 →
  Z.of_nat (length (pixel im2)) = width im2 * height im2 →
  0 ≤ x < width im1 → 0 ≤ y < height im1 →
  x + width im2 ≤ width im1 → y + height im2 ≤ height im1 →
  ∃ r, ImageMatchSubImage (Some l1) x y (Some l2) w = Some (r, w)
       ∧ ((r = 1 ∧ agree im1 im2 x y) ∨ (r = 0 ∧ ¬ agree im1 im2 x y)).
Proof.
  intros Hl1 Hl2 Hlen1 Hlen2 Hx Hy Hfx Hfy.
  destruct (match_rows w l1 l2 im1 im2 x y Hl1 Hl2 Hlen1 Hlen2)
    as (r & Hrun & Hr); [lia|lia|].
  unfold ImageMatchSubImage.
  rewrite (bind_Some _ _ _ _ _ (deref_Some _ _ _ Hl1)).
  rewrite (bind_Some _ _ _ _ _ (deref_Some _ _ _ Hl2)).
  rewrite (bind_Some _ _ _ _ _ (ImageValidPos_eq w l1 im1 Hl1 x y)).
  rewrite (valid_pos_true im1 x y Hx Hy). cbn [of_bool Z.eqb negb].
  rewrite (bind_Some _ _ w tt w) by reflexivity.
  rewrite (bind_Some _ _ _ _ _ Hrun).
  destruct Hr as [[-> Ha]|[-> Ha]].
  - exists 1. split; [reflexivity|]. auto.
  - exists 0. split; [reflexivity|]. auto.
Qed.

(** X18: at a valid position where the second image fits within the
    first, [ImageMatchSubImage] changes nothing and answers 1 when every
    sample of the second image equals the sample of the first one under it,
    and 0 otherwise. *)
Theorem ImageMatchSubImage_spec (w : world) (l1 l2 : loc) (im1 im2 : image) (x y : Z) :
  hp w !! l1 = Some im1 → hp w !! l2 = Some im2 →
  Z.of_nat (length (pixel im1)) = width im1 * height im1 →
  Z.of_nat (length (pixel im2)) = width im2 * height im2 →
  0 ≤ x < width im1 → 0 ≤ y < height im1 →
  x + width im2 ≤ width im1 → y + height im2 ≤ height im1 →
  ∃ r, ImageMatchSubImage (Some l1) x y (Some l2) w = Some (r, w)
       ∧ ((r = 1 ∧ agree im1 im2 x y) ∨ (r = 0 ∧ ¬ agree im1 im2 x y)).
Proof. exact (ImageMatchSubImage_run w l1 l2 im1 im2 x y). Qed.

Lemma ImageMatchSubImage_spec_witness :
  ∃ r, ImageMatchSubImage (Some 1%positive) 1 0 (Some 2%positive)
         (mkWorld (<[2%positive := mkImage 1 1 255 [6]]>
                     {[ 1%positive := mkImage 2 1 255 [5; 6] ]}) "" ∅)
       = Some (r, mkWorld (<[2%positive := mkImage 1 1 255 [6]]>
                             {[ 1%positive := mkImage 2 1 255 [5; 6] ]}) "" ∅)
       ∧ ((r = 1 ∧ agree (mkImage 2 1 255 [5; 6]) (mkImage 1 1 255 [6]) 1 0)
          ∨ (r = 0 ∧ ¬ agree (mkImage 2 1 255 [5; 6]) (mkImage 1 1 255 [6]) 1 0)).
Proof.
  apply (ImageMatchSubImage_spec
           (mkWorld (<[2%positive := mkImage 1 1 255 [6]]>
                       {[ 1%positive := mkImage 2 1 255 [5; 6] ]}) "" ∅)
           1%positive 2%positive (mkImage 2 1 255 [5; 6]) (mkImage 1 1 255 [6]) 1 0);
    try reflexivity; cbn; lia.
Defined.

Section Locate.
Variables (w : world) (l1 l2 : loc) (im1 im2 : image).
Hypothesis Hl1 : hp w !! l1 = Some im1.
Hypothesis Hl2 : hp w !! l2 = Some im2.
Hypothesis Hlen1 : Z.of_nat (length (pixel im1)) = width im1 * height im1.
Hypothesis Hlen2 : Z.of_nat (length (pixel im2)) = width im2 * height im2.
Hypothesis Hw2 : 1 ≤ width im2.
Hypothesis Hh2 : 1 ≤ height im2.

(** The test of one anchor. *)
Lemma locate_anchor x y :
  0 ≤ x < width im1 - width im2 + 1 → 0 ≤ y < height im1 - height im2 + 1 →
  ∃ r, (m ← ImageMatchSubImage (Some l1) x y (Some l2);
        if negb (m =? 0) then mret (Some (1, (x, y))) else mret None) w = Some (r, w)
       ∧ ((r = Some (1, (x, y)) ∧ agree im1 im2 x y) ∨ (r = None ∧ ¬ agree im1 im2 x y)).
Proof.
  intros Hx Hy.
  destruct (ImageMatchSubImage_run w l1 l2 im1 im2 x y Hl1 Hl2 Hlen1 Hlen2)
    as (m & Hm & [[-> Ha]|[-> Ha]]); try lia;
    rewrite (bind_Some _ _ _ _ _ Hm); cbn [Z.eqb negb]; eauto.
Qed.

(** The scan of one row of anchors. *)
Lemma locate_row y :
  0 ≤ y < height im1 - height im2 + 1 →
  ∃ r, for_range_ret 0 (width im1 - width im2 + 1) (λ x,
         m ← ImageMatchSubImage (Some l1) x y (Some l2);
         if negb (m =? 0) then mret (Some (1, (x, y))) else mret None) w = Some (r, w)
       ∧ ((r = None ∧ ∀ x, 0 ≤ x < width im1 - width im2 + 1 → ¬ agree im1 im2 x y)
          ∨ (∃ x, r = Some (1, (x, y)) ∧ 0 ≤ x < width im1 - width im2 + 1
                  ∧ agree im1 im2 x y
                  ∧ ∀ x', 0 ≤ x' < x → ¬ agree im1 im2 x' y)).
Proof.
  intros Hy.
  match goal with
  | |- ∃ r, for_range_ret 0 _ ?body w = _ ∧ _ =>
      destruct (for_range_ret_first body w (width im1 - width im2 + 1))
        as [[Hrun Hall]|(x & v & Hx & Hbx & Hbefore & Hrun)]
  end.
  - intros x Hx. destruct (locate_anchor x y Hx Hy) as (r & Hr & _). eauto.
  - exists None. split; [exact Hrun|]. left. split; [reflexivity|].
    intros x Hx. specialize (Hall x Hx). cbv beta in Hall.
    destruct (locate_anchor x y Hx Hy) as (r & Hr & [[-> _]|[_ Hna]]); [congruence|auto].
  - cbv beta in Hbx.
    destruct (locate_anchor x y Hx Hy) as (r & Hr & [[-> Ha]|[-> _]]); [|congruence].
    assert (v = (1, (x, y))) as -> by congruence.
    eexists. split; [exact Hrun|]. right. exists x. repeat split; auto; try lia.
    intros x' Hx'. specialize (Hbefore x' Hx'). cbv beta in Hbefore.
    destruct (locate_anchor x' y ltac:(lia) Hy) as (r' & Hr' & [[-> _]|[_ Hna]]);
      [congruence|auto].
Qed.
End Locate.

(** X19: for well-formed images, the second with at least one pixel,
    [ImageLocateSubImage] changes nothing; it answers 1 with the first
    anchor, rows from the top and each row from the left, at which the
    second image agrees with the first, and it answers 0, leaving the two
    outputs as they were, when there is no such anchor. *)
Theorem ImageLocateSubImage_spec (w : world) (l1 l2 : loc) (im1 im2 : image)
    (px0 py0 : Z) :
  hp w !! l1 = Some im1 → hp w !! l2 = Some im2 →
  wf_image im1 → wf_image im2 → 1 ≤ width im2 → 1 ≤ height im2 →
  ∃ r, ImageLocateSubImage (Some l1) px0 py0 (Some l2) w = Some (r, w)
       ∧ ((r = (0, (px0, py0))
           ∧ ∀ x y, 0 ≤ x ≤ width im1 - width im2 → 0 ≤ y ≤ height im1 - height im2 →
                    ¬ agree im1 im2 x y)
          ∨ (∃ x y, r = (1, (x, y))
                    ∧ 0 ≤ x ≤ width im1 - width im2 ∧ 0 ≤ y ≤ height im1 - height im2
                    ∧ agree im1 im2 x y
                    ∧ ∀ x' y', 0 ≤ x' ≤ width im1 - width im2 →
                               0 ≤ y' ≤ height im1 - height im2 →
                               before y' x' y x → ¬ agree im1 im2 x' y')).
Proof.
  intros Hl1 Hl2 (_ & _ & _ & Hlen1 & _) (_ & _ & _ & Hlen2 & _) Hw2 Hh2.
  unfold ImageLocateSubImage.
  rewrite (bind_Some _ _ _ _ _ (deref_Some _ _ _ Hl1)).
  rewrite (bind_Some _ _ _ _ _ (deref_Some _ _ _ Hl2)). cbv zeta.
  match goal with
  | |- ∃ r, (for_range_ret 0 _ ?body ≫= _) w = _ ∧ _ =>
      destruct (for_range_ret_first body w (height im1 - height im2 + 1))
        as [[Hrun Hall]|(y & v & Hy & Hby & Hbefore & Hrun)]
  end.
  - intros y Hy.
    destruct (locate_row w l1 l2 im1 im2 Hl1 Hl2 Hlen1 Hlen2 Hw2 Hh2 y Hy)
      as (r & Hr & _). eauto.
  - rewrite (bind_Some _ _ _ _ _ Hrun). eexists. split; [reflexivity|]. left.
    split; [reflexivity|]. intros x y Hx Hy.
    specialize (Hall y ltac:(lia)). cbv beta in Hall.
    destruct (locate_row w l1 l2 im1 im2 Hl1 Hl2 Hlen1 Hlen2 Hw2 Hh2 y ltac:(lia))
      as (r & Hr & [[_ Hna]|(x0 & -> & _)]); [apply Hna; lia|congruence].
  - rewrite (bind_Some _ _ _ _ _ Hrun). cbv beta in Hby.
    destruct (locate_row w l1 l2 im1 im2 Hl1 Hl2 Hlen1 Hlen2 Hw2 Hh2 y Hy)
      as (r & Hr & [[-> _]|(x & -> & Hx & Ha & Hleft)]); [congruence|].
    assert (v = (1, (x, y))) as -> by congruence.
    eexists. split; [reflexivity|]. right. exists x, y.
    split; [reflexivity|]. split; [lia|]. split; [lia|]. split; [exact Ha|].
    intros x' y' Hx' Hy' [Hlt|[-> Hlt]]; [|apply Hleft; lia].
    specialize (Hbefore y' ltac:(lia)). cbv beta in Hbefore.
    destruct (locate_row w l1 l2 im1 im2 Hl1 Hl2 Hlen1 Hlen2 Hw2 Hh2 y' ltac:(lia))
      as (r' & Hr' & [[_ Hna]|(x0 & -> & _)]); [apply Hna; lia|congruence].
Qed.

Lemma ImageLocateSubImage_spec_witness :
  ∃ r, ImageLocateSubImage (Some 1%positive) 7 7 (Some 2%positive)
         (mkWorld (<[2%positive := mkImage 1 1 255 [6]]>
                     {[ 1%positive := mkImage 2 1 255 [5; 6] ]}) "" ∅)
       = Some (r, mkWorld (<[2%positive := mkImage 1 1 255 [6]]>
                             {[ 1%positive := mkImage 2 1 255 [5; 6] ]}) "" ∅)
       ∧ ((r = (0, (7, 7))
           ∧ ∀ x y, 0 ≤ x ≤ 2 - 1 → 0 ≤ y ≤ 1 - 1 →
                    ¬ agree (mkImage 2 1 255 [5; 6]) (mkImage 1 1 255 [6]) x y)
          ∨ (∃ x y, r = (1, (x, y))
                    ∧ 0 ≤ x ≤ 2 - 1 ∧ 0 ≤ y ≤ 1 - 1
                    ∧ agree (mkImage 2 1 255 [5; 6]) (mkImage 1 1 255 [6]) x y
                    ∧ ∀ x' y', 0 ≤ x' ≤ 2 - 1 → 0 ≤ y' ≤ 1 - 1 →
                               before y' x' y x →
                               ¬ agree (mkImage 2 1 255 [5; 6]) (mkImage 1 1 255 [6]) x' y')).
Proof.
  apply (ImageLocateSubImage_spec
           (mkWorld (<[2%positive := mkImage 1 1 255 [6]]>
                       {[ 1%positive := mkImage 2 1 255 [5; 6] ]}) "" ∅)
           1%positive 2%positive (mkImage 2 1 255 [5; 6]) (mkImage 1 1 255 [6]) 7 7).
  - reflexivity.
  - reflexivity.
  - vm_compute. repeat split; try discriminate. repeat constructor; discriminate.
  - vm_compute. repeat split; try discriminate. repeat constructor; discriminate.
  - cbn. lia.
  - cbn. lia.
Defined.

(** X20: when the second image is wider or taller than the first, no
    anchor is tried: [ImageLocateSubImage] answers 0 and leaves the two
    outputs as they were. *)
Theorem ImageLocateSubImage_larger (w : world) (l1 l2 : loc) (im1 im2 : image)
    (px0 py0 : Z) :
  hp w !! l1 = Some im1 → hp w !! l2 = Some im2 →
  width im1 < width im2 ∨ height im1 < height im2 →
  ImageLocateSubImage (Some l1) px0 py0 (Some l2) w = Some ((0, (px0, py0)), w).
Proof.
  intros Hl1 Hl2 Hlarger. unfold ImageLocateSubImage.
  rewrite (bind_Some _ _ _ _ _ (deref_Some _ _ _ Hl1)).
  rewrite (bind_Some _ _ _ _ _ (deref_Some _ _ _ Hl2)). cbv zeta.
  rewrite (bind_Some _ _ w None w); [reflexivity|].
  apply for_range_ret_none. intros y Hy.
  apply for_range_ret_none. intros x Hx. lia.
Qed.

Lemma ImageLocateSubImage_larger_witness :
  ImageLocateSubImage (Some 2%positive) 7 7 (Some 1%positive)
    (mkWorld (<[2%positive := mkImage 1 1 255 [6]]>
                {[ 1%positive := mkImage 2 1 255 [5; 6] ]}) "" ∅)
  = Some ((0, (7, 7)), mkWorld (<[2%positive := mkImage 1 1 255 [6]]>
                                  {[ 1%positive := mkImage 2 1 255 [5; 6] ]}) "" ∅).
Proof.
  apply (ImageLocateSubImage_larger
           (mkWorld (<[2%positive := mkImage 1 1 255 [6]]>
                       {[ 1%positive := mkImage 2 1 255 [5; 6] ]}) "" ∅)
           2%positive 1%positive (mkImage 1 1 255 [6]) (mkImage 2 1 255 [5; 6]) 7 7).
  - reflexivity.
  - reflexivity.
  - left. cbn. lia.
Defined.

(** ** Rotating four times *)

(** One rotation, with the well-formedness of its result. *)
Lemma ImageRotate_run (w : world) (l : loc) (im : image) :
  hp w !! l = Some im → wf_image im →
  ∃ l' r w',
    ImageRotate AllocOK (Some l) w = Some (Some l', w')
    ∧ hp w' !! l' = Some r ∧ hp w' !! l = Some im
    ∧ wf_image r
    ∧ width r = height im ∧ height r = width im ∧ maxval r = maxval im
    ∧ ∀ x y, 0 ≤ x < width im → 0 ≤ y < height im →
             sample r (height im - 1 - y) x = sample im x y.
Proof.
  intros Hl Hwf. pose proof Hwf as (Hw0 & Hh0 & Hmax & Hlen & Hbytes & Hwi & Hhi & Hint).
  destruct (rotate_loops w l im Hl Hwf) as (w' & Hrun & r & Hhp & Hsh & Hdone).
  pose proof (fresh_not_allocated w) as Hfresh.
  destruct Hsh as (Hrw & Hrh & Hrm & Hrl). cbn in Hrw, Hrh, Hrm, Hrl.
  rewrite length_replicate in Hrl.
  assert (∀ x y, 0 ≤ x < width im → 0 ≤ y < height im →
                 sample r (height im - 1 - y) x = sample im x y) as Hs
    by (intros; apply Hdone; auto; lia).
  exists (fresh (dom (hp w))), r, w'.
  split; [|split; [|split; [|split; [|split; [|split; [|split]]]]]]; auto.
  - unfold ImageRotate.
    rewrite (bind_Some _ _ _ _ _ (deref_Some _ _ _ Hl)).
    rewrite to_uint8_small by lia.
    rewrite (bind_Some _ _ _ _ _ (ImageCreate_ok w _ _ _ Hh0 Hw0 Hmax ltac:(lia))).
    cbv beta iota. rewrite (bind_Some _ _ _ _ _ Hrun). reflexivity.
  - rewrite Hhp. apply lookup_insert_eq.
  - rewrite Hhp, lookup_insert_ne; [exact Hl|]. intros E. rewrite E in Hfresh. congruence.
  - unfold wf_image. rewrite Hrw, Hrh, Hrm. repeat split; try lia.
    apply samples_Forall; [lia|lia|].
    intros x' y' s Hx' Hy' E. rewrite Hrw in Hx'. rewrite Hrh in Hy'.
    replace x' with (height im - 1 - (height im - 1 - x')) in E by lia.
    rewrite Hs in E by lia. exact (sample_byte im _ _ s Hbytes E).
Qed.

(** X21: four rotations in a row give an image equal to the first one;
    after two of them the width and the height are those of the first
    image again. *)
Theorem ImageRotate_four (w : world) (l : loc) (im : image) :
  hp w !! l = Some im → wf_image im →
  ∃ l1 w1 l2 w2 l3 w3 l4 w4 r2,
    ImageRotate AllocOK (Some l) w = Some (Some l1, w1)
    ∧ ImageRotate AllocOK (Some l1) w1 = Some (Some l2, w2)
    ∧ ImageRotate AllocOK (Some l2) w2 = Some (Some l3, w3)
    ∧ ImageRotate AllocOK (Some l3) w3 = Some (Some l4, w4)
    ∧ hp w2 !! l2 = Some r2 ∧ width r2 = width im ∧ height r2 = height im
    ∧ hp w4 !! l4 = Some im.
Proof.
  intros Hl Hwf.
  destruct (ImageRotate_run w l im Hl Hwf)
    as (l1 & r1 & w1 & Hrun1 & Hl1 & _ & Hwf1 & Hw1 & Hh1 & Hm1 & Hs1).
  destruct (ImageRotate_run w1 l1 r1 Hl1 Hwf1)
    as (l2 & r2 & w2 & Hrun2 & Hl2 & _ & Hwf2 & Hw2 & Hh2 & Hm2 & Hs2).
  destruct (ImageRotate_run w2 l2 r2 Hl2 Hwf2)
    as (l3 & r3 & w3 & Hrun3 & Hl3 & _ & Hwf3 & Hw3 & Hh3 & Hm3 & Hs3).
  destruct (ImageRotate_run w3 l3 r3 Hl3 Hwf3)
    as (l4 & r4 & w4 & Hrun4 & Hl4 & _ & Hwf4 & Hw4 & Hh4 & Hm4 & Hs4).
  exists l1, w1, l2, w2, l3, w3, l4, w4, r2.
  repeat (split; [assumption || congruence|]).
  rewrite Hl4. f_equal.
  destruct Hwf as (Hw0 & Hh0 & _ & Hlen & _).
  destruct Hwf4 as (_ & _ & _ & Hlen4 & _).
  assert (width r4 = width im) as Hw4' by congruence.
  assert (height r4 = height im) as Hh4' by congruence.
  apply image_ext; auto.
  - unfold same_shape. repeat split; try congruence.
    apply Nat2Z.inj. rewrite Hlen, Hlen4. congruence.
  - intros x y Hx Hy.
    rewrite <- (Hs1 x y Hx Hy).
    rewrite <- (Hs2 (height im - 1 - y) x) by lia.
    rewrite <- (Hs3 (height r1 - 1 - x) (height im - 1 - y)) by lia.
    rewrite <- (Hs4 (height r2 - 1 - (height im - 1 - y)) (height r1 - 1 - x)) by lia.
    f_equal; lia.
Qed.

Lemma ImageRotate_four_witness :
  ∃ l1 w1 l2 w2 l3 w3 l4 w4 r2,
    ImageRotate AllocOK (Some 1%positive) (single (mkImage 2 1 255 [7; 9]))
    = Some (Some l1, w1)
    ∧ ImageRotate AllocOK (Some l1) w1 = Some (Some l2, w2)
    ∧ ImageRotate AllocOK (Some l2) w2 = Some (Some l3, w3)
    ∧ ImageRotate AllocOK (Some l3) w3 = Some (Some l4, w4)
    ∧ hp w2 !! l2 = Some r2 ∧ width r2 = 2 ∧ height r2 = 1
    ∧ hp w4 !! l4 = Some (mkImage 2 1 255 [7; 9]).
Proof.
  apply (ImageRotate_four (single (mkImage 2 1 255 [7; 9])) 1%positive
           (mkImage 2 1 255 [7; 9])).
  - reflexivity.
  - vm_compute. repeat split; try discriminate. repeat constructor; discriminate.
Defined.

(** ** Brightening: the law and its unit factors *)

(** X22: for every well-formed image and every factor for which the
    conversions of the products to [int] are defined, [ImageBrighten]
    replaces each sample s by [brighten_sample maxval factor s] (the
    product cut to its integer part, reduced modulo 256, then limited to
    maxval); no sample above maxval is left, and the width, the height and
    the maxval are kept. *)
Theorem ImageBrighten_law (w : world) (l : loc) (im : image) (factor : float) :
  hp w !! l = Some im → wf_image im →
  (∀ s, s ∈ pixel im → is_Some (brighten_sample (maxval im) factor s)) →
  ∃ w' im',
    ImageBrighten (Some l) factor w = Some (tt, w')
    ∧ hp w' = <[l := im']> (hp w)
    ∧ width im' = width im ∧ height im' = height im ∧ maxval im' = maxval im
    ∧ (∀ x y, 0 ≤ x < width im → 0 ≤ y < height im →
              sample im' x y = sample im x y ≫= brighten_sample (maxval im) factor)
    ∧ (∀ s, s ∈ pixel im' → 0 ≤ s ≤ maxval im).
Proof.
  intros Hl Hwf Hdef. pose proof Hwf as (Hw0 & Hh0 & Hmax & Hlen & Hbytes & Hwi & Hhi & Hint).
  destruct (ImageBrighten_samples w l im factor Hl Hwf Hdef)
    as (w' & im' & Hrun & Hhp & Hsh & Hs).
  pose proof (same_shape_len _ _ Hsh Hlen) as Hlen'.
  destruct Hsh as (Hw1 & Hh1 & Hm1 & _).
  exists w', im'. repeat (split; [assumption|]).
  apply Forall_forall. apply samples_Forall; [lia|exact Hlen'|].
  intros x y s Hx Hy E. rewrite Hw1 in Hx. rewrite Hh1 in Hy.
  rewrite (Hs x y Hx Hy) in E.
  destruct (sample im x y) as [s0|]; [|discriminate]. cbn [mbind option_bind] in E.
  unfold brighten_sample in E.
  destruct (double_to_int _) as [v|]; [|discriminate]. cbn [mbind option_bind] in E.
  injection E as <-. unfold to_uint8.
  pose proof (Z.mod_pos_bound v 256 ltac:(lia)).
  destruct (Z.ltb_spec (maxval im) (v mod 256)); lia.
Qed.

Lemma ImageBrighten_law_witness :
  ∃ w' im',
    ImageBrighten (Some 1%positive) 1.5%float (single (mkImage 2 1 255 [200; 100]))
    = Some (tt, w')
    ∧ hp w' = <[1%positive := im']> (hp (single (mkImage 2 1 255 [200; 100])))
    ∧ width im' = 2 ∧ height im' = 1 ∧ maxval im' = 255
    ∧ (∀ x y, 0 ≤ x < 2 → 0 ≤ y < 1 →
              sample im' x y
              = sample (mkImage 2 1 255 [200; 100]) x y ≫= brighten_sample 255 1.5%float)
    ∧ (∀ s, s ∈ pixel im' → 0 ≤ s ≤ 255).
Proof.
  apply (ImageBrighten_law (single (mkImage 2 1 255 [200; 100])) 1%positive
           (mkImage 2 1 255 [200; 100]) 1.5%float).
  - reflexivity.
  - vm_compute. repeat split; try discriminate. repeat constructor; discriminate.
  - intros s Hs. cbn in Hs.
    apply elem_of_cons in Hs as [->|Hs]; [vm_compute; eauto|].
    apply elem_of_cons in Hs as [->|Hs]; [vm_compute; eauto|].
    inversion Hs.
Defined.

(** With factor 1 the product of a byte is the byte, with factor 0 it is
    0 (checked on all bytes). *)
Lemma brighten_product_one s :
  0 ≤ s ≤ 255 → double_to_int (int_to_double s * 1)%float = Some s.
Proof.
  intros Hs.
  assert (all_bytes (λ s, match double_to_int (int_to_double s * 1)%float with
                          | Some v => v =? s
                          | None => false
                          end) = true) as Hall by (vm_compute; reflexivity).
  pose proof (all_bytes_spec _ Hall s Hs) as H. cbv beta in H.
  destruct (double_to_int _) as [v|]; [|discriminate].
  apply Z.eqb_eq in H. congruence.
Qed.

Lemma brighten_product_zero s :
  0 ≤ s ≤ 255 → double_to_int (int_to_double s * 0)%float = Some 0.
Proof.
  intros Hs.
  assert (all_bytes (λ s, match double_to_int (int_to_double s * 0)%float with
                          | Some v => v =? 0
                          | None => false
                          end) = true) as Hall by (vm_compute; reflexivity).
  pose proof (all_bytes_spec _ Hall s Hs) as H. cbv beta in H.
  destruct (double_to_int _) as [v|]; [|discriminate].
  apply Z.eqb_eq in H. congruence.
Qed.

(** X23: brightening by the factor 1 leaves an image whose samples do not
    exceed maxval as it was, and brightening by the factor 0 makes every
    sample of a well-formed image 0. *)
Theorem ImageBrighten_unit_factors (w : world) (l : loc) (im : image) :
  hp w !! l = Some im → wf_image im →
  ((∀ s, s ∈ pixel im → s ≤ maxval im) →
   ∃ w', ImageBrighten (Some l) 1 w = Some (tt, w') ∧ hp w' = hp w)
  ∧ (∃ w' im', ImageBrighten (Some l) 0 w = Some (tt, w')
               ∧ hp w' !! l = Some im'
               ∧ width im' = width im ∧ height im' = height im
               ∧ ∀ s, s ∈ pixel im' → s = 0).
Proof.
  intros Hl Hwf. pose proof Hwf as (Hw0 & Hh0 & Hmax & Hlen & Hbytes & Hwi & Hhi & Hint).
  assert (∀ s, s ∈ pixel im → 0 ≤ s ≤ 255) as Hb
    by (intros s Hs; unfold byte_samples in *; rewrite Forall_forall in Hbytes; auto).
  split.
  - intros Hle.
    assert (∀ s, s ∈ pixel im → brighten_sample (maxval im) 1 s = Some s) as Hone.
    { intros s Hs. unfold brighten_sample. rewrite brighten_product_one by auto.
      cbn [mbind option_bind]. rewrite to_uint8_small by auto.
      specialize (Hle s Hs). destruct (Z.ltb_spec (maxval im) s); [lia|reflexivity]. }
    destruct (ImageBrighten_samples w l im 1 Hl Hwf) as (w' & im' & Hrun & Hhp & Hsh & Hs).
    { intros s Hs. rewrite Hone by auto. eauto. }
    exists w'. split; [exact Hrun|]. rewrite Hhp.
    assert (im' = im) as ->; [|apply insert_id; exact Hl].
    apply image_ext; auto. intros x y Hx Hy. rewrite (Hs x y Hx Hy).
    destruct (sample im x y) as [s|] eqn:E; [|reflexivity]. cbn [mbind option_bind].
    apply Hone. apply list_elem_of_lookup. eexists. exact E.
  - assert (∀ s, s ∈ pixel im → brighten_sample (maxval im) 0 s = Some 0) as Hzero.
    { intros s Hs. unfold brighten_sample. rewrite brighten_product_zero by auto.
      cbn [mbind option_bind]. change (to_uint8 0) with 0.
      destruct (Z.ltb_spec (maxval im) 0); [lia|reflexivity]. }
    destruct (ImageBrighten_samples w l im 0 Hl Hwf) as (w' & im' & Hrun & Hhp & Hsh & Hs).
    { intros s Hs. rewrite Hzero by auto. eauto. }
    pose proof (same_shape_len _ _ Hsh Hlen) as Hlen'.
    destruct Hsh as (Hw1 & Hh1 & Hm1 & _).
    exists w', im'. split; [exact Hrun|].
    split; [rewrite Hhp; apply lookup_insert_eq|]. split; [exact Hw1|]. split; [exact Hh1|].
    apply Forall_forall. apply samples_Forall; [lia|exact Hlen'|].
    intros x y s Hx Hy E. rewrite Hw1 in Hx. rewrite Hh1 in Hy.
    rewrite (Hs x y Hx Hy) in E.
    destruct (sample im x y) as [s0|] eqn:E0; [|discriminate].
    cbn [mbind option_bind] in E. rewrite Hzero in E; [congruence|].
    apply list_elem_of_lookup. eexists. exact E0.
Qed.

Lemma ImageBrighten_unit_factors_witness :
  ((∀ s, s ∈ pixel (mkImage 2 1 255 [200; 100]) → s ≤ 255) →
   ∃ w', ImageBrighten (Some 1%positive) 1 (single (mkImage 2 1 255 [200; 100]))
         = Some (tt, w')
         ∧ hp w' = hp (single (mkImage 2 1 255 [200; 100])))
  ∧ (∃ w' im', ImageBrighten (Some 1%positive) 0 (single (mkImage 2 1 255 [200; 100]))
               = Some (tt, w')
               ∧ hp w' !! 1%positive = Some im'
               ∧ width im' = 2 ∧ height im' = 1
               ∧ ∀ s, s ∈ pixel im' → s = 0).
Proof.
  apply (ImageBrighten_unit_factors (single (mkImage 2 1 255 [200; 100])) 1%positive
           (mkImage 2 1 255 [200; 100])).
  - reflexivity.
  - vm_compute. repeat split; try discriminate. repeat constructor; discriminate.
Defined.

(** ** What a successful load returns *)

(** Every scanning step leaves a tail of the stream it was given. *)
Lemma skip_ws_suffix (f : list Z) : skip_ws f `suffix_of` f.
Proof.
  induction f as [|c f IH]; [reflexivity|]. cbn [skip_ws].
  destruct (isspace c); [apply suffix_cons_r; exact IH|reflexivity].
Qed.

Lemma scan_digits_suffix (f : list Z) : ∀ a, (scan_digits a f).2 `suffix_of` f.
Proof.
  induction f as [|c f IH]; intros a; [reflexivity|]. cbn [scan_digits].
  destruct (isdigit c); [apply suffix_cons_r; apply IH|reflexivity].
Qed.

Lemma scan_int_suffix (f f' : list Z) n : scan_int f = Some (n, f') → f' `suffix_of` f.
Proof.
  unfold scan_int. intros H.
  assert (∀ f2, f2 `suffix_of` f →
                match f2 with
                | c :: _ => if isdigit c then
                              let '(n, f3) := scan_digits 0 f2 in
                              Some (n, f3)
                            else None
                | [] => None
                end = Some (n, f') → f' `suffix_of` f) as Haux.
  { intros f2 Hf2 E. destruct f2 as [|c t]; [discriminate|].
    destruct (isdigit c); [|discriminate].
    pose proof (scan_digits_suffix (c :: t) 0) as Hs.
    destruct (scan_digits 0 (c :: t)) as [n0 f3]. injection E as _ <-.
    etrans; [exact Hs|exact Hf2]. }
  pose proof (skip_ws_suffix f) as Hws.
  destruct (skip_ws f) as [|c t] eqn:E1.
  - discriminate.
  - destruct (c =? chr "-"); [|destruct (c =? chr "+")].
    + destruct t as [|c' t']; [discriminate|]. destruct (isdigit c'); [|discriminate].
      pose proof (scan_digits_suffix (c' :: t') 0) as Hs.
      destruct (scan_digits 0 (c' :: t')) as [n0 f3]. injection H as _ <-.
      etrans; [exact Hs|]. etrans; [|exact Hws]. apply suffix_cons_r. reflexivity.
    + destruct t as [|c' t']; [discriminate|]. destruct (isdigit c'); [|discriminate].
      pose proof (scan_digits_suffix (c' :: t') 0) as Hs.
      destruct (scan_digits 0 (c' :: t')) as [n0 f3]. injection H as _ <-.
      etrans; [exact Hs|]. etrans; [|exact Hws]. apply suffix_cons_r. reflexivity.
    + destruct (isdigit c); [|discriminate].
      pose proof (scan_digits_suffix (c :: t) 0) as Hs.
      destruct (scan_digits 0 (c :: t)) as [n0 f3]. injection H as _ <-.
      etrans; [exact Hs|exact Hws].
Qed.

Lemma scan_line_suffix (f : list Z) : (scan_line f).2 `suffix_of` f.
Proof.
  induction f as [|c f IH]; [reflexivity|]. cbn [scan_line].
  destruct (c =? newline); [reflexivity|].
  destruct (scan_line f) as [l r]. cbn [snd] in *. apply suffix_cons_r. exact IH.
Qed.

Lemma fscanf_comment_suffix (f : list Z) : (fscanf_comment f).2 `suffix_of` f.
Proof.
  destruct f as [|c0 f1]; [reflexivity|]. cbn [fscanf_comment].
  destruct (c0 =? chr "#"); [|reflexivity].
  pose proof (scan_line_suffix f1) as Hs.
  destruct (scan_line f1) as [[|c l] r]; cbn [snd] in *.
  - apply suffix_cons_r. reflexivity.
  - destruct r as [|c' f2]; cbn [snd].
    + apply suffix_nil.
    + apply suffix_cons_r. etrans; [|exact Hs]. apply suffix_cons_r. reflexivity.
Qed.

Lemma skipComments_loop_suffix fuel :
  ∀ f i, (skipComments_loop fuel f i).2 `suffix_of` f.
Proof.
  induction fuel as [|fuel IH]; intros f i; [reflexivity|]. cbn [skipComments_loop].
  pose proof (fscanf_comment_suffix f) as Hs.
  destruct (fscanf_comment f) as [[c|] f']; cbn [snd] in *; [|exact Hs].
  destruct (c =? newline); [|exact Hs]. etrans; [apply IH|exact Hs].
Qed.

Lemma skipComments_suffix (f : list Z) : (skipComments f).2 `suffix_of` f.
Proof. apply skipComments_loop_suffix. Qed.

Lemma read_magic_suffix (f f' : list Z) : read_magic f = Some f' → f' `suffix_of` f.
Proof.
  rewrite read_magic_eq. unfold fscanf_P_c.
  destruct f as [|p [|c t]]; try discriminate.
  destruct (p =? chr "P"); [|discriminate].
  destruct (decide (c = chr "5")); [|discriminate]. intros [= <-].
  do 2 apply suffix_cons_r. apply skip_ws_suffix.
Qed.

Lemma read_size_suffix (f f' : list Z) n : read_size f = Some (n, f') → f' `suffix_of` f.
Proof.
  rewrite read_size_eq. unfold fscanf_d_ws.
  destruct (scan_int f) as [[n0 f0]|] eqn:E; [|discriminate].
  destruct (decide (0 ≤ n0)); [|discriminate]. intros [= _ <-].
  etrans; [apply skip_ws_suffix|]. exact (scan_int_suffix _ _ _ E).
Qed.

Lemma read_maxval_suffix (f f' : list Z) n : read_maxval f = Some (n, f') → f' `suffix_of` f.
Proof.
  rewrite read_maxval_eq. unfold fscanf_d.
  destruct (scan_int f) as [[n0 f0]|] eqn:E; [|discriminate].
  destruct (decide (0 < n0 ≤ PixMax)); [|discriminate]. intros [= _ <-].
  exact (scan_int_suffix _ _ _ E).
Qed.

Lemma read_space_suffix (f f' : list Z) : read_space f = Some f' → f' `suffix_of` f.
Proof.
  rewrite read_space_eq. destruct f as [|c t]; [discriminate|]. cbn [fscanf_c].
  destruct (decide (isspace c = true)); [|discriminate]. intros [= <-].
  apply suffix_cons_r. reflexivity.
Qed.

Ltac steps_failed H := rewrite check_step_None in H; congruence.

(** The number [%d] stores is an [int]. *)
Lemma scan_int_range (f f' : list Z) n :
  scan_int f = Some (n, f') → INT_MIN ≤ n ≤ INT_MAX.
Proof.
  unfold scan_int.
  destruct (skip_ws f) as [|c t].
  - discriminate.
  - destruct (c =? chr "-"); [|destruct (c =? chr "+")].
    + destruct t as [|c' t']; [discriminate|]. destruct (isdigit c'); [|discriminate].
      destruct (scan_digits 0 (c' :: t')) as [n0 f3]. intros [= <- _].
      apply stored_int_range.
    + destruct t as [|c' t']; [discriminate|]. destruct (isdigit c'); [|discriminate].
      destruct (scan_digits 0 (c' :: t')) as [n0 f3]. intros [= <- _].
      apply stored_int_range.
    + destruct (isdigit c); [|discriminate].
      destruct (scan_digits 0 (c :: t)) as [n0 f3]. intros [= <- _].
      apply stored_int_range.
Qed.

Lemma read_size_range (f f' : list Z) n : read_size f = Some (n, f') → 0 ≤ n ≤ INT_MAX.
Proof.
  rewrite read_size_eq. unfold fscanf_d_ws.
  destruct (scan_int f) as [[n0 f0]|] eqn:E; [|discriminate].
  destruct (decide (0 ≤ n0)); [|discriminate]. intros [= <- _].
  pose proof (scan_int_range _ _ _ E). lia.
Qed.

(** A chain of steps that succeeds has read, from the file, a width and a
    height within [int], a maxval in range, and as many raster bytes as
    the [int] product of width and height. *)
Lemma ImageLoad_steps_success a name w f0 img w1 :
  fs w !! name = Some f0 →
  ImageLoad_steps a name w = Some ((true, img), w1) →
  ∃ wd ht m raster rest,
    0 ≤ wd ≤ INT_MAX ∧ 0 ≤ ht ≤ INT_MAX ∧ 0 < m ≤ 255
    ∧ Z.of_nat (length raster) = wrap_int (wd * ht)
    ∧ (raster ++ rest) `suffix_of` f0
    ∧ img = Some (fresh (dom (hp w)))
    ∧ w1 = mkWorld (<[fresh (dom (hp w)) := mkImage wd ht m raster]> (hp w)) "" (fs w).
Proof.
  intros Hfile. unfold ImageLoad_steps.
  rewrite (bind_Some _ _ w w w) by reflexivity. rewrite Hfile, check_step_Some.
  destruct (read_magic f0) as [f1|] eqn:Hmagic;
    [rewrite check_step_Some; cbv beta iota|intros Hrun; steps_failed Hrun].
  skip_comments f1 f1'.
  destruct (read_size f1') as [[wd f2]|] eqn:Hwd;
    [rewrite check_step_Some; cbv beta iota|intros Hrun; steps_failed Hrun].
  skip_comments f2 f2'.
  destruct (read_size f2') as [[ht f3]|] eqn:Hht;
    [rewrite check_step_Some; cbv beta iota|intros Hrun; steps_failed Hrun].
  skip_comments f3 f3'.
  destruct (read_maxval f3') as [[m f4]|] eqn:Hm;
    [rewrite check_step_Some; cbv beta iota|intros Hrun; steps_failed Hrun].
  destruct (read_space f4) as [f5|] eqn:Hsp;
    [rewrite check_step_Some; cbv beta iota|intros Hrun; steps_failed Hrun].
  assert (f5 `suffix_of` f0) as Hsuffix.
  { etrans; [exact (read_space_suffix _ _ Hsp)|].
    etrans; [exact (read_maxval_suffix _ _ _ Hm)|].
    pose proof (skipComments_suffix f3) as S3. rewrite E1 in S3. cbn [snd] in S3.
    etrans; [exact S3|]. etrans; [exact (read_size_suffix _ _ _ Hht)|].
    pose proof (skipComments_suffix f2) as S2. rewrite E0 in S2. cbn [snd] in S2.
    etrans; [exact S2|]. etrans; [exact (read_size_suffix _ _ _ Hwd)|].
    pose proof (skipComments_suffix f1) as S1. rewrite E in S1. cbn [snd] in S1.
    etrans; [exact S1|]. exact (read_magic_suffix _ _ Hmagic). }
  apply read_size_range in Hwd, Hht. apply read_maxval_range in Hm.
  rewrite to_uint8_small by lia.
  change (set_errCause "" (set_errCause "" (set_errCause "" (set_errCause ""
            (set_errCause "" (set_errCause "" w))))))
    with (mkWorld (hp w) "" (fs w)).
  destruct (ImageCreate_total a (mkWorld (hp w) "" (fs w)) wd ht m
              (proj1 Hwd) (proj1 Hht) Hm) as [(msg & Hc & Hmsg)|(-> & Hcount & Hc)].
  - rewrite (bind_Some _ _ _ _ _ Hc). cbv beta iota. rewrite ret_unfold. congruence.
  - rewrite (bind_Some _ _ _ _ _ Hc).
    cbv beta iota. cbn [hp]. set (l' := fresh (dom (hp w))).
    rewrite (bind_Some _ _ _ _ _ (deref_Some _ l' _ (lookup_insert_eq _ _ _))).
    rewrite (bind_Some _ _ _ _ _ (store_Some _ l' _ _ (lookup_insert_eq _ _ _))).
    rewrite (bind_Some _ _ _ _ _ eq_refl). cbv beta.
    set (count := wrap_int (wd * ht)) in *.
    destruct (Z.eqb_spec (Z.of_nat (length (take (Z.to_nat count) f5))) count)
      as [Hfull|]; rewrite ret_unfold; [|congruence].
    intros [= <- <-].
    exists wd, ht, m, (take (Z.to_nat count) f5), (drop (Z.to_nat count) f5).
    repeat (split; [assumption || lia|]). split; [rewrite take_drop; exact Hsuffix|].
    split; [reflexivity|].
    unfold set_hp, set_errCause, with_pixel. cbn [hp errCause fs width height maxval pixel].
    rewrite insert_insert_eq. rewrite drop_ge by (rewrite length_replicate; lia).
    rewrite app_nil_r. reflexivity.
Qed.

(** X24: whenever [ImageLoad] returns an image, that image is at an
    address that was unused; its width and height are within [int], its
    maxval is in range, its pixels are one contiguous piece of the file,
    as many as the [int] product of width and height; when that product
    has not wrapped around the image is well-formed (the file holding
    bytes).  No error cause is left, and the other images and the files
    are as before. *)
Theorem ImageLoad_returns_wf (a : alloc_outcome) (w : world) (name : string)
    (f0 : list Z) (l' : loc) (w2 : world) :
  fs w !! name = Some f0 → Forall (λ b, 0 ≤ b ≤ 255) f0 →
  ImageLoad a name w = Some (Some l', w2) →
  ∃ im rest,
    hp w !! l' = None ∧ hp w2 = <[l' := im]> (hp w)
    ∧ 0 ≤ width im ≤ INT_MAX ∧ 0 ≤ height im ≤ INT_MAX ∧ 0 < maxval im ≤ 255
    ∧ Z.of_nat (length (pixel im)) = wrap_int (width im * height im)
    ∧ (width im * height im ≤ INT_MAX → wf_image im)
    ∧ (pixel im ++ rest) `suffix_of` f0
    ∧ errCause w2 = "" ∧ fs w2 = fs w.
Proof.
  intros Hfile Hbytes Hload.
  destruct (ImageLoad_steps_total a name w) as (success & img & w1 & Hsteps & Hpost).
  unfold ImageLoad in Hload. rewrite (bind_Some _ _ _ _ _ Hsteps) in Hload.
  cbv beta iota in Hload. destruct success; cbn [negb] in Hload.
  - injection Hload as -> ->.
    destruct (ImageLoad_steps_success a name w f0 _ _ Hfile Hsteps)
      as (wd & ht & m & raster & rest & Hwd & Hht & Hm & Hlen & Hsuffix & Himg & ->).
    injection Himg as ->.
    exists (mkImage wd ht m raster), rest. cbn [width height maxval pixel hp errCause fs].
    split; [apply fresh_not_allocated|]. split; [reflexivity|].
    split; [exact Hwd|]. split; [exact Hht|]. split; [exact Hm|]. split; [exact Hlen|].
    split; [|split; [exact Hsuffix|split; reflexivity]].
    intros Hint. rewrite wrap_int_small in Hlen by (unfold INT_MIN; nia).
    unfold wf_image. cbn. repeat split; try lia.
    destruct Hsuffix as [k ->].
    apply Forall_app in Hbytes as [_ Hb]. apply Forall_app in Hb as [Hb _]. exact Hb.
  - destruct Hpost as (_ & Himg & _). destruct img as [l0|].
    + destruct Himg as (Hfresh & im & Hhp). unfold ImageDestroy in Hload.
      rewrite (bind_Some _ _ w1 w1 w1) in Hload by reflexivity.
      rewrite Hhp, lookup_insert_eq in Hload. cbn [defined] in Hload.
      rewrite (bind_Some _ _ w1 im w1) in Hload by reflexivity.
      rewrite (bind_Some _ _ _ _ _ eq_refl) in Hload. discriminate.
    + discriminate.
Qed.

Lemma ImageLoad_returns_wf_witness :
  ∃ im rest,
    hp (mkWorld ∅ "" {[ "ok.pgm" := bytes_of "P5 2 1 255 abc" ]}) !! 1%positive = None
    ∧ hp (mkWorld {[ 1%positive := mkImage 2 1 255 [97; 98] ]} ""
                  {[ "ok.pgm" := bytes_of "P5 2 1 255 abc" ]})
      = <[1%positive := im]> (hp (mkWorld ∅ "" {[ "ok.pgm" := bytes_of "P5 2 1 255 abc" ]}))
    ∧ 0 ≤ width im ≤ INT_MAX ∧ 0 ≤ height im ≤ INT_MAX ∧ 0 < maxval im ≤ 255
    ∧ Z.of_nat (length (pixel im)) = wrap_int (width im * height im)
    ∧ (width im * height im ≤ INT_MAX → wf_image im)
    ∧ (pixel im ++ rest) `suffix_of` bytes_of "P5 2 1 255 abc"
    ∧ errCause (mkWorld {[ 1%positive := mkImage 2 1 255 [97; 98] ]} ""
                        {[ "ok.pgm" := bytes_of "P5 2 1 255 abc" ]}) = ""
    ∧ fs (mkWorld {[ 1%positive := mkImage 2 1 255 [97; 98] ]} ""
                  {[ "ok.pgm" := bytes_of "P5 2 1 255 abc" ]})
      = fs (mkWorld ∅ "" {[ "ok.pgm" := bytes_of "P5 2 1 255 abc" ]}).
Proof.
  apply (ImageLoad_returns_wf AllocOK
           (mkWorld ∅ "" {[ "ok.pgm" := bytes_of "P5 2 1 255 abc" ]}) "ok.pgm"
           (bytes_of "P5 2 1 255 abc") 1%positive).
  - reflexivity.
  - vm_compute. repeat constructor; discriminate.
  - vm_compute. reflexivity.
Defined.

(** ** Headers with comments, short and long rasters *)

(** The chain of steps on a file that holds a header, with or without
    comments, and any bytes after it: the raster is as many of these bytes
    as the image has pixels, and the chain succeeds when there are enough. *)
Lemma ImageLoad_steps_commented w1 name c1 c2 c3 w h m data :
  fs w1 !! name = Some (commented_header c1 c2 c3 w h m ++ data) →
  Forall comment_text c1 → Forall comment_text c2 → Forall comment_text c3 →
  0 ≤ w ≤ INT_MAX → 0 ≤ h ≤ INT_MAX → 0 < m ≤ 255 → w * h ≤ INT_MAX →
  ImageLoad_steps AllocOK name w1
  = Some ((w * h <=? Z.of_nat (length data), Some (fresh (dom (hp w1)))),
          mkWorld (<[fresh (dom (hp w1)) :=
                       mkImage w h m
                         (take (Z.to_nat (w * h))
                               (data ++ replicate (Z.to_nat (w * h)) 0))]> (hp w1))
                  (if w * h <=? Z.of_nat (length data) then "" else "Reading pixels")
                  (fs w1)).
Proof.
  intros Hfile Hc1 Hc2 Hc3 Hw Hh Hm Hint. unfold ImageLoad_steps.
  rewrite (bind_Some _ _ w1 w1 w1) by reflexivity. rewrite Hfile, check_step_Some.
  unfold commented_header. rewrite !print_int_nonneg by lia.
  rewrite <- !app_assoc. cbn [bytes_of app]. rewrite read_magic_eq. unfold fscanf_P_c.
  change (chr "P" =? chr "P") with true. cbv iota.
  rewrite decide_True by reflexivity.
  change (skip_ws (newline :: ?f)) with (skip_ws f).
  rewrite skip_ws_comments, check_step_Some.
  rewrite (skipComments_comments _ _ c1 Hc1). cbv iota beta.
  rewrite (proj2 (Z.leb_le 0 _) (Nat2Z.is_nonneg _)). cbn [negb].
  rewrite (read_size_print w _ (chr " ") Hw eq_refl), check_step_Some.
  rewrite skip_ws_comments, (skipComments_comments _ _ c2 Hc2). cbv iota beta.
  rewrite (proj2 (Z.leb_le 0 _) (Nat2Z.is_nonneg _)). cbn [negb].
  rewrite (read_size_print h _ newline Hh eq_refl), check_step_Some.
  rewrite skip_ws_comments, (skipComments_comments _ _ c3 Hc3). cbv iota beta.
  rewrite (proj2 (Z.leb_le 0 _) (Nat2Z.is_nonneg _)). cbn [negb].
  rewrite (read_maxval_print m Hm), check_step_Some.
  rewrite read_space_eq. cbn [fscanf_c]. rewrite decide_True by reflexivity.
  rewrite check_step_Some, to_uint8_small by lia.
  change (set_errCause "" (set_errCause "" (set_errCause "" (set_errCause ""
            (set_errCause "" (set_errCause "" w1))))))
    with (mkWorld (hp w1) "" (fs w1)).
  rewrite (bind_Some _ _ _ _ _ (ImageCreate_ok _ w h m (proj1 Hw) (proj1 Hh) Hm Hint)).
  cbv beta iota. cbn [hp].
  set (l' := fresh (dom (hp w1))).
  rewrite (bind_Some _ _ _ _ _ (deref_Some _ l' _ (lookup_insert_eq _ _ _))).
  rewrite wrap_int_small by (unfold INT_MIN; nia).
  rewrite (bind_Some _ _ _ _ _ (store_Some _ l' _ _ (lookup_insert_eq _ _ _))).
  cbn [pixel]. set (n := Z.to_nat (w * h)).
  assert (take n data ++ drop (length (take n data)) (replicate n 0)
          = take n (data ++ replicate n 0)) as ->.
  { rewrite length_take. destruct (Nat.le_gt_cases n (length data)) as [Hle|Hgt].
    - rewrite Nat.min_l by exact Hle. rewrite drop_ge by (rewrite length_replicate; lia).
      rewrite app_nil_r, take_app_le by exact Hle. reflexivity.
    - rewrite Nat.min_r by lia. rewrite take_ge by lia.
      rewrite take_app_ge by lia. f_equal.
      rewrite drop_replicate, take_replicate. f_equal. lia. }
  assert ((Z.of_nat (length (take n data)) =? w * h) = (w * h <=? Z.of_nat (length data)))
    as Hcount.
  { rewrite length_take. subst n.
    destruct (Z.leb_spec (w * h) (Z.of_nat (length data))); [apply Z.eqb_eq|apply Z.eqb_neq]; lia. }
  unfold check. rewrite Hcount.
  destruct (w * h <=? Z.of_nat (length data));
    unfold set_hp, with_pixel; cbn [hp errCause fs width height maxval pixel];
    rewrite insert_insert_eq; reflexivity.
Qed.

(** X25: a file that holds a header, with any comment lines before its
    three numbers (a width and a height whose product is within [int]),
    then width * height bytes and anything after them,
    loads as the image of these numbers and these bytes: comments and
    trailing bytes are ignored. *)
Theorem ImageLoad_commented (w1 : world) (name : string) (c1 c2 c3 : list (list Z))
    (w h m : Z) (raster extra : list Z) :
  fs w1 !! name = Some (commented_header c1 c2 c3 w h m ++ raster ++ extra) →
  Forall comment_text c1 → Forall comment_text c2 → Forall comment_text c3 →
  0 ≤ w ≤ INT_MAX → 0 ≤ h ≤ INT_MAX → 0 < m ≤ 255 → w * h ≤ INT_MAX →
  Z.of_nat (length raster) = w * h →
  ImageLoad AllocOK name w1
  = Some (Some (fresh (dom (hp w1))),
          mkWorld (<[fresh (dom (hp w1)) := mkImage w h m raster]> (hp w1)) "" (fs w1)).
Proof.
  intros Hfile Hc1 Hc2 Hc3 Hw Hh Hm Hint Hlen. unfold ImageLoad.
  rewrite (bind_Some _ _ _ _ _
             (ImageLoad_steps_commented w1 name c1 c2 c3 w h m _ Hfile Hc1 Hc2 Hc3
                Hw Hh Hm Hint)).
  cbv beta iota. rewrite length_app.
  rewrite (proj2 (Z.leb_le (w * h) _)) by lia. cbn [negb]. rewrite ret_unfold.
  rewrite <- app_assoc, take_app_length' by lia. reflexivity.
Qed.

Lemma ImageLoad_commented_witness :
  ∃ w1, fs w1 !! "a.pgm"
        = Some (commented_header [bytes_of " two pixels"] [] [bytes_of "x"] 2 1 255
                  ++ [7; 9] ++ [11; 13])
        ∧ ImageLoad AllocOK "a.pgm" w1
          = Some (Some (fresh (dom (hp w1))),
                  mkWorld (<[fresh (dom (hp w1)) := mkImage 2 1 255 [7; 9]]> (hp w1))
                          "" (fs w1)).
Proof.
  exists (mkWorld ∅ "" {[ "a.pgm" := commented_header [bytes_of " two pixels"] []
                                      [bytes_of "x"] 2 1 255 ++ [7; 9] ++ [11; 13] ]}).
  split; [reflexivity|].
  apply (ImageLoad_commented _ "a.pgm" [bytes_of " two pixels"] [] [bytes_of "x"]
           2 1 255 [7; 9] [11; 13]).
  - reflexivity.
  - repeat constructor; discriminate.
  - constructor.
  - repeat constructor; discriminate.
  - unfold INT_MAX. lia.
  - unfold INT_MAX. lia.
  - lia.
  - unfold INT_MAX. lia.
  - reflexivity.
Defined.

(** X26: a file with a good header (a width and a height whose product
    is within [int]) and fewer bytes after it than the image has pixels is
    refused: [ImageLoad] returns NULL with the cause
    "Reading pixels", and the image it had created is freed again. *)
Theorem ImageLoad_short_raster (w1 : world) (name : string) (c1 c2 c3 : list (list Z))
    (w h m : Z) (data : list Z) :
  fs w1 !! name = Some (commented_header c1 c2 c3 w h m ++ data) →
  Forall comment_text c1 → Forall comment_text c2 → Forall comment_text c3 →
  0 ≤ w ≤ INT_MAX → 0 ≤ h ≤ INT_MAX → 0 < m ≤ 255 → w * h ≤ INT_MAX →
  Z.of_nat (length data) < w * h →
  ImageLoad AllocOK name w1 = Some (None, mkWorld (hp w1) "Reading pixels" (fs w1)).
Proof.
  intros Hfile Hc1 Hc2 Hc3 Hw Hh Hm Hint Hlen. unfold ImageLoad.
  rewrite (bind_Some _ _ _ _ _
             (ImageLoad_steps_commented w1 name c1 c2 c3 w h m _ Hfile Hc1 Hc2 Hc3
                Hw Hh Hm Hint)).
  cbv beta iota.
  rewrite (proj2 (Z.leb_gt (w * h) _)) by lia. cbn [negb].
  unfold ImageDestroy. set (w2 := mkWorld _ _ _).
  rewrite (bind_Some _ _ w2 w2 w2) by reflexivity.
  subst w2. cbn [hp]. rewrite lookup_insert_eq. cbn [defined].
  rewrite (bind_Some _ _ _ _ _ eq_refl), (bind_Some _ _ _ _ _ eq_refl), ret_unfold.
  unfold set_hp. cbn [hp errCause fs].
  rewrite delete_insert_id by apply fresh_not_allocated. reflexivity.
Qed.

Lemma ImageLoad_short_raster_witness :
  ∃ w1, fs w1 !! "a.pgm" = Some (commented_header [] [] [] 2 2 255 ++ [7; 9; 11])
        ∧ ImageLoad AllocOK "a.pgm" w1
          = Some (None, mkWorld (hp w1) "Reading pixels" (fs w1)).
Proof.
  exists (mkWorld ∅ "" {[ "a.pgm" := commented_header [] [] [] 2 2 255 ++ [7; 9; 11] ]}).
  split; [reflexivity|].
  apply (ImageLoad_short_raster _ "a.pgm" [] [] [] 2 2 255 [7; 9; 11]).
  - reflexivity.
  - constructor.
  - constructor.
  - constructor.
  - unfold INT_MAX. lia.
  - unfold INT_MAX. lia.
  - lia.
  - unfold INT_MAX. lia.
  - cbn. lia.
Defined.

(** ** Running out of memory, and rectangles that do not fit *)

(** X27: when the allocator has no memory, [ImageCreate] with valid
    arguments and, on a well-formed image, [ImageRotate], [ImageMirror]
    and [ImageCrop] of a rectangle within it all return NULL; they leave
    the images and the files as they were and set a cause of error. *)
Theorem no_memory_returns_NULL (a : alloc_outcome) (w : world) (l : loc) (im : image)
    (x y cw ch : Z) :
  a ≠ AllocOK → hp w !! l = Some im → wf_image im →
  0 ≤ x → 0 ≤ y → 0 ≤ cw → 0 ≤ ch → x + cw ≤ width im → y + ch ≤ height im →
  ∃ msg, msg ≠ ""
         ∧ ImageCreate a cw ch (maxval im) w = Some (None, set_errCause msg w)
         ∧ ImageRotate a (Some l) w = Some (None, set_errCause msg w)
         ∧ ImageMirror a (Some l) w = Some (None, set_errCause msg w)
         ∧ ImageCrop a (Some l) x y cw ch w = Some (None, set_errCause msg w).
Proof.
  intros Ha Hl (Hw & Hh & Hm & _ & _ & Hwi & Hhi & _) Hx Hy Hcw Hch Hxw Hyh.
  assert (∀ w0 h0, 0 ≤ w0 → 0 ≤ h0 →
            ImageCreate a w0 h0 (maxval im) w
            = Some (None, set_errCause
                            (match a with
                             | StructFails => "Memory allocation for Image structure failed"
                             | _ => "Memory allocation for pixel array failed"
                             end) w)) as Hcreate.
  { intros w0 h0 Hw0 Hh0. unfold ImageCreate, PixMax.
    rewrite (bind_Some _ _ w tt w) by (apply assert_true; lia).
    rewrite (bind_Some _ _ w tt w) by (apply assert_true; lia).
    rewrite (bind_Some _ _ w tt w) by (apply assert_true; lia).
    destruct a; [congruence| |]; reflexivity. }
  eexists. split; [|split; [exact (Hcreate cw ch Hcw Hch)|]].
  { destruct a; discriminate. }
  split; [|split].
  - unfold ImageRotate. rewrite (bind_Some _ _ _ _ _ (deref_Some _ _ _ Hl)).
    rewrite to_uint8_small by lia.
    rewrite (bind_Some _ _ _ _ _ (Hcreate _ _ Hh Hw)). reflexivity.
  - unfold ImageMirror. rewrite (bind_Some _ _ _ _ _ (deref_Some _ _ _ Hl)).
    rewrite to_uint8_small by lia.
    rewrite (bind_Some _ _ _ _ _ (Hcreate _ _ Hw Hh)). reflexivity.
  - unfold ImageCrop. rewrite (bind_Some _ _ _ _ _ (deref_Some _ _ _ Hl)).
    rewrite (bind_Some _ _ _ _ _ (ImageValidRect_eq w l im x y cw ch Hl)).
    rewrite valid_rect_true by (unfold INT_MIN; lia). cbn [of_bool Z.eqb negb].
    rewrite (bind_Some _ _ w tt w) by reflexivity.
    rewrite to_uint8_small by lia.
    rewrite (bind_Some _ _ _ _ _ (Hcreate _ _ Hcw Hch)). reflexivity.
Qed.

Lemma no_memory_returns_NULL_witness :
  ∃ msg, msg ≠ ""
         ∧ ImageCreate PixelFails 1 1 (maxval (mkImage 2 1 255 [5; 6]))
             (single (mkImage 2 1 255 [5; 6]))
           = Some (None, set_errCause msg (single (mkImage 2 1 255 [5; 6])))
         ∧ ImageRotate PixelFails (Some 1%positive) (single (mkImage 2 1 255 [5; 6]))
           = Some (None, set_errCause msg (single (mkImage 2 1 255 [5; 6])))
         ∧ ImageMirror PixelFails (Some 1%positive) (single (mkImage 2 1 255 [5; 6]))
           = Some (None, set_errCause msg (single (mkImage 2 1 255 [5; 6])))
         ∧ ImageCrop PixelFails (Some 1%positive) 1 0 1 1 (single (mkImage 2 1 255 [5; 6]))
           = Some (None, set_errCause msg (single (mkImage 2 1 255 [5; 6]))).
Proof.
  apply (no_memory_returns_NULL PixelFails (single (mkImage 2 1 255 [5; 6])) 1%positive
           (mkImage 2 1 255 [5; 6]) 1 0 1 1); try (cbn; lia).
  - discriminate.
  - reflexivity.
  - vm_compute. repeat split; try discriminate. repeat constructor; discriminate.
Defined.

(** X28: when the sums of the anchor and the sides of the second image
    are within [int], [ImagePaste] and [ImageBlend] stop the program at the
    assertion if the second image, placed at the anchor, does not lie
    within the first; nothing is written before. *)
Theorem compositor_invalid_rect (w : world) (l1 l2 : loc) (im1 im2 : image) (x y : Z)
    (alpha : float) :
  hp w !! l1 = Some im1 → hp w !! l2 = Some im2 →
  INT_MIN ≤ x + width im2 ≤ INT_MAX → INT_MIN ≤ y + height im2 ≤ INT_MAX →
  x < 0 ∨ y < 0 ∨ width im1 < x + width im2 ∨ height im1 < y + height im2 →
  ImagePaste (Some l1) x y (Some l2) w = None
  ∧ ImageBlend (Some l1) x y (Some l2) alpha w = None.
Proof.
  intros Hl1 Hl2 Hxi Hyi Hbad.
  assert (((0 <=? x) && (wrap_int (x + width im2) <=? width im1))
          && ((0 <=? y) && (wrap_int (y + height im2) <=? height im1)) = false) as Hrect.
  { rewrite !wrap_int_small by assumption. apply not_true_is_false. intros E.
    apply andb_true_iff in E as [E1 E2].
    apply andb_true_iff in E1 as [? ?]. apply andb_true_iff in E2 as [? ?]. lia. }
  split.
  - unfold ImagePaste.
    rewrite (bind_Some _ _ _ _ _ (deref_Some _ _ _ Hl1)).
    rewrite (bind_Some _ _ _ _ _ (deref_Some _ _ _ Hl2)).
    rewrite (bind_Some _ _ _ _ _ (ImageValidRect_eq w l1 im1 x y _ _ Hl1)).
    rewrite Hrect. reflexivity.
  - unfold ImageBlend.
    rewrite (bind_Some _ _ _ _ _ (deref_Some _ _ _ Hl1)).
    rewrite (bind_Some _ _ _ _ _ (deref_Some _ _ _ Hl2)).
    rewrite (bind_Some _ _ _ _ _ (ImageValidRect_eq w l1 im1 x y _ _ Hl1)).
    rewrite Hrect. reflexivity.
Qed.

Lemma compositor_invalid_rect_witness :
  ImagePaste (Some 1%positive) 1 0 (Some 1%positive) (single (mkImage 2 1 255 [5; 6])) = None
  ∧ ImageBlend (Some 1%positive) 1 0 (Some 1%positive) 0.5
      (single (mkImage 2 1 255 [5; 6])) = None.
Proof.
  apply (compositor_invalid_rect (single (mkImage 2 1 255 [5; 6])) 1%positive 1%positive
           (mkImage 2 1 255 [5; 6]) (mkImage 2 1 255 [5; 6]) 1 0 0.5).
  - reflexivity.
  - reflexivity.
  - unfold INT_MIN, INT_MAX. cbn. lia.
  - unfold INT_MIN, INT_MAX. cbn. lia.
  - cbn. lia.
Defined.

(** ** Beyond the range of int *)

(** 65536 * 65536 wraps around to 0: [ImageCreate] returns an image of
    that width and height with no pixel. *)
Example ImageCreate_65536 :
  ImageCreate AllocOK 65536 65536 255 (mkWorld ∅ "" ∅)
  = Some (Some 1%positive, mkWorld {[ 1%positive := mkImage 65536 65536 255 [] ]} "" ∅).
Proof. vm_compute. reflexivity. Qed.

(** A product that wraps around to a negative number is a size that
    [malloc] cannot serve. *)
Example ImageCreate_46341 :
  ImageCreate AllocOK 46341 46341 255 (mkWorld ∅ "" ∅)
  = Some (None, mkWorld ∅ "Memory allocation for pixel array failed" ∅).
Proof. vm_compute. reflexivity. Qed.

(** INT_MAX + 1 wraps around to INT_MIN, which is below every width: the
    assertion of [ImageCrop] passes. *)
Example ImageCrop_INT_MAX :
  ImageCrop AllocOK (Some 1%positive) 2147483647 0 1 0 (single (mkImage 1 1 255 [7]))
  = Some (Some 2%positive,
          mkWorld (<[2%positive := mkImage 1 0 255 []]> {[ 1%positive := mkImage 1 1 255 [7] ]})
                  "" ∅).
Proof. vm_compute. reflexivity. Qed.

(** A header whose width and height have a product that wraps around to 0
    needs no raster. *)
Example ImageLoad_65536 :
  ImageLoad AllocOK "a.pgm"
    (mkWorld ∅ "" {[ "a.pgm" := pgm_header 65536 65536 255 ]})
  = Some (Some 1%positive,
          mkWorld {[ 1%positive := mkImage 65536 65536 255 [] ]} ""
                  {[ "a.pgm" := pgm_header 65536 65536 255 ]}).
Proof. vm_compute. reflexivity. Qed.
